(** * Nirnay-112: the realtime client core

    A shallow embedding of the browser-side transport core of Nirnay-112:
    the [WebSocketService] class of
    [frontend/nirnay-ui/src/services/socket.js], the older service of
    [frontend/src/services/socket.js] (module [Legacy]) and the microphone
    callback of the two [App] components.

    JavaScript is single threaded: every callback (socket event, timer,
    audio element event, sampling block) runs to completion, and the
    continuation of an [await] runs in the microtask checkpoint that
    follows the callback which settled the promise.  A callback is therefore
    a function from the service state to the next state together with the
    list of effects it asked the platform for, in program order. *)

From Stdlib Require Import ZArith QArith Qround Qminmax List Ascii String Bool Lia Lqa.
From Stdlib Require Import DecimalString.
Import ListNotations.

#[local] Set Warnings "-register-all".

Local Open Scope string_scope.
Local Open Scope Z_scope.
Local Open Scope list_scope.

(** ** JavaScript values *)

(** A [Uint8Array] / [ArrayBuffer] payload. *)
Definition bytes := list Byte.byte.

(** The values that travel through the service: what [JSON.parse] returns,
    plus [undefined], binary payloads and caught exception objects. Numbers
    are the rationals that JSON literals denote. *)
Inductive jsval : Type :=
| JUndefined
| JNull
| JBool (b : bool)
| JNum (q : Q)
| JStr (s : string)
| JArr (items : list jsval)
| JObj (props : list (string * jsval))
| JBuf (data : bytes)
| JErr (name : string).

(** An object literal [{k1: v1, ...}], properties in source order. *)
Definition object := list (string * jsval).

(** ToBoolean. *)
Definition truthy (v : jsval) : bool :=
  match v with
  | JUndefined | JNull => false
  | JBool b => b
  | JNum q => negb (Qeq_bool q 0)
  | JStr s => negb (String.eqb s "")
  | JArr _ | JObj _ | JBuf _ | JErr _ => true
  end.

(** [a || b]. *)
Definition js_or (a b : jsval) : jsval := if truthy a then a else b.

Fixpoint own_prop (k : string) (ps : list (string * jsval)) : jsval :=
  match ps with
  | [] => JUndefined
  | (k', v) :: rest => if String.eqb k k' then v else own_prop k rest
  end.

(** [o.k] for [o] other than [null] and [undefined]: none of the names the
    service reads is a property of a primitive wrapper or of an array. *)
Definition prop (o : jsval) (k : string) : jsval :=
  match o with
  | JObj ps => own_prop k ps
  | _ => JUndefined
  end.

(** [Math.round]: the nearest integer, a tie going toward plus infinity. *)
Definition Math_round (x : Q) : Z := Qfloor (x + (1 # 2)).

(** Truncation toward zero, the first step of an integer typed-array store. *)
Definition js_trunc (x : Q) : Z := Z.quot (Qnum x) (Zpos (Qden x)).

(** ToInt16, the wrap-around of a store into an [Int16Array]. *)
Definition toInt16 (z : Z) : Z := (z + 32768) mod 65536 - 32768.

(** ** Effects *)

(** The two callbacks the service hands to [setTimeout]. *)
Inductive timer_callback : Type :=
| ReconnectTimer   (* () => this.connect(this.sessionId) *)
| PlayTimer.       (* () => if (!isPlaying && mp3Buffer.length > 0) playMP3Buffer() *)

(** What is written to the socket. *)
Inductive payload : Type :=
| Json (o : object)          (* ws.send(JSON.stringify(o)) *)
| Pcm16 (samples : list Z)   (* ws.send(int16Array.buffer) *)
| Raw (data : bytes).        (* ws.send(arrayBuffer) *)

Inductive effect : Type :=
| Notify (event : object)                        (* this.notifySubscribers(event) *)
| NewWebSocket                                   (* new WebSocket(wsUrl) *)
| WsSend (p : payload)
| WsClose (code : Z) (reason : string)
| SetTimeout (cb : timer_callback) (delay : Z)
| ClearTimeout (handle : nat)
| PlayAudio (unit : bytes)                       (* new Audio(url of the blob).play() *)
| CloseAudioContext.

(** The events of a list of effects, in publication order. *)
Fixpoint published (effs : list effect) : list object :=
  match effs with
  | [] => []
  | Notify e :: rest => e :: published rest
  | _ :: rest => published rest
  end.

(** The delays of the reconnection timers a list of effects arms. *)
Fixpoint scheduled (effs : list effect) : list Z :=
  match effs with
  | [] => []
  | SetTimeout ReconnectTimer d :: rest => d :: scheduled rest
  | _ :: rest => scheduled rest
  end.

Fixpoint playbacks (effs : list effect) : list bytes :=
  match effs with
  | [] => []
  | PlayAudio u :: rest => u :: playbacks rest
  | _ :: rest => playbacks rest
  end.

(** ** The service state *)

(** [WebSocket.readyState]. *)
Inductive readyState : Type := CONNECTING | OPEN | CLOSING | CLOSED.

(** A subscriber, known by identity only (a function reference). *)
Definition callback := nat.

(** The fields the constructor of [WebSocketService] declares. [ws] is
    [None] for [null] and otherwise carries the socket's ready state;
    [mp3PlayTimeout] holds the handle the last [setTimeout] returned (a
    positive number, hence truthy); [audioContext] says whether a context
    object is held. *)
Record WebSocketService : Type := {
  ws : option readyState;
  sessionId : option string;
  isConnected : bool;
  reconnectAttempts : Z;
  maxReconnectAttempts : Z;
  reconnectDelay : Z;
  subscribers : list callback;
  audioContext : bool;
  audioQueue : list bytes;
  mp3Buffer : list bytes;
  mp3PlayTimeout : option nat;
  isPlaying : bool
}.

Definition constructor : WebSocketService := {|
  ws := None;
  sessionId := None;
  isConnected := false;
  reconnectAttempts := 0;
  maxReconnectAttempts := 5;
  reconnectDelay := 1000;
  subscribers := [];
  audioContext := false;
  audioQueue := [];
  mp3Buffer := [];
  mp3PlayTimeout := None;
  isPlaying := false
|}.

Definition set_ws v (s : WebSocketService) :=
  {| ws := v; sessionId := sessionId s; isConnected := isConnected s;
     reconnectAttempts := reconnectAttempts s;
     maxReconnectAttempts := maxReconnectAttempts s;
     reconnectDelay := reconnectDelay s; subscribers := subscribers s;
     audioContext := audioContext s; audioQueue := audioQueue s;
     mp3Buffer := mp3Buffer s; mp3PlayTimeout := mp3PlayTimeout s;
     isPlaying := isPlaying s |}.

Definition set_sessionId v (s : WebSocketService) :=
  {| ws := ws s; sessionId := v; isConnected := isConnected s;
     reconnectAttempts := reconnectAttempts s;
     maxReconnectAttempts := maxReconnectAttempts s;
     reconnectDelay := reconnectDelay s; subscribers := subscribers s;
     audioContext := audioContext s; audioQueue := audioQueue s;
     mp3Buffer := mp3Buffer s; mp3PlayTimeout := mp3PlayTimeout s;
     isPlaying := isPlaying s |}.

Definition set_isConnected v (s : WebSocketService) :=
  {| ws := ws s; sessionId := sessionId s; isConnected := v;
     reconnectAttempts := reconnectAttempts s;
     maxReconnectAttempts := maxReconnectAttempts s;
     reconnectDelay := reconnectDelay s; subscribers := subscribers s;
     audioContext := audioContext s; audioQueue := audioQueue s;
     mp3Buffer := mp3Buffer s; mp3PlayTimeout := mp3PlayTimeout s;
     isPlaying := isPlaying s |}.

Definition set_reconnectAttempts v (s : WebSocketService) :=
  {| ws := ws s; sessionId := sessionId s; isConnected := isConnected s;
     reconnectAttempts := v;
     maxReconnectAttempts := maxReconnectAttempts s;
     reconnectDelay := reconnectDelay s; subscribers := subscribers s;
     audioContext := audioContext s; audioQueue := audioQueue s;
     mp3Buffer := mp3Buffer s; mp3PlayTimeout := mp3PlayTimeout s;
     isPlaying := isPlaying s |}.

Definition set_reconnectDelay v (s : WebSocketService) :=
  {| ws := ws s; sessionId := sessionId s; isConnected := isConnected s;
     reconnectAttempts := reconnectAttempts s;
     maxReconnectAttempts := maxReconnectAttempts s;
     reconnectDelay := v; subscribers := subscribers s;
     audioContext := audioContext s; audioQueue := audioQueue s;
     mp3Buffer := mp3Buffer s; mp3PlayTimeout := mp3PlayTimeout s;
     isPlaying := isPlaying s |}.

Definition set_subscribers v (s : WebSocketService) :=
  {| ws := ws s; sessionId := sessionId s; isConnected := isConnected s;
     reconnectAttempts := reconnectAttempts s;
     maxReconnectAttempts := maxReconnectAttempts s;
     reconnectDelay := reconnectDelay s; subscribers := v;
     audioContext := audioContext s; audioQueue := audioQueue s;
     mp3Buffer := mp3Buffer s; mp3PlayTimeout := mp3PlayTimeout s;
     isPlaying := isPlaying s |}.

Definition set_audioContext v (s : WebSocketService) :=
  {| ws := ws s; sessionId := sessionId s; isConnected := isConnected s;
     reconnectAttempts := reconnectAttempts s;
     maxReconnectAttempts := maxReconnectAttempts s;
     reconnectDelay := reconnectDelay s; subscribers := subscribers s;
     audioContext := v; audioQueue := audioQueue s;
     mp3Buffer := mp3Buffer s; mp3PlayTimeout := mp3PlayTimeout s;
     isPlaying := isPlaying s |}.

Definition set_audioQueue v (s : WebSocketService) :=
  {| ws := ws s; sessionId := sessionId s; isConnected := isConnected s;
     reconnectAttempts := reconnectAttempts s;
     maxReconnectAttempts := maxReconnectAttempts s;
     reconnectDelay := reconnectDelay s; subscribers := subscribers s;
     audioContext := audioContext s; audioQueue := v;
     mp3Buffer := mp3Buffer s; mp3PlayTimeout := mp3PlayTimeout s;
     isPlaying := isPlaying s |}.

Definition set_mp3Buffer v (s : WebSocketService) :=
  {| ws := ws s; sessionId := sessionId s; isConnected := isConnected s;
     reconnectAttempts := reconnectAttempts s;
     maxReconnectAttempts := maxReconnectAttempts s;
     reconnectDelay := reconnectDelay s; subscribers := subscribers s;
     audioContext := audioContext s; audioQueue := audioQueue s;
     mp3Buffer := v; mp3PlayTimeout := mp3PlayTimeout s;
     isPlaying := isPlaying s |}.

Definition set_mp3PlayTimeout v (s : WebSocketService) :=
  {| ws := ws s; sessionId := sessionId s; isConnected := isConnected s;
     reconnectAttempts := reconnectAttempts s;
     maxReconnectAttempts := maxReconnectAttempts s;
     reconnectDelay := reconnectDelay s; subscribers := subscribers s;
     audioContext := audioContext s; audioQueue := audioQueue s;
     mp3Buffer := mp3Buffer s; mp3PlayTimeout := v;
     isPlaying := isPlaying s |}.

Definition set_isPlaying v (s : WebSocketService) :=
  {| ws := ws s; sessionId := sessionId s; isConnected := isConnected s;
     reconnectAttempts := reconnectAttempts s;
     maxReconnectAttempts := maxReconnectAttempts s;
     reconnectDelay := reconnectDelay s; subscribers := subscribers s;
     audioContext := audioContext s; audioQueue := audioQueue s;
     mp3Buffer := mp3Buffer s; mp3PlayTimeout := mp3PlayTimeout s;
     isPlaying := v |}.

(** A callback's outcome: the next state and the effects it requested. *)
Definition outcome : Type := WebSocketService * list effect.

(** Sequencing of two steps of one callback, effects concatenated. *)
Definition and_then (r : outcome) (k : WebSocketService -> outcome) : outcome :=
  let (s1, e1) := r in
  let (s2, e2) := k s1 in
  (s2, e1 ++ e2).

(** ** Connection lifecycle *)

(** [connect(sessionId)]. [fresh] is the identifier [generateSessionId()]
    would build from the clock and the random source; it is used when the
    argument is falsy ([null], [undefined] or the empty string). The promise
    [connect] returns plays no part in the state, and the [WebSocket]
    constructor does not raise on the well-formed URL it is given. *)
Definition connect (fresh : string) (arg : option string)
    (s : WebSocketService) : outcome :=
  let sid := match arg with
             | Some given => if String.eqb given "" then fresh else given
             | None => fresh
             end in
  (set_ws (Some CONNECTING) (set_sessionId (Some sid) s), [NewWebSocket]).

Definition session_value (s : WebSocketService) : jsval :=
  match sessionId s with Some sid => JStr sid | None => JNull end.

(** [ws.onopen] fired by the socket the service holds: the platform has
    moved that socket to [OPEN], and [this.ws] in the handler is the socket
    that opened, so [send] does not raise. The same handler fired by a
    socket that [this.ws] no longer refers to is [orphan_onopen] below. *)
Definition ws_onopen (s : WebSocketService) : outcome :=
  let s := set_ws (Some OPEN) s in
  let s := set_isConnected true s in
  let s := set_reconnectAttempts 0 s in
  let s := set_reconnectDelay 1000 s in
  (s, [ WsSend (Json [("type", JStr "session_init"); ("session_id", session_value s)]);
        Notify [("type", JStr "connected"); ("sessionId", session_value s)] ]).

(** [ws.onerror]. *)
Definition ws_onerror (error : jsval) (s : WebSocketService) : outcome :=
  (s, [Notify [("type", JStr "error");
               ("message", JStr "WebSocket connection error");
               ("error", error)]]).

(** [attemptReconnect()]. *)
Definition attemptReconnect (s : WebSocketService) : outcome :=
  let s := set_reconnectAttempts (reconnectAttempts s + 1) s in
  let delay := Z.min (reconnectDelay s * 2 ^ (reconnectAttempts s - 1)) 30000 in
  (s, [SetTimeout ReconnectTimer delay]).

(** [ws.onclose]; the platform has moved the socket, when the service
    still holds it, to [CLOSED]. *)
Definition ws_onclose (code : Z) (reason : string)
    (s : WebSocketService) : outcome :=
  let s := set_ws (match ws s with Some _ => Some CLOSED | None => None end) s in
  let s := set_isConnected false s in
  and_then
    (s, [Notify [("type", JStr "disconnected"); ("code", JNum (inject_Z code));
                 ("reason", JStr reason)]])
    (fun s =>
       if negb (code =? 1000) && (reconnectAttempts s <? maxReconnectAttempts s)
       then attemptReconnect s
       else (s, [])).

(** The handler installed as [onopen], fired by a socket the service no
    longer holds: a later [connect()] has put another socket in [this.ws],
    or [disconnect()] has set it to [null]. The three fields are assigned
    first. [this.ws.send] then raises a [TypeError] when [this.ws] is
    [null] and an [InvalidStateError] when the socket held is still
    connecting; the handler stops there, with nothing sent and nothing
    published. On an open socket the handshake is written to the socket
    held; on a closing or closed one [send] discards the text. *)
Definition orphan_onopen (s : WebSocketService) : outcome :=
  let s := set_isConnected true s in
  let s := set_reconnectAttempts 0 s in
  let s := set_reconnectDelay 1000 s in
  let connected :=
    Notify [("type", JStr "connected"); ("sessionId", session_value s)] in
  match ws s with
  | None | Some CONNECTING => (s, [])
  | Some OPEN =>
    (s, [ WsSend (Json [("type", JStr "session_init");
                        ("session_id", session_value s)]);
          connected ])
  | Some CLOSING | Some CLOSED => (s, [connected])
  end.

(** The handler installed as [onclose], fired by a socket the service no
    longer holds: [this.ws] is not the socket that closed and keeps its
    state. *)
Definition orphan_onclose (code : Z) (reason : string)
    (s : WebSocketService) : outcome :=
  let s := set_isConnected false s in
  and_then
    (s, [Notify [("type", JStr "disconnected"); ("code", JNum (inject_Z code));
                 ("reason", JStr reason)]])
    (fun s =>
       if negb (code =? 1000) && (reconnectAttempts s <? maxReconnectAttempts s)
       then attemptReconnect s
       else (s, [])).

(** The callback [attemptReconnect] passed to [setTimeout]. *)
Definition reconnect_timer (fresh : string) (s : WebSocketService) : outcome :=
  connect fresh (sessionId s) s.

(** [disconnect()]. *)
Definition disconnect (s : WebSocketService) : outcome :=
  and_then
    (match ws s with
     | Some _ => (set_ws None s, [WsClose 1000 "Client disconnect"])
     | None => (s, [])
     end)
    (fun s =>
       let s := set_isConnected false s in
       let s := set_audioQueue [] s in
       let s := set_mp3Buffer [] s in
       let s := set_isPlaying false s in
       and_then
         (match mp3PlayTimeout s with
          | Some h => (set_mp3PlayTimeout None s, [ClearTimeout h])
          | None => (s, [])
          end)
         (fun s =>
            if audioContext s
            then (set_audioContext false s, [CloseAudioContext])
            else (s, []))).

Definition getConnectionStatus (s : WebSocketService) : bool := isConnected s.

Definition getSessionId (s : WebSocketService) : option string := sessionId s.

(** ** Event bus *)

(** The argument of [subscribe]: a function reference or anything else. *)
Inductive jsarg : Type :=
| Function (f : callback)
| NotAFunction.

(** [Set.prototype.add], [delete] and [has] on a set kept in insertion
    order, the order [forEach] visits. *)
Definition Set_has (f : callback) (set : list callback) : bool :=
  existsb (Nat.eqb f) set.

Definition Set_add (f : callback) (set : list callback) : list callback :=
  if Set_has f set then set else set ++ [f].

Definition Set_delete (f : callback) (set : list callback) : list callback :=
  filter (fun g => negb (Nat.eqb f g)) set.

(** [subscribe(callback)]. *)
Definition subscribe (a : jsarg) (s : WebSocketService) : WebSocketService :=
  match a with
  | Function f => set_subscribers (Set_add f (subscribers s)) s
  | NotAFunction => s
  end.

(** [unsubscribe(callback)]. *)
Definition unsubscribe (a : jsarg) (s : WebSocketService) : WebSocketService :=
  match a with
  | Function f => set_subscribers (Set_delete f (subscribers s)) s
  | NotAFunction => s
  end.

(** [notifySubscribers(event)]: the calls [callback(event)] made, in order.
    An exception a callback raises is caught and logged inside the loop, so
    what a callback does has no bearing on the calls that follow. *)
Definition notifySubscribers (event : object) (s : WebSocketService)
    : list (callback * object) :=
  map (fun f => (f, event)) (subscribers s).

(** How many of the calls went to [f]. *)
Definition calls_to (f : callback) (calls : list (callback * object)) : nat :=
  List.length (filter (fun c => Nat.eqb f (fst c)) calls).

(** ** Playback of inbound audio fragments *)

Definition nonempty {A : Type} (l : list A) : bool :=
  match l with [] => false | _ :: _ => true end.

(** [playMP3Buffer()] up to its [await playPromise]. The guard returns at
    once; otherwise the flag is raised, the fragments are copied one after
    the other into one array, the buffer is emptied and an [Audio] element
    is started on the result. [HTMLMediaElement.play()] returns a promise on
    every engine that implements the HTML Standard, so the branch for
    [playAttempt === undefined] is not taken. *)
Definition playMP3Buffer (s : WebSocketService) : outcome :=
  if isPlaying s || negb (nonempty (mp3Buffer s)) then (s, [])
  else
    let s := set_isPlaying true s in
    let combined := List.concat (mp3Buffer s) in
    let s := set_mp3Buffer [] s in
    (s, [PlayAudio combined]).

(** The rest of [playMP3Buffer] once [playPromise] is fulfilled. *)
Definition playMP3Buffer_resumed (s : WebSocketService) : outcome :=
  if nonempty (mp3Buffer s) then playMP3Buffer s
  else (set_isPlaying false s, []).

(** The [catch] block of [playMP3Buffer], entered when [playPromise] is
    rejected. *)
Definition playMP3Buffer_catch (s : WebSocketService) : outcome :=
  (set_mp3Buffer [] (set_isPlaying false s), []).

(** [audio.onended]: lowers the flag and fulfils [playPromise]. *)
Definition audio_onended (s : WebSocketService) : outcome :=
  and_then (set_isPlaying false s, []) playMP3Buffer_resumed.

(** [audio.onerror]: lowers the flag and rejects [playPromise]. *)
Definition audio_onerror (s : WebSocketService) : outcome :=
  and_then (set_isPlaying false s, []) playMP3Buffer_catch.

(** The [.catch] on [audio.play()]: the platform declined to start. *)
Definition play_rejected (name : string) (s : WebSocketService) : outcome :=
  and_then
    (set_isPlaying false s,
     if String.eqb name "NotAllowedError"
     then [Notify [("type", JStr "error");
                   ("message", JStr "Audio autoplay blocked. Please click anywhere on the page to enable audio playback.");
                   ("error", JErr name)]]
     else [])
    playMP3Buffer_resumed.

(** The callback [handleAudioChunk] passes to [setTimeout]. *)
Definition play_timer (s : WebSocketService) : outcome :=
  if negb (isPlaying s) && nonempty (mp3Buffer s) then playMP3Buffer s
  else (s, []).

(** [if (this.mp3PlayTimeout) clearTimeout(this.mp3PlayTimeout)]. *)
Definition clear_play_timeout (s : WebSocketService) : list effect :=
  match mp3PlayTimeout s with
  | Some h => [ClearTimeout h]
  | None => []
  end.

(** [handleAudioChunk(audioData)] from the point where the payload is an
    [ArrayBuffer]. [handle] is what [setTimeout] returns. The source clears
    the previous timer twice. *)
Definition handleAudioChunk (handle : nat) (audioData : bytes)
    (s : WebSocketService) : outcome :=
  let s := set_mp3Buffer (mp3Buffer s ++ [audioData]) s in
  let clear := clear_play_timeout s ++ clear_play_timeout s in
  let s := set_mp3PlayTimeout (Some handle) s in
  (s, clear ++ [SetTimeout PlayTimer 300;
                Notify [("type", JStr "audio_chunk"); ("data", JBuf audioData)]]).

(** ** Inbound frames *)

(** What [event.data] is. A binary frame reaches the page as a [Blob]
    unless [binaryType] has been set to ['arraybuffer'], which neither
    service does; [handleMessage] accepts both. *)
Inductive frame : Type :=
| Binary (data : bytes)       (* an ArrayBuffer *)
| Text (data : string)
| BinaryBlob (data : bytes).  (* a Blob *)

(** The case labels of the [switch] in [processMessage]. *)
Definition known_types : list string :=
  [ "session_initialized"; "transcript"; "user_transcript"; "ai_transcript";
    "incident_summary"; "decision_explanation"; "transcription_status";
    "error"; "audio_processed" ].

(** [processMessage(message)]: [None] when reading [message.type] raises a
    [TypeError]. [now] is [new Date().toISOString()]. *)
Definition processMessage (now : string) (message : jsval)
    : option (list effect) :=
  match message with
  | JNull | JUndefined => None
  | _ =>
    Some
      match prop message "type" with
      | JStr t =>
        if String.eqb t "session_initialized" then
          [Notify [("type", JStr "session_initialized");
                   ("sessionId", prop message "session_id")]]
        else if String.eqb t "transcript" || String.eqb t "user_transcript"
                || String.eqb t "ai_transcript" then
          [Notify [("type", JStr "transcript");
                   ("text", prop message "text");
                   ("speaker",
                    js_or (prop message "speaker")
                          (if String.eqb t "ai_transcript"
                           then JStr "ai" else JStr "user"));
                   ("timestamp", js_or (prop message "timestamp") (JStr now));
                   ("confidence", prop message "confidence")]]
        else if String.eqb t "incident_summary" then
          [Notify [("type", JStr "incident_summary");
                   ("incident",
                    js_or (prop message "summary") (prop message "incident"));
                   ("confidence", prop message "confidence");
                   ("missing_fields",
                    js_or (prop message "missing_fields") (JArr []))]]
        else if String.eqb t "decision_explanation" then
          [Notify [("type", JStr "decision_explanation");
                   ("urgency_score", prop message "urgency_score");
                   ("urgency_level", prop message "urgency_level");
                   ("top_3_contributing_factors",
                    js_or (prop message "top_3_contributing_factors") (JArr []));
                   ("why_escalated", prop message "why_escalated");
                   ("confidence_warnings",
                    js_or (prop message "confidence_warnings") (JArr []))]]
        else if String.eqb t "transcription_status" then
          [Notify [("type", JStr "transcription_status");
                   ("status", prop message "status");
                   ("message",
                    js_or (prop message "message") (prop message "reason"));
                   ("confidence", prop message "confidence")]]
        else if String.eqb t "error" then
          [Notify [("type", JStr "error");
                   ("message", prop message "message");
                   ("error", message)]]
        else if String.eqb t "audio_processed" then
          [Notify [("type", JStr "audio_processed");
                   ("transcribed",
                    js_or (prop message "transcribed") (JBool false))]]
        else []
      | _ => []
      end
  end.

(** The event the [catch] of [handleMessage] publishes. *)
Definition parse_failure (error : string) : object :=
  [("type", JStr "error"); ("message", JStr "Failed to parse message");
   ("error", JErr error)].

(** [handleMessage(event)]. [JSON_parse] is the platform's decoder, [None]
    when it raises a [SyntaxError]; [handle] is as in [handleAudioChunk].
    On an [ArrayBuffer] the call of [handleAudioChunk] runs to its end
    inside this call. On a [Blob] it stops at
    [await audioData.arrayBuffer()] before it has touched anything, and
    this call returns; the rest is [handleAudioChunk] on the bytes read,
    run when the read is fulfilled, or [handleAudioChunk_catch] when it is
    rejected.
    The [fetch] calls of the [agent log] regions post debugging records to a
    local collector and are left out everywhere: they touch no field, and
    the only thing they can raise is the [TypeError] on a [null] message,
    inside the same [try], which [processMessage] accounts for. *)
Definition handleMessage (JSON_parse : string -> option jsval) (now : string)
    (handle : nat) (event : frame) (s : WebSocketService) : outcome :=
  match event with
  | Binary data => handleAudioChunk handle data s
  | Text data =>
    match JSON_parse data with
    | Some message =>
      match processMessage now message with
      | Some effs => (s, effs)
      | None => (s, [Notify (parse_failure "TypeError")])
      end
    | None => (s, [Notify (parse_failure "SyntaxError")])
    end
  | BinaryBlob _ => (s, [])
  end.

(** The [catch] of [handleAudioChunk], entered when the read of a blob is
    rejected. *)
Definition handleAudioChunk_catch (error : string) (s : WebSocketService)
    : outcome :=
  (s, [Notify [("type", JStr "error");
               ("message", JStr "Failed to process audio chunk");
               ("error", JErr error)]]).

(** ** Outbound audio *)

(** The argument of [sendAudioChunk]. *)
Inductive chunk : Type :=
| Float32Array (samples : list Q)
| ArrayBuffer (data : bytes)
| Blob (data : bytes)
| Unsupported.

(** The body of the conversion loop of [sendAudioChunk]. A sample is a
    binary32 number, a dyadic rational; [s * 32768] scales it by a power of
    two and is exact in double precision, so [Q] carries the same values.
    The store into the [Int16Array] applies [toInt16]. *)
Definition int16_of_sample (x : Q) : Z :=
  let s := Qmax (-1 # 1) (Qmin (1 # 1) x) in
  toInt16 (Z.max (-32768) (Z.min 32767 (Math_round (s * (32768 # 1))))).

(** [sendAudioChunk(chunk)]. A [Blob] has no [byteLength], so the test
    [audioData.byteLength > 0] fails for it and nothing is sent. [ws.send]
    does not raise on an open socket, so the [catch] is not entered. *)
Definition sendAudioChunk (c : chunk) (s : WebSocketService) : outcome :=
  match isConnected s, ws s with
  | true, Some OPEN =>
    match c with
    | Float32Array samples =>
      let int16Array := map int16_of_sample samples in
      if nonempty int16Array then (s, [WsSend (Pcm16 int16Array)]) else (s, [])
    | ArrayBuffer data =>
      if nonempty data then (s, [WsSend (Raw data)]) else (s, [])
    | Blob _ => (s, [])
    | Unsupported => (s, [])
    end
  | _, _ => (s, [])
  end.

(** ** The older service, [frontend/src/services/socket.js]

    Its constructor, [connect], [ws.onopen], [ws.onerror], [ws.onclose],
    [attemptReconnect], [subscribe], [unsubscribe], [notifySubscribers],
    [getConnectionStatus] and [getSessionId] read as the ones above; its
    [disconnect] is the one above without the two MP3 fields, which this
    service does not have and never touches. What differs is below. *)
Module Legacy.

(** [processMessage(message)]. *)
Definition processMessage (now : string) (message : jsval)
    : option (list effect) :=
  match message with
  | JNull | JUndefined => None
  | _ =>
    Some
      match prop message "type" with
      | JStr t =>
        if String.eqb t "session_initialized" then
          [Notify [("type", JStr "session_initialized");
                   ("sessionId", prop message "session_id")]]
        else if String.eqb t "transcript" || String.eqb t "user_transcript"
                || String.eqb t "ai_transcript" then
          [Notify [("type", JStr "transcript");
                   ("text", prop message "text");
                   ("speaker",
                    js_or (prop message "speaker")
                          (if String.eqb t "ai_transcript"
                           then JStr "ai" else JStr "user"));
                   ("timestamp", js_or (prop message "timestamp") (JStr now));
                   ("confidence", prop message "confidence")]]
        else if String.eqb t "incident_summary" then
          [Notify [("type", JStr "incident");
                   ("incident",
                    js_or (prop message "summary") (prop message "incident"));
                   ("confidence", prop message "confidence");
                   ("missing_fields",
                    js_or (prop message "missing_fields") (JArr []))]]
        else if String.eqb t "error" then
          [Notify [("type", JStr "error");
                   ("message", prop message "message");
                   ("error", message)]]
        else if String.eqb t "audio_processed" then
          [Notify [("type", JStr "audio_processed");
                   ("transcribed",
                    js_or (prop message "transcribed") (JBool false))]]
        else [Notify [("type", JStr "unknown"); ("message", message)]]
      | _ => [Notify [("type", JStr "unknown"); ("message", message)]]
      end
  end.

(** The loop of [playAudioQueue()], entered at its head: one buffer is
    taken from the queue and started, or the flag is lowered. It is
    entered again when [source.onended] fulfils the awaited promise. *)
Definition playAudioQueue_loop (s : WebSocketService) : outcome :=
  match audioQueue s with
  | audioBuffer :: rest => (set_audioQueue rest s, [PlayAudio audioBuffer])
  | [] => (set_isPlaying false s, [])
  end.

(** [playAudioQueue()]. *)
Definition playAudioQueue (s : WebSocketService) : outcome :=
  if isPlaying s || negb (nonempty (audioQueue s)) then (s, [])
  else playAudioQueue_loop (set_isPlaying true s).

(** [handleAudioChunk(audioData)] as one step, taken when
    [decodeAudioData] has settled: the audio context is made on entry,
    before the decoder is started, and nothing else is done until the
    decoder settles. [decodable] says whether it accepted the payload. *)
Definition handleAudioChunk (decodable : bytes -> bool) (audioData : bytes)
    (s : WebSocketService) : outcome :=
  let s := set_audioContext true s in
  if decodable audioData then
    let s := set_audioQueue (audioQueue s ++ [audioData]) s in
    and_then
      (if negb (isPlaying s) then playAudioQueue s else (s, []))
      (fun s => (s, [Notify [("type", JStr "audio_chunk");
                             ("data", JBuf audioData)]]))
  else
    (s, [Notify [("type", JStr "error");
                 ("message", JStr "Failed to process audio chunk");
                 ("error", JErr "EncodingError")]]).

(** [handleMessage(event)]. The call of [handleAudioChunk] it makes on a
    binary frame stops at its first [await] and this call returns: on an
    [ArrayBuffer] the audio context has been made and the decoder started,
    on a [Blob] only the read has been started. What the decoder answers,
    [decodable], is not known to this call; the rest of [handleAudioChunk]
    above runs when the decoder has settled. *)
Definition handleMessage (JSON_parse : string -> option jsval) (now : string)
    (decodable : bytes -> bool) (event : frame) (s : WebSocketService)
    : outcome :=
  match event with
  | Binary _ => (set_audioContext true s, [])
  | Text data =>
    match JSON_parse data with
    | Some message =>
      match processMessage now message with
      | Some effs => (s, effs)
      | None => (s, [Notify (parse_failure "TypeError")])
      end
    | None => (s, [Notify (parse_failure "SyntaxError")])
    end
  | BinaryBlob _ => (s, [])
  end.

(** The body of the conversion loop of [sendAudioChunk]:
    [s < 0 ? s * 0x8000 : s * 0x7FFF], stored into an [Int16Array]. Both
    products are exact in double precision for a binary32 [s]. *)
Definition int16_of_sample (x : Q) : Z :=
  let s := Qmax (-1 # 1) (Qmin (1 # 1) x) in
  toInt16 (js_trunc (if Qlt_le_dec s 0 then s * (32768 # 1)
                     else s * (32767 # 1))).

(** [sendAudioChunk(chunk)]. The guard tests the flag and that a socket
    is held, not the state of the socket. A chunk of an unsupported type
    returns before [send]. [send] writes the frame on an open socket, the
    bytes of a [Blob] as they are; on a socket still connecting it raises
    an [InvalidStateError], which the [catch] publishes; on a closing or
    closed socket it discards the data. *)
Definition sendAudioChunk (c : chunk) (s : WebSocketService) : outcome :=
  match isConnected s, ws s with
  | true, Some state =>
    let audioData :=
      match c with
      | Float32Array samples => Some (Pcm16 (map int16_of_sample samples))
      | ArrayBuffer data => Some (Raw data)
      | Blob data => Some (Raw data)
      | Unsupported => None
      end in
    match audioData, state with
    | None, _ => (s, [])
    | Some p, OPEN => (s, [WsSend p])
    | Some _, CONNECTING =>
      (s, [Notify [("type", JStr "error");
                   ("message", JStr "Failed to send audio chunk");
                   ("error", JErr "InvalidStateError")]])
    | Some _, (CLOSING | CLOSED) => (s, [])
    end
  | _, _ => (s, [])
  end.

End Legacy.

(** ** Microphone capture, [processor.onaudioprocess] of the two [App]s *)

(** [const chunkSize = 8000; // 500ms at 16kHz] *)
Definition chunkSize : nat := Z.to_nat 8000.

(** One sampling callback. [active] is the flag the handler tests first
    ([isRecordingActive], and in the older [App] the [isRecording] its
    closure captured); [audioBuffer] is the array the closure keeps between
    calls and [inputData] the block of channel 0. The result is the array
    after the call and the chunk passed to [socketService.sendAudioChunk],
    if one was. *)
Definition onaudioprocess (active : bool) (audioBuffer inputData : list Q)
    : list Q * option chunk :=
  if negb active then (audioBuffer, None)
  else
    let audioBuffer := audioBuffer ++ inputData in
    if (chunkSize <=? List.length audioBuffer)%nat
    then (skipn chunkSize audioBuffer,
          Some (Float32Array (firstn chunkSize audioBuffer)))
    else (audioBuffer, None).

(** A recording: the blocks the sampling process delivers, one callback
    each, and the chunks handed over, oldest first. *)
Fixpoint capture (active : bool) (audioBuffer : list Q)
    (blocks : list (list Q)) : list Q * list chunk :=
  match blocks with
  | [] => (audioBuffer, [])
  | inputData :: later =>
    let (audioBuffer, sent) := onaudioprocess active audioBuffer inputData in
    let (final, chunks) := capture active audioBuffer later in
    (final, match sent with Some c => c :: chunks | None => chunks end)
  end.

Definition chunk_length (c : chunk) : nat :=
  match c with
  | Float32Array samples => List.length samples
  | ArrayBuffer data | Blob data => List.length data
  | Unsupported => 0%nat
  end.

(** [startRecording()] of nirnay-ui: the flag the handler it installs
    tests, the local [isRecordingActive], [true] until [_stopRecording()]
    lowers it. [None] when [getUserMedia] is refused and no handler is
    installed. *)
Definition startRecording (granted : bool) : option bool :=
  if granted then Some true else None.

(** [toggleRecording()] in a render whose state is [isRecording], the only
    caller of [startRecording()]: the flag of the handler installed, [None]
    when it calls [stopRecording()] instead or the microphone is refused. *)
Definition toggleRecording (isRecording granted : bool) : option bool :=
  if isRecording then None else startRecording granted.

(** The older [App], [unnamed/part_002]. Its [startRecording] is made by
    [useCallback] with [isRecording] as dependency, and the handler it
    installs tests that [isRecording]: a constant of the closure, the state
    of the render that made this [startRecording], which the
    [setIsRecording(true)] at the end of [startRecording] does not change.
    [toggleRecording] has [isRecording] and [startRecording] among its
    dependencies, so both are those of its own render. *)
Module OlderApp.

Definition startRecording (isRecording granted : bool) : option bool :=
  if granted then Some isRecording else None.

Definition toggleRecording (isRecording granted : bool) : option bool :=
  if isRecording then None else startRecording isRecording granted.

End OlderApp.

(** ** The platform around the playback pipeline

    The browser's side of [handleAudioChunk] and [playMP3Buffer]: the clock,
    the timers armed with the play callback, and the [Audio] elements whose
    playback has begun and has not yet come to an end. *)

(** How a playback comes to its end: the [ended] event, the [error] event,
    or the rejection of the promise [play()] returned. *)
Inductive completion : Type :=
| Ended
| Errored
| Declined (name : string).

Inductive input : Type :=
| FragmentArrived (data : bytes)     (* a binary frame reaches handleAudioChunk *)
| TimerFired (handle : nat)          (* the platform runs an armed timer *)
| PlaybackCompleted (how : completion).

Record World : Type := {
  service : WebSocketService;
  clock : Z;
  timers : list (nat * Z);      (* armed play timers: handle and due time *)
  nextHandle : nat;             (* the handle the next setTimeout returns *)
  audio : list bytes;           (* playbacks in progress *)
  started : list (Z * bytes)    (* every playback begun: when, and of what *)
}.

Definition boot : World := {|
  service := constructor;
  clock := 0;
  timers := [];
  nextHandle := 1;
  audio := [];
  started := []
|}.

Definition armed (h : nat) (ts : list (nat * Z)) : bool :=
  existsb (fun t => Nat.eqb h (fst t)) ts.

Definition disarm (h : nat) (ts : list (nat * Z)) : list (nat * Z) :=
  filter (fun t => negb (Nat.eqb h (fst t))) ts.

(** The platform carries out the effects of a callback, in order. *)
Fixpoint perform (effs : list effect) (w : World) : World :=
  match effs with
  | [] => w
  | SetTimeout PlayTimer delay :: rest =>
    perform rest
      {| service := service w; clock := clock w;
         timers := timers w ++ [(nextHandle w, clock w + delay)];
         nextHandle := S (nextHandle w);
         audio := audio w; started := started w |}
  | SetTimeout ReconnectTimer _ :: rest =>
    perform rest
      {| service := service w; clock := clock w; timers := timers w;
         nextHandle := S (nextHandle w);
         audio := audio w; started := started w |}
  | ClearTimeout h :: rest =>
    perform rest
      {| service := service w; clock := clock w;
         timers := disarm h (timers w); nextHandle := nextHandle w;
         audio := audio w; started := started w |}
  | PlayAudio unit :: rest =>
    perform rest
      {| service := service w; clock := clock w; timers := timers w;
         nextHandle := nextHandle w;
         audio := audio w ++ [unit];
         started := started w ++ [(clock w, unit)] |}
  | _ :: rest => perform rest w
  end.

(** A callback of the service run by the platform. *)
Definition callback_run (f : WebSocketService -> outcome) (w : World) : World :=
  let (s, effs) := f (service w) in
  perform effs
    {| service := s; clock := clock w; timers := timers w;
       nextHandle := nextHandle w; audio := audio w; started := started w |}.

Definition completion_handler (how : completion)
    : WebSocketService -> outcome :=
  match how with
  | Ended => audio_onended
  | Errored => audio_onerror
  | Declined name => play_rejected name
  end.

(** One turn of the event loop. A timer runs only while armed and is
    disarmed by running; a completion belongs to the oldest playback in
    progress and there is none to deliver when nothing plays. *)
Definition deliver (i : input) (w : World) : World :=
  match i with
  | FragmentArrived data =>
    callback_run (handleAudioChunk (nextHandle w) data) w
  | TimerFired h =>
    if armed h (timers w) then
      callback_run play_timer
        {| service := service w; clock := clock w;
           timers := disarm h (timers w); nextHandle := nextHandle w;
           audio := audio w; started := started w |}
    else w
  | PlaybackCompleted how =>
    match audio w with
    | [] => w
    | _ :: others =>
      callback_run (completion_handler how)
        {| service := service w; clock := clock w; timers := timers w;
           nextHandle := nextHandle w; audio := others;
           started := started w |}
    end
  end.

(** Any sequence of turns. *)
Definition turns (inputs : list input) (w : World) : World :=
  fold_left (fun w i => deliver i w) inputs w.

(** The armed timer that is due first at or before [t], if any. *)
Fixpoint next_due (t : Z) (ts : list (nat * Z)) : option (nat * Z) :=
  match ts with
  | [] => None
  | (h, due) :: rest =>
    match next_due t rest with
    | Some (h', due') =>
      if (due <=? t) && (due <=? due') then Some (h, due) else Some (h', due')
    | None => if due <=? t then Some (h, due) else None
    end
  end.

Definition set_clock (t : Z) (w : World) : World :=
  {| service := service w; clock := t; timers := timers w;
     nextHandle := nextHandle w; audio := audio w; started := started w |}.

(** Time passes until [t]: the timers due by then run, each at its due
    time, earliest first. The play callback arms no timer, so one round per
    armed timer is enough. *)
Fixpoint fire_due (rounds : nat) (t : Z) (w : World) : World :=
  match rounds with
  | O => w
  | S rounds =>
    match next_due t (timers w) with
    | Some (h, due) =>
      fire_due rounds t (deliver (TimerFired h) (set_clock (Z.max (clock w) due) w))
    | None => w
    end
  end.

Definition advance (t : Z) (w : World) : World :=
  let w := fire_due (List.length (timers w)) t w in
  set_clock (Z.max (clock w) t) w.

(** A timed schedule of arrivals and completions, in time order. *)
Definition run (schedule : list (Z * input)) (w : World) : World :=
  fold_left (fun w ti => deliver (snd ti) (advance (fst ti) w)) schedule w.

(** ** Scenarios *)

(** A run of reconnection attempts that all fail. The socket in use closes
    with the first code; whenever a close arms the reconnection timer, the
    timer runs [reconnect_timer], the socket it opens fails ([ws.onerror])
    and closes with the next code. The result lists the delays armed, in
    order. A close that arms no timer leaves no socket behind to close, and
    the run is over. *)
Fixpoint failing_run (fresh : string) (codes : list Z) (s : WebSocketService)
    : list Z :=
  match codes with
  | [] => []
  | code :: later =>
    let (s, effs) := ws_onclose code "" s in
    match scheduled effs with
    | delay :: _ =>
      let (s, _) := reconnect_timer fresh s in
      let (s, _) := ws_onerror (JErr "Event") s in
      delay :: failing_run fresh later s
    | [] => []
    end
  end.

(** The double quote character, for writing JSON text. *)
Definition dq : string := String "034"%char EmptyString.

(** The text frame [{"type":"heartbeat"}]. *)
Definition heartbeat_frame : string :=
  ("{" ++ dq ++ "type" ++ dq ++ ":" ++ dq ++ "heartbeat" ++ dq ++ "}")%string.

(** [JSON.parse] on the frames of the examples below: the heartbeat
    envelope, the document [null], and text that is not JSON. *)
Definition example_parse (data : string) : option jsval :=
  if String.eqb data heartbeat_frame
  then Some (JObj [("type", JStr "heartbeat")])
  else if String.eqb data "null" then Some JNull
  else None.

(** The calls a client makes on the event bus. *)
Inductive bus_call : Type :=
| Subscribe (a : jsarg)
| Unsubscribe (a : jsarg).

Definition bus_step (s : WebSocketService) (c : bus_call) : WebSocketService :=
  match c with
  | Subscribe a => subscribe a s
  | Unsubscribe a => unsubscribe a s
  end.

Definition bus_calls (calls : list bus_call) (s : WebSocketService)
    : WebSocketService :=
  fold_left bus_step calls s.

(** The history of the bus read from the calls alone. The current
    subscription of [f] begins at the first [subscribe(f)] made since [f]
    was last unsubscribed, or since the start; [joined f calls] is the
    position of that call in the history, [None] when the last word on [f]
    is an [unsubscribe(f)] or there is none. The first component counts the
    calls read. *)
Definition joined_step (f : callback) (acc : nat * option nat) (c : bus_call)
    : nat * option nat :=
  (S (fst acc),
   match c with
   | Subscribe (Function g) =>
     if Nat.eqb f g
     then match snd acc with Some i => Some i | None => Some (fst acc) end
     else snd acc
   | Unsubscribe (Function g) => if Nat.eqb f g then None else snd acc
   | _ => snd acc
   end).

Definition joined (f : callback) (calls : list bus_call) : option nat :=
  snd (fold_left (joined_step f) calls (0%nat, None)).

(** The current subscription of [f] began before that of [g]. *)
Definition earlier (calls : list bus_call) (f g : callback) : Prop :=
  match joined f calls, joined g calls with
  | Some i, Some j => (i < j)%nat
  | _, _ => False
  end.

(** The flag and the playbacks in progress agree: one playback with the
    flag up, none with the flag down. *)
Definition flag_matches_audio (w : World) : Prop :=
  (isPlaying (service w) = true /\ exists unit, audio w = [unit])
  \/ (isPlaying (service w) = false /\ audio w = []).

(** ** Further scenarios *)

(** What can happen to the connection: the two calls of the client and the
    callbacks the platform runs. [fresh] is what [generateSessionId()] would
    return at that moment. [SocketOpened] and [SocketClosed] come from the
    socket in [this.ws]; a socket replaced by a later [connect()] or let go
    by [disconnect()] still has its handlers, and its events are
    [OrphanOpened] and [OrphanClosed]. [onerror] reads no field, so
    [SocketFailed] stands for either. *)
Inductive socket_event : Type :=
| ClientConnect (fresh : string) (arg : option string)   (* connect(arg) *)
| SocketOpened                                            (* ws.onopen *)
| SocketFailed (error : jsval)                            (* ws.onerror *)
| SocketClosed (code : Z) (reason : string)               (* ws.onclose *)
| ReconnectDue (fresh : string)                           (* the reconnection timer *)
| ClientDisconnect                                        (* disconnect() *)
| OrphanOpened                                            (* onopen, socket not held *)
| OrphanClosed (code : Z) (reason : string).              (* onclose, socket not held *)

Definition socket_step (ev : socket_event) (s : WebSocketService) : outcome :=
  match ev with
  | ClientConnect fresh arg => connect fresh arg s
  | SocketOpened => ws_onopen s
  | SocketFailed error => ws_onerror error s
  | SocketClosed code reason => ws_onclose code reason s
  | ReconnectDue fresh => reconnect_timer fresh s
  | ClientDisconnect => disconnect s
  | OrphanOpened => orphan_onopen s
  | OrphanClosed code reason => orphan_onclose code reason s
  end.

(** A history of the connection: the final state and every effect asked
    for, in order. *)
Fixpoint socket_trace (evs : list socket_event) (s : WebSocketService)
    : outcome :=
  match evs with
  | [] => (s, [])
  | ev :: later => and_then (socket_step ev s) (socket_trace later)
  end.

Definition is_client_connect (ev : socket_event) : bool :=
  match ev with ClientConnect _ _ => true | _ => false end.

(** The events whose handler assigns [true] to [isConnected], those whose
    handler assigns [false], and those of a socket no longer held. *)
Definition raises_flag (ev : socket_event) : bool :=
  match ev with SocketOpened | OrphanOpened => true | _ => false end.

Definition lowers_flag (ev : socket_event) : bool :=
  match ev with
  | SocketClosed _ _ | OrphanClosed _ _ | ClientDisconnect => true
  | _ => false
  end.

Definition is_orphan_event (ev : socket_event) : bool :=
  match ev with OrphanOpened | OrphanClosed _ _ => true | _ => false end.



(** The [session_id] of every JSON message a list of effects sends. *)
Fixpoint sent_session_ids (effs : list effect) : list jsval :=
  match effs with
  | [] => []
  | WsSend (Json o) :: rest => own_prop "session_id" o :: sent_session_ids rest
  | _ :: rest => sent_session_ids rest
  end.

(** The handles a list of effects passes to [clearTimeout]. *)
Fixpoint cleared (effs : list effect) : list nat :=
  match effs with
  | [] => []
  | ClearTimeout h :: rest => h :: cleared rest
  | _ :: rest => cleared rest
  end.

(** What a list of effects writes to the socket. *)
Fixpoint sent (effs : list effect) : list payload :=
  match effs with
  | [] => []
  | WsSend p :: rest => p :: sent rest
  | _ :: rest => sent rest
  end.

(** The [type] the [switch] of [processMessage] gives the event it
    publishes under case label [t]: the three transcript labels share one
    case, every other case repeats its label. *)
Definition event_type (t : string) : string :=
  if String.eqb t "user_transcript" || String.eqb t "ai_transcript"
  then "transcript" else t.

(** The case labels of the [switch] in the older [processMessage], and the
    [type] of the event each case publishes. *)
Definition legacy_known_types : list string :=
  [ "session_initialized"; "transcript"; "user_transcript"; "ai_transcript";
    "incident_summary"; "error"; "audio_processed" ].

Definition legacy_event_type (t : string) : string :=
  if String.eqb t "user_transcript" || String.eqb t "ai_transcript"
  then "transcript"
  else if String.eqb t "incident_summary" then "incident" else t.

(** The samples of a chunk handed to [sendAudioChunk] by the capture. *)
Definition chunk_samples (c : chunk) : list Q :=
  match c with
  | Float32Array samples => samples
  | _ => []
  end.

(** The payloads of the fragments among the inputs, in arrival order. *)
Fixpoint arrived (inputs : list input) : list bytes :=
  match inputs with
  | [] => []
  | FragmentArrived data :: later => data :: arrived later
  | _ :: later => arrived later
  end.

Definition is_playback_error (i : input) : bool :=
  match i with PlaybackCompleted Errored => true | _ => false end.

(** All bytes handed to an [Audio] element so far, and all bytes waiting. *)
Definition played_bytes (w : World) : bytes :=
  List.concat (map snd (started w)).

Definition buffered_bytes (w : World) : bytes :=
  List.concat (mp3Buffer (service w)).

(** At most one play timer is armed, and it is the one whose handle the
    service holds. *)
Definition one_play_timer (w : World) : Prop :=
  timers w = []
  \/ exists h due, timers w = [(h, due)] /\ mp3PlayTimeout (service w) = Some h.

(** A burst of fragments: each arrives less than 300 ms after the one
    before. [close_spaced t] says so of the arrivals that follow one at
    time [t]. *)
Fixpoint close_spaced (t : Z) (arrivals : list (Z * bytes)) : Prop :=
  match arrivals with
  | [] => True
  | (t', _) :: later => t <= t' < t + 300 /\ close_spaced t' later
  end.

Definition burst (arrivals : list (Z * bytes)) : list (Z * input) :=
  map (fun a => (fst a, FragmentArrived (snd a))) arrivals.

Fixpoint last_arrival (t : Z) (arrivals : list (Z * bytes)) : Z :=
  match arrivals with
  | [] => t
  | (t', _) :: later => last_arrival t' later
  end.

(** The platform around the playback of the older service: a fragment
    reaches [Legacy.handleAudioChunk] when [decodeAudioData] has settled for
    it, and [source.onended] fires for the buffer source that is playing. *)
Inductive legacy_input : Type :=
| LegacyFragment (data : bytes)
| LegacySourceEnded.

Definition legacy_deliver (decodable : bytes -> bool) (i : legacy_input)
    (w : World) : World :=
  match i with
  | LegacyFragment data =>
    callback_run (Legacy.handleAudioChunk decodable data) w
  | LegacySourceEnded =>
    match audio w with
    | [] => w
    | _ :: others =>
      callback_run Legacy.playAudioQueue_loop
        {| service := service w; clock := clock w; timers := timers w;
           nextHandle := nextHandle w; audio := others;
           started := started w |}
    end
  end.

Definition legacy_turns (decodable : bytes -> bool)
    (inputs : list legacy_input) (w : World) : World :=
  fold_left (fun w i => legacy_deliver decodable i w) inputs w.

(** The fragments among the inputs that [decodeAudioData] accepts. *)
Fixpoint legacy_decoded (decodable : bytes -> bool)
    (inputs : list legacy_input) : list bytes :=
  match inputs with
  | [] => []
  | LegacyFragment data :: later =>
    if decodable data then data :: legacy_decoded decodable later
    else legacy_decoded decodable later
  | LegacySourceEnded :: later => legacy_decoded decodable later
  end.

(** The bounds of the backoff state. *)
Definition backoff_bounds (s : WebSocketService) : Prop :=
  0 <= reconnectAttempts s <= 5
  /\ reconnectDelay s = 1000
  /\ maxReconnectAttempts s = 5.

(** What holds of the playback pipeline after every turn: the flag agrees
    with the playbacks in progress, at most one play timer is armed, and
    fragments wait in the buffer only while a playback is in progress or a
    timer is armed. *)
Definition pipeline_invariant (w : World) : Prop :=
  flag_matches_audio w
  /\ one_play_timer w
  /\ (mp3Buffer (service w) <> [] -> audio w = [] -> timers w <> []).

(** The pipeline between the fragments of one burst: nothing has played,
    the fragments [fs] wait in the buffer, and one timer is armed for
    300 ms after the latest arrival, at time [t]. *)
Definition awaiting_flush (w : World) (t : Z) (fs : list bytes) : Prop :=
  isPlaying (service w) = false
  /\ mp3Buffer (service w) = fs
  /\ fs <> []
  /\ (exists h, timers w = [(h, t + 300)]
                /\ mp3PlayTimeout (service w) = Some h)
  /\ clock w = t
  /\ audio w = []
  /\ started w = [].

(** The older pipeline: one source plays while the flag is up, and
    nothing waits in the queue while it is down. *)
Definition legacy_invariant (w : World) : Prop :=
  (isPlaying (service w) = true /\ exists unit, audio w = [unit])
  \/ (isPlaying (service w) = false /\ audio w = []
      /\ audioQueue (service w) = []).

(** Frames handled one after the other, as [ws.onmessage] delivers them;
    [handle] is what the first [setTimeout] returns and each later call
    returns the next number. *)
Fixpoint receive (JSON_parse : string -> option jsval) (now : string)
    (handle : nat) (frames : list frame) (s : WebSocketService) : outcome :=
  match frames with
  | [] => (s, [])
  | event :: later =>
    and_then (handleMessage JSON_parse now handle event s)
             (receive JSON_parse now (S handle) later)
  end.

(** Inbound traffic with the reads of the blobs. A blob frame starts a
    read; [ReadFulfilled k] and [ReadRejected k] settle the read that is
    [k]-th among those still going on, oldest first. Nothing in the service
    orders the reads: the order in which they settle is the platform's. *)
Inductive inbound : Type :=
| FrameArrived (event : frame)                (* ws.onmessage *)
| ReadFulfilled (k : nat)
| ReadRejected (k : nat) (error : string).

(** The service, the payloads of the blobs being read, oldest first, and
    the number the next [setTimeout] returns. *)
Record Inbox : Type := {
  receiver : WebSocketService;
  unread : list bytes;
  next_handle : nat
}.

Definition inbound_step (JSON_parse : string -> option jsval) (now : string)
    (i : inbound) (b : Inbox) : Inbox * list effect :=
  match i with
  | FrameArrived event =>
    let r := handleMessage JSON_parse now (next_handle b) event (receiver b) in
    ({| receiver := fst r;
        unread := unread b ++ match event with
                              | BinaryBlob data => [data]
                              | _ => []
                              end;
        next_handle := S (next_handle b) |},
     snd r)
  | ReadFulfilled k =>
    match nth_error (unread b) k with
    | Some data =>
      let r := handleAudioChunk (next_handle b) data (receiver b) in
      ({| receiver := fst r;
          unread := firstn k (unread b) ++ skipn (S k) (unread b);
          next_handle := S (next_handle b) |},
       snd r)
    | None => (b, [])
    end
  | ReadRejected k error =>
    match nth_error (unread b) k with
    | Some _ =>
      let r := handleAudioChunk_catch error (receiver b) in
      ({| receiver := fst r;
          unread := firstn k (unread b) ++ skipn (S k) (unread b);
          next_handle := next_handle b |},
       snd r)
    | None => (b, [])
    end
  end.

Fixpoint inbound_run (JSON_parse : string -> option jsval) (now : string)
    (inputs : list inbound) (b : Inbox) : Inbox * list effect :=
  match inputs with
  | [] => (b, [])
  | i :: later =>
    let r := inbound_step JSON_parse now i b in
    let r' := inbound_run JSON_parse now later (fst r) in
    (fst r', snd r ++ snd r')
  end.

(** The payloads of the blob frames among the inputs, in arrival order. *)
Fixpoint blob_payloads (inputs : list inbound) : list bytes :=
  match inputs with
  | [] => []
  | FrameArrived (BinaryBlob data) :: later => data :: blob_payloads later
  | _ :: later => blob_payloads later
  end.

(** Every binary frame is a blob, and every read is fulfilled before the
    ones started after it. *)
Definition in_order (i : inbound) : bool :=
  match i with
  | FrameArrived (Binary _) => false
  | FrameArrived _ => true
  | ReadFulfilled k => Nat.eqb k 0
  | ReadRejected _ _ => false
  end.

(** The payloads the published [audio_chunk] events carry, in order. *)
Fixpoint audio_chunk_payloads (events : list object) : list bytes :=
  match events with
  | [] => []
  | e :: later =>
    match own_prop "type" e, own_prop "data" e with
    | JStr "audio_chunk", JBuf data => data :: audio_chunk_payloads later
    | _, _ => audio_chunk_payloads later
    end
  end.

(** ** The dispatcher console, [nirnay-ui/src/App.jsx]

    The state of the [App] component is the one its [useState] hooks
    declare. A setter called with a value replaces the field, a setter
    called with a function applies it to the value the calls before it
    left, and the calls of one handler take effect in program order; so a
    handler is a function from the state to the next state. *)
Module App.

Record State : Type := {
  isConnected : bool;
  isRecording : bool;
  sessionId : jsval;
  error : jsval;
  transcripts : list object;
  incident : jsval;
  escalationState : string;
  urgencyScore : jsval;
  urgencyLevel : jsval;
  escalationReason : jsval;
  decisionExplanation : jsval;
  lastUpdate : jsval;
  transcriptionStatus : jsval
}.

(** The initial values given to the hooks. *)
Definition initial : State := {|
  isConnected := false;
  isRecording := false;
  sessionId := JNull;
  error := JNull;
  transcripts := [];
  incident := JNull;
  escalationState := "normal";
  urgencyScore := JNull;
  urgencyLevel := JNull;
  escalationReason := JNull;
  decisionExplanation := JNull;
  lastUpdate := JNull;
  transcriptionStatus := JNull
|}.

(** [v !== undefined]. *)
Definition defined (v : jsval) : bool :=
  match v with JUndefined => false | _ => true end.

(** [v === 'text']. *)
Definition is_string (v : jsval) (text : string) : bool :=
  match v with JStr s => String.eqb s text | _ => false end.

(** [{...o, k: v}] on the properties already copied: the value of [k] is
    replaced where [k] stands, or [k] is added last. *)
Fixpoint set_prop (k : string) (v : jsval) (ps : object) : object :=
  match ps with
  | [] => [(k, v)]
  | (k', v') :: rest =>
    if String.eqb k k' then (k, v) :: rest else (k', v') :: set_prop k v rest
  end.

Fixpoint indexed (i : nat) (items : list jsval) : object :=
  match items with
  | [] => []
  | x :: rest =>
    (NilEmpty.string_of_uint (Nat.to_uint i), x) :: indexed (S i) rest
  end.

(** The own enumerable properties a spread [{...v}] copies: those of an
    object, the elements of an array and the characters of a string under
    their indices, and nothing for any other value, [null] and [undefined]
    included. *)
Definition spread (v : jsval) : object :=
  match v with
  | JObj ps => ps
  | JArr items => indexed 0 items
  | JStr s =>
    indexed 0 (map (fun c => JStr (String c EmptyString))
                   (list_ascii_of_string s))
  | _ => []
  end.

(** [handleWebSocketEvent(event)], the callback the component subscribes.
    [now] is [new Date().toISOString()], [held] is what
    [socketService.getSessionId()] returns and [ToString] is the conversion
    a template literal applies. *)
Definition handleWebSocketEvent (ToString : jsval -> string) (now : string)
    (held : jsval) (event : object) (st : State) : State :=
  let ev := JObj event in
  let type := prop ev "type" in
  if is_string type "connected" || is_string type "session_initialized" then
    {| isConnected := true; isRecording := isRecording st;
       sessionId := js_or (prop ev "sessionId") held;
       error := JNull;
       transcripts := transcripts st; incident := incident st;
       escalationState := escalationState st;
       urgencyScore := urgencyScore st; urgencyLevel := urgencyLevel st;
       escalationReason := escalationReason st;
       decisionExplanation := decisionExplanation st;
       lastUpdate := JStr now;
       transcriptionStatus := transcriptionStatus st |}
  else if is_string type "disconnected" then
    {| isConnected := false; isRecording := isRecording st;
       sessionId := sessionId st; error := error st;
       transcripts := transcripts st; incident := incident st;
       escalationState := escalationState st;
       urgencyScore := urgencyScore st; urgencyLevel := urgencyLevel st;
       escalationReason := escalationReason st;
       decisionExplanation := decisionExplanation st;
       lastUpdate := JStr now;
       transcriptionStatus := transcriptionStatus st |}
  else if is_string type "transcript" then
    {| isConnected := isConnected st; isRecording := isRecording st;
       sessionId := sessionId st; error := error st;
       transcripts :=
         transcripts st
         ++ [[("text", prop ev "text"); ("speaker", prop ev "speaker");
              ("timestamp", prop ev "timestamp");
              ("confidence", prop ev "confidence");
              ("isPartial", JBool false)]];
       incident := incident st;
       escalationState := escalationState st;
       urgencyScore := urgencyScore st; urgencyLevel := urgencyLevel st;
       escalationReason := escalationReason st;
       decisionExplanation := decisionExplanation st;
       lastUpdate := JStr now;
       transcriptionStatus := transcriptionStatus st |}
  else if is_string type "incident_summary" || is_string type "incident" then
    let incidentData :=
      js_or (js_or (prop ev "incident") (prop ev "summary")) ev in
    let incidentInfo := js_or (prop incidentData "incident") incidentData in
    let fullIncident :=
      set_prop "missing_fields" (js_or (prop ev "missing_fields") (JArr []))
        (set_prop "confidence" (prop ev "confidence")
           (set_prop "incident" incidentInfo (spread incidentData))) in
    {| isConnected := isConnected st; isRecording := isRecording st;
       sessionId := sessionId st; error := error st;
       transcripts := transcripts st;
       incident := JObj fullIncident;
       escalationState :=
         if truthy (prop incidentInfo "human_required")
         then "escalate" else "normal";
       urgencyScore :=
         if defined (prop incidentInfo "urgency_score")
         then prop incidentInfo "urgency_score" else urgencyScore st;
       urgencyLevel :=
         if defined (prop incidentInfo "urgency")
            || defined (prop incidentInfo "urgency_level")
         then js_or (prop incidentInfo "urgency")
                    (prop incidentInfo "urgency_level")
         else urgencyLevel st;
       escalationReason :=
         if truthy (prop incidentInfo "human_required")
         then js_or (prop incidentInfo "escalation_reason")
                    (JStr "System escalation")
         else JNull;
       decisionExplanation := decisionExplanation st;
       lastUpdate := JStr now;
       transcriptionStatus := transcriptionStatus st |}
  else if is_string type "decision_explanation" then
    {| isConnected := isConnected st; isRecording := isRecording st;
       sessionId := sessionId st; error := error st;
       transcripts := transcripts st; incident := incident st;
       escalationState :=
         if truthy (prop ev "why_escalated")
         then "escalate" else escalationState st;
       urgencyScore :=
         if defined (prop ev "urgency_score")
         then prop ev "urgency_score" else urgencyScore st;
       urgencyLevel :=
         if defined (prop ev "urgency_level")
         then prop ev "urgency_level" else urgencyLevel st;
       escalationReason :=
         if truthy (prop ev "why_escalated")
         then prop ev "why_escalated" else escalationReason st;
       decisionExplanation := ev;
       lastUpdate := JStr now;
       transcriptionStatus := transcriptionStatus st |}
  else if is_string type "transcription_status" then
    {| isConnected := isConnected st; isRecording := isRecording st;
       sessionId := sessionId st;
       error :=
         if is_string (prop ev "status") "ok" then error st
         else JStr ("Transcription " ++ ToString (prop ev "status") ++ ": "
                    ++ ToString (js_or (js_or (prop ev "message")
                                              (prop ev "reason"))
                                       (JStr "Unknown error")))%string;
       transcripts := transcripts st; incident := incident st;
       escalationState := escalationState st;
       urgencyScore := urgencyScore st; urgencyLevel := urgencyLevel st;
       escalationReason := escalationReason st;
       decisionExplanation := decisionExplanation st;
       lastUpdate := JStr now;
       transcriptionStatus := js_or (prop ev "status") (JStr "ok") |}
  else if is_string type "error" then
    {| isConnected := isConnected st; isRecording := isRecording st;
       sessionId := sessionId st;
       error := js_or (prop ev "message") (JStr "An error occurred");
       transcripts := transcripts st; incident := incident st;
       escalationState := escalationState st;
       urgencyScore := urgencyScore st; urgencyLevel := urgencyLevel st;
       escalationReason := escalationReason st;
       decisionExplanation := decisionExplanation st;
       lastUpdate := JStr now;
       transcriptionStatus := transcriptionStatus st |}
  else
    {| isConnected := isConnected st; isRecording := isRecording st;
       sessionId := sessionId st; error := error st;
       transcripts := transcripts st; incident := incident st;
       escalationState := escalationState st;
       urgencyScore := urgencyScore st; urgencyLevel := urgencyLevel st;
       escalationReason := escalationReason st;
       decisionExplanation := decisionExplanation st;
       lastUpdate := JStr now;
       transcriptionStatus := transcriptionStatus st |}.

(** The calls [notifySubscribers] makes to the subscribed callback for the
    events of one service callback, in publication order; [reading i] is
    the clock reading of call [i]. *)
Fixpoint handleEach (ToString : jsval -> string) (held : jsval)
    (reading : nat -> string) (i : nat) (events : list object) (st : State)
    : State :=
  match events with
  | [] => st
  | event :: later =>
    handleEach ToString held reading (S i) later
      (handleWebSocketEvent ToString (reading i) held event st)
  end.

(** [handleEscalate()]. [None] is the [InvalidStateError] that [send]
    raises on a socket still connecting: the handler stops there and no
    setter is called. On a closing or closed socket [send] discards the
    text. *)
Definition handleEscalate (s : WebSocketService) (st : State)
    : option (State * list effect) :=
  let escalated :=
    {| isConnected := isConnected st; isRecording := isRecording st;
       sessionId := sessionId st; error := error st;
       transcripts := transcripts st;
       incident :=
         JObj (set_prop "escalation_reason" (JStr "Manual escalation")
                 (set_prop "human_required" (JBool true)
                    (spread (incident st))));
       escalationState := "escalate";
       urgencyScore := urgencyScore st; urgencyLevel := urgencyLevel st;
       escalationReason := JStr "Manual escalation";
       decisionExplanation := decisionExplanation st;
       lastUpdate := lastUpdate st;
       transcriptionStatus := transcriptionStatus st |} in
  let text :=
    Json [("type", JStr "escalate"); ("session_id", sessionId st);
          ("reason", JStr "Manual escalation")] in
  if getConnectionStatus s then
    match ws s with
    | None => Some (escalated, [])
    | Some CONNECTING => None
    | Some OPEN => Some (escalated, [WsSend text])
    | Some CLOSING | Some CLOSED => Some (escalated, [])
    end
  else Some (escalated, []).

(** [handleEndCall()]: [stopRecording()] releases the microphone and calls
    [setIsRecording(false)], then the service is disconnected and the call
    is wiped from the console. *)
Definition handleEndCall (s : WebSocketService) (st : State)
    : outcome * State :=
  (disconnect s,
   {| isConnected := false; isRecording := false;
      sessionId := JNull; error := error st;
      transcripts := []; incident := JNull;
      escalationState := "normal";
      urgencyScore := JNull; urgencyLevel := JNull;
      escalationReason := JNull;
      decisionExplanation := JNull;
      lastUpdate := lastUpdate st;
      transcriptionStatus := transcriptionStatus st |}).

End App.

(** ** The transcript columns, [LiveTranscript] *)
Module LiveTranscript.

(** The two [useState] lists of the component. *)
Record Columns : Type := {
  userTranscripts : list object;
  systemTranscripts : list object
}.

Definition initial : Columns :=
  {| userTranscripts := []; systemTranscripts := [] |}.

(** The loop of the effect: [reading i] is the clock reading taken for
    entry [i] when it carries no time of its own. *)
Fixpoint forEach (reading : nat -> string) (i : nat)
    (transcripts : list object) (userMessages systemMessages : list object)
    : Columns :=
  match transcripts with
  | [] => {| userTranscripts := userMessages;
             systemTranscripts := systemMessages |}
  | transcript :: later =>
    let t := JObj transcript in
    let message :=
      [("text", js_or (prop t "text") (JStr EmptyString));
       ("timestamp", js_or (prop t "timestamp") (JStr (reading i)));
       ("confidence", prop t "confidence");
       ("isPartial", js_or (prop t "isPartial") (JBool false))] in
    if App.is_string (prop t "speaker") "user" then
      forEach reading (S i) later (userMessages ++ [message]) systemMessages
    else if App.is_string (prop t "speaker") "ai"
            || App.is_string (prop t "speaker") "system" then
      forEach reading (S i) later userMessages (systemMessages ++ [message])
    else forEach reading (S i) later userMessages systemMessages
  end.

(** The effect that runs when the [transcripts] property changes. It
    returns at once on an empty list, and the columns stay as they are. *)
Definition update (reading : nat -> string) (transcripts : list object)
    (shown : Columns) : Columns :=
  match transcripts with
  | [] => shown
  | _ :: _ => forEach reading 0 transcripts [] []
  end.

End LiveTranscript.

(** ** The status badge, [EscalationPanel] *)
Module EscalationPanel.

(** [getEscalationStatus()]: the label, the class and the colour. *)
Definition getEscalationStatus (escalationState : string)
    : string * string * string :=
  if String.eqb escalationState "escalate"
     || String.eqb escalationState "escalated"
  then ("ESCALATE", "escalate", "var(--color-critical)")
  else if String.eqb escalationState "review"
  then ("REVIEW", "review", "var(--color-warning)")
  else ("NORMAL", "normal", "var(--color-stable)").

(** Whether the section [Escalation Reason] is rendered. *)
Definition shows_reason (escalationReason : jsval) : bool :=
  truthy escalationReason.

End EscalationPanel.

(** ** Console scenarios *)

(** The console after the subscribed callback has handled what one service
    callback published. No callback that publishes assigns [sessionId], so
    [getSessionId()] returns during the calls what it returns after them. *)
Definition console_after (ToString : jsval -> string)
    (reading : nat -> string) (o : outcome) (st : App.State) : App.State :=
  App.handleEach ToString (session_value (fst o)) reading 0
                 (published (snd o)) st.

(** The parsed messages of the text frames that [processMessage] treats as
    transcripts, in arrival order. *)
Fixpoint transcript_messages (JSON_parse : string -> option jsval)
    (frames : list frame) : list jsval :=
  match frames with
  | [] => []
  | Text data :: later =>
    match JSON_parse data with
    | Some message =>
      if App.is_string (prop message "type") "transcript"
         || App.is_string (prop message "type") "user_transcript"
         || App.is_string (prop message "type") "ai_transcript"
      then message :: transcript_messages JSON_parse later
      else transcript_messages JSON_parse later
    | None => transcript_messages JSON_parse later
    end
  | Binary _ :: later => transcript_messages JSON_parse later
  | BinaryBlob _ :: later => transcript_messages JSON_parse later
  end.

(** The entry the console keeps for a transcript message: the event
    [processMessage] publishes for it, as [handleWebSocketEvent] stores it. *)
Definition panel_entry (now : string) (message : jsval) : object :=
  [("text", prop message "text");
   ("speaker",
    js_or (prop message "speaker")
          (if App.is_string (prop message "type") "ai_transcript"
           then JStr "ai" else JStr "user"));
   ("timestamp", js_or (prop message "timestamp") (JStr now));
   ("confidence", prop message "confidence");
   ("isPartial", JBool false)].

(** The entries a list of events adds to the console's transcripts. *)
Fixpoint appended (events : list object) : list object :=
  match events with
  | [] => []
  | event :: later =>
    if App.is_string (own_prop "type" event) "transcript"
    then [("text", own_prop "text" event);
          ("speaker", own_prop "speaker" event);
          ("timestamp", own_prop "timestamp" event);
          ("confidence", own_prop "confidence" event);
          ("isPartial", JBool false)] :: appended later
    else appended later
  end.

(** The text a column shows for a message of the server: [''] stands in
    for a text that is missing or empty. *)
Definition shown_text (message : jsval) : jsval :=
  js_or (prop message "text") (JStr EmptyString).

(** The text a column shows for an entry of the console's list. *)
Definition column_text (transcript : object) : jsval :=
  js_or (own_prop "text" transcript) (JStr EmptyString).

(** The two tests [LiveTranscript] makes on the speaker of an entry. *)
Definition speaker_user (transcript : object) : bool :=
  App.is_string (own_prop "speaker" transcript) "user".

Definition speaker_system (transcript : object) : bool :=
  App.is_string (own_prop "speaker" transcript) "ai"
  || App.is_string (own_prop "speaker" transcript) "system".

Definition is_ai_transcript (message : jsval) : bool :=
  App.is_string (prop message "type") "ai_transcript".


(** What happens at the console: an event reaches the subscribed callback,
    or the dispatcher presses a button. Each carries what the handler reads
    from outside the component at that moment. *)
Inductive console_input : Type :=
| Published (now : string) (held : jsval) (event : object)
| EscalatePressed (s : WebSocketService)
| EndCallPressed (s : WebSocketService).

Definition console_step (ToString : jsval -> string) (st : App.State)
    (i : console_input) : App.State :=
  match i with
  | Published now held event =>
    App.handleWebSocketEvent ToString now held event st
  | EscalatePressed s =>
    match App.handleEscalate s st with
    | Some (st', _) => st'
    | None => st
    end
  | EndCallPressed s => snd (App.handleEndCall s st)
  end.

Definition console_run (ToString : jsval -> string)
    (inputs : list console_input) (st : App.State) : App.State :=
  fold_left (console_step ToString) inputs st.

(** The panel names a reason exactly when its badge reads ESCALATE, and the
    badge never reads REVIEW. *)
Definition reason_matches_badge (st : App.State) : Prop :=
  (fst (fst (EscalationPanel.getEscalationStatus (App.escalationState st)))
     = "ESCALATE"
   /\ EscalationPanel.shows_reason (App.escalationReason st) = true)
  \/ (fst (fst (EscalationPanel.getEscalationStatus (App.escalationState st)))
        = "NORMAL"
      /\ EscalationPanel.shows_reason (App.escalationReason st) = false).

(** ** Proof steps *)

(** Settles [flag_matches_audio] once the state is known. *)
Ltac settle_flag :=
  cbn;
  first [ left; split; [reflexivity | eexists; reflexivity]
        | right; split; reflexivity ].

(** Closes a conjunction of equations between evaluated worlds. *)
Ltac by_evaluation :=
  repeat match goal with |- _ /\ _ => split end; vm_compute; reflexivity.

(** Splits on the tests of the [switch], first label first. *)
Ltac by_label t :=
  repeat match goal with
         | |- context [String.eqb t ?label] =>
           destruct (String.eqb_spec t label); [subst t |]
         end.

(** * Properties *)

(** ** Reconnection *)

Lemma failing_run_from (fresh : string) (codes : list Z) :
  forall (s : WebSocketService) (k : nat),
    (k <= 5)%nat ->
    reconnectAttempts s = Z.of_nat k ->
    reconnectDelay s = 1000 ->
    maxReconnectAttempts s = 5 ->
    Forall (fun code => code <> 1000) codes ->
    failing_run fresh codes s =
    firstn (List.length codes) (skipn k [1000; 2000; 4000; 8000; 16000]).
Proof.
  induction codes as [|code later IH]; intros s k Hk Ha Hd Hm Hcodes.
  - reflexivity.
  - inversion Hcodes as [|c l Hcode Hlater]; subst.
    apply Z.eqb_neq in Hcode.
    destruct s as [w sid conn att mx dl subs ctx q buf tm pl].
    simpl in Ha, Hd, Hm. subst att dl mx.
    cbn [failing_run ws_onclose and_then set_isConnected reconnectAttempts
         maxReconnectAttempts].
    rewrite Hcode. cbn [negb andb].
    assert (Hcases : (k = 0 \/ k = 1 \/ k = 2 \/ k = 3 \/ k = 4 \/ k = 5)%nat)
      by lia.
    destruct Hcases as [-> | [-> | [-> | [-> | [-> | ->]]]]];
      cbn -[failing_run firstn skipn];
      [ rewrite (IH _ 1%nat) | rewrite (IH _ 2%nat) | rewrite (IH _ 3%nat)
      | rewrite (IH _ 4%nat) | rewrite (IH _ 5%nat) | ];
      try reflexivity; try assumption; try lia.
Qed.

(** C1. In a run of consecutive failed reconnection attempts that starts
    with the attempt counter at 0 (as the constructor and every successful
    open leave it), the delay armed before attempt n is
    min(1000 * 2^(n-1), 30000) ms for n = 1..5, that is 1000, 2000, 4000,
    8000, 16000, and no sixth attempt is armed however many closes
    follow. *)
Theorem reconnect_backoff_schedule :
  forall (fresh : string) (codes : list Z) (s : WebSocketService),
    reconnectAttempts s = 0 ->
    reconnectDelay s = 1000 ->
    maxReconnectAttempts s = 5 ->
    Forall (fun code => code <> 1000) codes ->
    failing_run fresh codes s =
    firstn (List.length codes)
           (map (fun n => Z.min (1000 * 2 ^ (n - 1)) 30000) [1; 2; 3; 4; 5])
    /\ map (fun n => Z.min (1000 * 2 ^ (n - 1)) 30000) [1; 2; 3; 4; 5]
       = [1000; 2000; 4000; 8000; 16000]
    /\ (List.length (failing_run fresh codes s) <= 5)%nat.
Proof.
  intros fresh codes s Ha Hd Hm Hcodes.
  assert (Hrun := failing_run_from fresh codes s 0%nat (Nat.le_0_l 5) Ha Hd Hm Hcodes).
  change (skipn 0 [1000; 2000; 4000; 8000; 16000])
    with [1000; 2000; 4000; 8000; 16000] in Hrun.
  assert (Hlist : map (fun n => Z.min (1000 * 2 ^ (n - 1)) 30000) [1; 2; 3; 4; 5]
                  = [1000; 2000; 4000; 8000; 16000]) by reflexivity.
  rewrite Hlist. repeat split.
  - exact Hrun.
  - rewrite Hrun, length_firstn. simpl. lia.
Qed.

(** Seven abnormal closes in a row, starting from a fresh service. *)
Lemma reconnect_backoff_schedule_witness :
  failing_run "session_1" [1006; 1006; 1011; 1006; 1001; 1006; 1006] constructor
  = [1000; 2000; 4000; 8000; 16000].
Proof.
  destruct (reconnect_backoff_schedule "session_1"
              [1006; 1006; 1011; 1006; 1001; 1006; 1006] constructor)
    as [Hrun _].
  - reflexivity.
  - reflexivity.
  - reflexivity.
  - repeat constructor; discriminate.
  - exact Hrun.
Defined.

(** C8. A close with code 1000 arms no reconnection and leaves the attempt
    counter alone; [disconnect()] closes with code 1000 and arms nothing
    itself. A close with any other code arms exactly one reconnection while
    the counter is below the cap, and none once the cap is reached. *)
Theorem close_code_decides_reconnection :
  forall (code : Z) (reason : string) (s : WebSocketService),
    (code = 1000 ->
       scheduled (snd (ws_onclose code reason s)) = []
       /\ reconnectAttempts (fst (ws_onclose code reason s)) = reconnectAttempts s)
    /\ (code <> 1000 -> reconnectAttempts s < maxReconnectAttempts s ->
          scheduled (snd (ws_onclose code reason s))
          = [Z.min (reconnectDelay s * 2 ^ reconnectAttempts s) 30000]
          /\ reconnectAttempts (fst (ws_onclose code reason s))
             = reconnectAttempts s + 1)
    /\ (code <> 1000 -> maxReconnectAttempts s <= reconnectAttempts s ->
          scheduled (snd (ws_onclose code reason s)) = [])
    /\ scheduled (snd (disconnect s)) = []
    /\ (forall c r, In (WsClose c r) (snd (disconnect s)) -> c = 1000).
Proof.
  intros code reason s.
  destruct s as [w sid conn att mx dl subs ctx q buf tm pl].
  unfold ws_onclose, and_then, attemptReconnect. cbn.
  split; [| split; [| split; [| split]]].
  - intros ->. split; reflexivity.
  - intros Hcode Hbelow.
    apply Z.eqb_neq in Hcode. apply Z.ltb_lt in Hbelow.
    rewrite Hcode, Hbelow. cbn.
    replace (att + 1 - 1) with att by lia. split; reflexivity.
  - intros Hcode Hcap. apply Z.ltb_ge in Hcap.
    rewrite Hcap, andb_false_r. reflexivity.
  - destruct w, tm, ctx; reflexivity.
  - intros c r. destruct w, tm, ctx; cbn; intuition congruence.
Qed.

(** An open connection dropped with code 1006, and the same one closed
    with code 1000. *)
Lemma close_code_decides_reconnection_witness :
  scheduled (snd (ws_onclose 1006 "" (fst (ws_onopen constructor)))) = [1000]
  /\ scheduled (snd (ws_onclose 1000 "" (fst (ws_onopen constructor)))) = [].
Proof.
  destruct (close_code_decides_reconnection 1006 "" (fst (ws_onopen constructor)))
    as (_ & Habnormal & _).
  destruct (close_code_decides_reconnection 1000 "" (fst (ws_onopen constructor)))
    as (Hnormal & _).
  split.
  - apply Habnormal; [discriminate | reflexivity].
  - apply Hnormal. reflexivity.
Defined.

(** ** Session *)

(** C9. [connect()] stores the identifier it is given, or a generated one
    when given none, and [disconnect()] leaves the service disconnected
    with no socket; but [disconnect()] does not touch the identifier (nor
    the attempt counter), so [getSessionId()] still returns the identifier
    of the closed connection. *)
Theorem disconnect_keeps_session_identifier :
  (forall fresh s, getSessionId (fst (connect fresh None s)) = Some fresh)
  /\ (forall s,
        getConnectionStatus (fst (disconnect s)) = false
        /\ ws (fst (disconnect s)) = None
        /\ getSessionId (fst (disconnect s)) = getSessionId s
        /\ reconnectAttempts (fst (disconnect s)) = reconnectAttempts s)
  /\ getSessionId
       (fst (disconnect
          (fst (ws_onopen (fst (connect "session_2" (Some "call-42") constructor))))))
     = Some "call-42".
Proof.
  split; [reflexivity | split; [| reflexivity]].
  intros s. destruct s as [w sid conn att mx dl subs ctx q buf tm pl].
  destruct w, tm, ctx; repeat split.
Qed.

(** ** Inbound text frames *)

Lemma unknown_label (t label : string) :
  ~ In t known_types -> In label known_types -> String.eqb t label = false.
Proof.
  intros Hout Hin. apply String.eqb_neq. intros ->. exact (Hout Hin).
Qed.

Lemma processMessage_unknown (now : string) (message : jsval) :
  message <> JNull -> message <> JUndefined ->
  (forall t, prop message "type" = JStr t -> ~ In t known_types) ->
  processMessage now message = Some []
  /\ Legacy.processMessage now message
     = Some [Notify [("type", JStr "unknown"); ("message", message)]].
Proof.
  intros Hnull Hundef Htag.
  assert (Hbody :
    match prop message "type" with
    | JStr t => ~ In t known_types
    | _ => True
    end).
  { destruct (prop message "type") eqn:Htype; try exact I.
    apply Htag. reflexivity. }
  unfold processMessage, Legacy.processMessage.
  destruct message; try congruence;
    destruct (prop _ "type") as [| | | | t | | | |]; try (split; reflexivity);
    rewrite !(unknown_label t _ Hbody) by (simpl; tauto);
    split; reflexivity.
Qed.

(** C2. A text frame that decodes to a value other than [null] whose
    [type] is none of the case labels: the service of nirnay-ui publishes
    nothing and changes nothing; the older service publishes exactly one
    event, of type [unknown], carrying the decoded message. *)
Theorem unrecognised_type_nirnay_silent_legacy_unknown :
  forall (JSON_parse : string -> option jsval) (now : string) (handle : nat)
         (decodable : bytes -> bool) (data : string) (message : jsval)
         (s : WebSocketService),
    JSON_parse data = Some message ->
    message <> JNull -> message <> JUndefined ->
    (forall t, prop message "type" = JStr t -> ~ In t known_types) ->
    handleMessage JSON_parse now handle (Text data) s = (s, [])
    /\ Legacy.handleMessage JSON_parse now decodable (Text data) s
       = (s, [Notify [("type", JStr "unknown"); ("message", message)]]).
Proof.
  intros JSON_parse now handle decodable data message s Hparse Hnull Hundef Htag.
  destruct (processMessage_unknown now message Hnull Hundef Htag) as [Hnew Hold].
  unfold handleMessage, Legacy.handleMessage.
  rewrite Hparse, Hnew, Hold. split; reflexivity.
Qed.

(** The heartbeat envelope on a fresh service. *)
Lemma unrecognised_type_nirnay_silent_legacy_unknown_witness :
  published (snd (handleMessage example_parse "" 1 (Text heartbeat_frame) constructor))
  = [].
Proof.
  destruct (unrecognised_type_nirnay_silent_legacy_unknown
              example_parse "" 1%nat (fun _ => true) heartbeat_frame
              (JObj [("type", JStr "heartbeat")]) constructor) as [Hnew _].
  - reflexivity.
  - discriminate.
  - discriminate.
  - intros t Ht. injection Ht as <-. simpl.
    intuition discriminate.
  - rewrite Hnew. reflexivity.
Defined.

(** The older service does publish on an unrecognised type. *)
Lemma legacy_publishes_unknown_event :
  example_parse heartbeat_frame = Some (JObj [("type", JStr "heartbeat")])
  /\ ~ In "heartbeat" known_types
  /\ published
       (snd (Legacy.handleMessage example_parse "" (fun _ => true)
               (Text heartbeat_frame) constructor))
     = [[("type", JStr "unknown");
         ("message", JObj [("type", JStr "heartbeat")])]]
  /\ published
       (snd (Legacy.handleMessage example_parse "" (fun _ => true)
               (Text heartbeat_frame) constructor))
     <> [].
Proof.
  split; [reflexivity | split; [| split; [reflexivity | discriminate]]].
  simpl. intuition discriminate.
Qed.

(** C5. A text frame the decoder rejects: both services publish exactly
    one event, of type [error], request nothing else of the platform, and
    leave the whole state, session identifier and connection flag
    included, as it was. *)
Theorem malformed_text_publishes_one_error :
  forall (JSON_parse : string -> option jsval) (now : string) (handle : nat)
         (decodable : bytes -> bool) (data : string) (s : WebSocketService),
    JSON_parse data = None ->
    handleMessage JSON_parse now handle (Text data) s
    = (s, [Notify (parse_failure "SyntaxError")])
    /\ Legacy.handleMessage JSON_parse now decodable (Text data) s
       = (s, [Notify (parse_failure "SyntaxError")])
    /\ published (snd (handleMessage JSON_parse now handle (Text data) s))
       = [parse_failure "SyntaxError"]
    /\ own_prop "type" (parse_failure "SyntaxError") = JStr "error"
    /\ getSessionId (fst (handleMessage JSON_parse now handle (Text data) s))
       = getSessionId s
    /\ getConnectionStatus (fst (handleMessage JSON_parse now handle (Text data) s))
       = getConnectionStatus s.
Proof.
  intros JSON_parse now handle decodable data s Hparse.
  unfold handleMessage, Legacy.handleMessage. rewrite Hparse.
  repeat split.
Qed.

(** Text with an unquoted key, on an open connection. *)
Lemma malformed_text_publishes_one_error_witness :
  let s := fst (ws_onopen (fst (connect "session_3" None constructor))) in
  handleMessage example_parse "" 1 (Text "{type:") s
  = (s, [Notify (parse_failure "SyntaxError")]).
Proof.
  intros s.
  destruct (malformed_text_publishes_one_error
              example_parse "" 1%nat (fun _ => true) "{type:" s) as [Hnew _].
  - reflexivity.
  - exact Hnew.
Defined.

(** ** Outbound encoding *)

Lemma clamp_unit_bounds (x : Q) :
  ((-1 # 1) <= Qmax (-1 # 1) (Qmin (1 # 1) x) <= 1 # 1)%Q.
Proof.
  split.
  - apply Q.le_max_l.
  - apply Q.max_lub; [ discriminate | apply Q.le_min_l ].
Qed.

Lemma clamp_unit_id (x : Q) :
  ((-1 # 1) <= x <= 1 # 1)%Q -> (Qmax (-1 # 1) (Qmin (1 # 1) x) == x)%Q.
Proof.
  intros [Hlo Hhi].
  rewrite (Q.min_r _ _ Hhi). apply Q.max_r. exact Hlo.
Qed.

Lemma toInt16_id (z : Z) : -32768 <= z <= 32767 -> toInt16 z = z.
Proof.
  intros Hz. unfold toInt16. rewrite Z.mod_small by lia. lia.
Qed.

Lemma Math_round_nearest (y : Q) :
  (inject_Z (Math_round y) - (1 # 2) <= y < inject_Z (Math_round y) + (1 # 2))%Q.
Proof.
  unfold Math_round.
  pose proof (Qfloor_le (y + (1 # 2))) as Hle.
  pose proof (Qlt_floor (y + (1 # 2))) as Hlt.
  rewrite inject_Z_plus in Hlt. 
  change (inject_Z 1) with (1 # 1)%Q in Hlt.
  split; lra.
Qed.

Lemma Math_round_scaled_bounds (s : Q) :
  ((-1 # 1) <= s <= 1 # 1)%Q ->
  -32768 <= Math_round (s * (32768 # 1)) <= 32768.
Proof.
  intros [Hlo Hhi]. unfold Math_round. split.
  - apply Z.le_trans with (Qfloor (-65535 # 2)); [ discriminate | ].
    apply Qfloor_resp_le. lra.
  - apply Z.le_trans with (Qfloor (65537 # 2)); [ | discriminate ].
    apply Qfloor_resp_le. lra.
Qed.

Lemma js_trunc_nonneg (y : Q) :
  (0 <= y)%Q ->
  0 <= js_trunc y /\ (inject_Z (js_trunc y) <= y < inject_Z (js_trunc y) + 1)%Q.
Proof.
  destruct y as [a b]. unfold js_trunc, Qle, Qlt, inject_Z, Qplus. simpl.
  intros Ha. rewrite Z.mul_1_r in Ha.
  pose proof (Z.quot_rem' a (Z.pos b)) as Hdiv.
  pose proof (Z.rem_bound_pos a (Z.pos b) Ha (Pos2Z.is_pos b)) as Hrem.
  pose proof (Z.quot_pos a (Z.pos b) Ha (Pos2Z.is_pos b)) as Hq.
  repeat split; nia.
Qed.

Lemma js_trunc_nonpos (y : Q) :
  (y <= 0)%Q ->
  js_trunc y <= 0 /\ (inject_Z (js_trunc y) - 1 < y <= inject_Z (js_trunc y))%Q.
Proof.
  destruct y as [a b]. unfold js_trunc, Qle, Qlt, inject_Z, Qminus, Qplus, Qopp. simpl.
  intros Ha. rewrite Z.mul_1_r in Ha.
  pose proof (Z.quot_rem' a (Z.pos b)) as Hdiv.
  pose proof (Z.rem_bound_pos_neg a (Z.pos b) (Pos2Z.is_pos b) Ha) as Hrem.
  assert (Hq : Z.quot a (Z.pos b) <= 0).
  { rewrite <- (Z.opp_involutive a), Z.quot_opp_l by discriminate.
    pose proof (Z.quot_pos (- a) (Z.pos b)). lia. }
  repeat split; nia.
Qed.

Lemma int16_of_sample_unfold (x : Q) :
  int16_of_sample x
  = Z.min 32767 (Math_round (Qmax (-1 # 1) (Qmin (1 # 1) x) * (32768 # 1)))
  /\ -32768 <= int16_of_sample x <= 32767.
Proof.
  unfold int16_of_sample.
  pose proof (Math_round_scaled_bounds _ (clamp_unit_bounds x)) as Hr.
  rewrite toInt16_id by lia. lia.
Qed.

Lemma legacy_int16_of_sample_unfold (x : Q) :
  let s := Qmax (-1 # 1) (Qmin (1 # 1) x) in
  Legacy.int16_of_sample x
  = js_trunc (if Qlt_le_dec s 0 then s * (32768 # 1) else s * (32767 # 1))
  /\ -32768 <= Legacy.int16_of_sample x <= 32767.
Proof.
  intros s. unfold Legacy.int16_of_sample. fold s.
  pose proof (clamp_unit_bounds x) as [Hlo Hhi]. fold s in Hlo, Hhi.
  destruct (Qlt_le_dec s 0) as [Hneg | Hpos].
  - destruct (js_trunc_nonpos (s * (32768 # 1))) as (Hz & Hl & Hu); [ lra | ].
    assert (-32768 <= js_trunc (s * (32768 # 1))).
    { apply Z.lt_pred_le. rewrite Zlt_Qlt. unfold Z.pred.
      rewrite inject_Z_plus. 
      change (inject_Z (-32768)) with (-32768 # 1)%Q.
      change (inject_Z (-1)) with (-1 # 1)%Q. lra. }
    rewrite toInt16_id by lia. lia.
  - destruct (js_trunc_nonneg (s * (32767 # 1))) as (Hz & Hl & Hu); [ nra | ].
    assert (js_trunc (s * (32767 # 1)) <= 32767).
    { rewrite Zle_Qle. change (inject_Z 32767) with (32767 # 1)%Q. lra. }
    rewrite toInt16_id by lia. lia.
Qed.

(** C3. Each sample is first clamped to [-1, 1]. The service of nirnay-ui
    then scales by 32768, rounds to the nearest integer and clamps to the
    16-bit range; the older service scales by 32768 below zero and by 32767
    from zero up, and the store into the [Int16Array] truncates toward
    zero. Both send -1.0 as -32768, 0.0 as 0 and 1.0 as 32767. *)
Theorem outbound_pcm_encoding :
  forall x : Q,
    let s := Qmax (-1 # 1) (Qmin (1 # 1) x) in
    ((-1 # 1) <= s <= 1 # 1)%Q
    /\ (((-1 # 1) <= x <= 1 # 1)%Q -> (s == x)%Q)
    /\ int16_of_sample x = Z.min 32767 (Math_round (s * (32768 # 1)))
    /\ -32768 <= int16_of_sample x <= 32767
    /\ ((s * (32768 # 1) < 65535 # 2)%Q ->
        (inject_Z (int16_of_sample x) - (1 # 2) <= s * (32768 # 1)
         < inject_Z (int16_of_sample x) + (1 # 2))%Q)
    /\ ((65535 # 2 <= s * (32768 # 1))%Q -> int16_of_sample x = 32767)
    /\ -32768 <= Legacy.int16_of_sample x <= 32767
    /\ ((s < 0)%Q ->
        (inject_Z (Legacy.int16_of_sample x) - 1 < s * (32768 # 1)
         <= inject_Z (Legacy.int16_of_sample x))%Q)
    /\ ((0 <= s)%Q ->
        (inject_Z (Legacy.int16_of_sample x) <= s * (32767 # 1)
         < inject_Z (Legacy.int16_of_sample x) + 1)%Q)
    /\ map int16_of_sample [-1 # 1; 0 # 1; 1 # 1]%Q = [-32768; 0; 32767]
    /\ map Legacy.int16_of_sample [-1 # 1; 0 # 1; 1 # 1]%Q = [-32768; 0; 32767].
Proof.
  intros x s.
  pose proof (clamp_unit_bounds x) as Hs. fold s in Hs.
  destruct (int16_of_sample_unfold x) as [Hnew Hnew_range]. fold s in Hnew.
  destruct (legacy_int16_of_sample_unfold x) as [Hold Hold_range].
  cbv zeta in Hold. fold s in Hold.
  pose proof (Math_round_nearest (s * (32768 # 1))) as Hnear.
  pose proof (Math_round_scaled_bounds s Hs) as Hround.
  split; [exact Hs |].
  split; [apply clamp_unit_id |].
  split; [exact Hnew |].
  split; [exact Hnew_range |].
  split.
  { intros Hbelow.
    assert (Hle : Math_round (s * (32768 # 1)) <= 32767).
    { apply Z.lt_succ_r. rewrite Zlt_Qlt.
      change (inject_Z (Z.succ 32767)) with (32768 # 1)%Q. lra. }
    rewrite Hnew, Z.min_r by exact Hle. exact Hnear. }
  split.
  { intros Htop.
    assert (Hge : 32767 < Math_round (s * (32768 # 1))).
    { rewrite Zlt_Qlt. change (inject_Z 32767) with (32767 # 1)%Q. lra. }
    rewrite Hnew. lia. }
  split; [exact Hold_range |].
  split.
  { intros Hneg. rewrite Hold.
    destruct (Qlt_le_dec s 0) as [_ | Hpos]; [| lra].
    apply js_trunc_nonpos. lra. }
  split.
  { intros Hpos. rewrite Hold.
    destruct (Qlt_le_dec s 0) as [Hneg | _]; [lra |].
    apply js_trunc_nonneg. nra. }
  split; reflexivity.
Qed.

(** A quarter of full scale, which the service of nirnay-ui rounds. *)
Lemma outbound_pcm_encoding_witness :
  (inject_Z (int16_of_sample (1 # 4)) - (1 # 2) <= (8192 # 1)
   < inject_Z (int16_of_sample (1 # 4)) + (1 # 2))%Q.
Proof.
  destruct (outbound_pcm_encoding (1 # 4)) as (_ & Hid & _ & _ & Hnear & _).
  assert (Hx : ((-1 # 1) <= 1 # 4 <= 1 # 1)%Q) by (split; discriminate).
  specialize (Hid Hx).
  rewrite Hid in Hnear.
  assert (Hscaled : ((1 # 4) * (32768 # 1) == 8192 # 1)%Q) by reflexivity.
  rewrite Hscaled in Hnear.
  apply Hnear. reflexivity.
Defined.

(** The older service does not round to nearest: a quarter of full scale
    is 8191.75 at its scale and 8192 at the other, and it sends 8191. *)
Lemma legacy_encoding_truncates :
  Legacy.int16_of_sample (1 # 4) = 8191
  /\ Math_round ((1 # 4) * (32767 # 1)) = 8192
  /\ Math_round ((1 # 4) * (32768 # 1)) = 8192
  /\ Legacy.int16_of_sample (1 # 4) <> Math_round ((1 # 4) * (32767 # 1))
  /\ Legacy.int16_of_sample (1 # 4) <> Math_round ((1 # 4) * (32768 # 1)).
Proof.
  repeat split; discriminate.
Qed.

(** ** Capture *)

Lemma chunkSize_value : Z.of_nat chunkSize = 8000.
Proof. reflexivity. Qed.

Lemma onaudioprocess_chunk (active : bool) (audioBuffer inputData : list Q)
    (c : chunk) :
  snd (onaudioprocess active audioBuffer inputData) = Some c ->
  Z.of_nat (chunk_length c) = 8000.
Proof.
  unfold onaudioprocess. generalize chunkSize_value. generalize chunkSize.
  intros size Hsize. destruct active; cbn [negb]; [| discriminate].
  destruct (Nat.leb_spec size (List.length (audioBuffer ++ inputData)))
    as [Hfull | Hshort]; cbn [snd]; [| discriminate].
  intros [= <-]. cbn [chunk_length].
  rewrite length_firstn, Nat.min_l by exact Hfull. exact Hsize.
Qed.

Lemma capture_chunks (active : bool) (blocks : list (list Q)) :
  forall audioBuffer : list Q,
    Forall (fun c => Z.of_nat (chunk_length c) = 8000)
           (snd (capture active audioBuffer blocks)).
Proof.
  induction blocks as [| inputData later IH]; intros audioBuffer.
  - constructor.
  - cbn [capture].
    pose proof (onaudioprocess_chunk active audioBuffer inputData) as Hone.
    destruct (onaudioprocess active audioBuffer inputData) as [buffer sent].
    specialize (IH buffer).
    destruct (capture active buffer later) as [final chunks].
    cbn [snd] in *. destruct sent as [c |]; [| exact IH].
    constructor; [apply Hone; reflexivity | exact IH].
Qed.

Lemma capture_exact_when_active :
  forall (audioBuffer inputData : list Q),
    let total := audioBuffer ++ inputData in
    (Z.of_nat (List.length total) = 8000 ->
       onaudioprocess true audioBuffer inputData = ([], Some (Float32Array total)))
    /\ (Z.of_nat (List.length total) = 8001 ->
          exists first last,
            total = first ++ [last]
            /\ Z.of_nat (List.length first) = 8000
            /\ onaudioprocess true audioBuffer inputData
               = ([last], Some (Float32Array first)))
    /\ (Z.of_nat (List.length total) < 8000 ->
          onaudioprocess true audioBuffer inputData = (total, None))
    /\ (forall active blocks,
          Forall (fun c => Z.of_nat (chunk_length c) = 8000)
                 (snd (capture active audioBuffer blocks)))
    /\ (forall samples s,
          Z.of_nat (List.length samples) = 8000 ->
          isConnected s = true -> ws s = Some OPEN ->
          exists pcm,
            sendAudioChunk (Float32Array samples) s = (s, [WsSend (Pcm16 pcm)])
            /\ Z.of_nat (List.length pcm) = 8000).
Proof.
  intros audioBuffer inputData total.
  split; [| split; [| split; [| split]]];
    try (unfold onaudioprocess; cbn [negb]; fold total;
         generalize chunkSize_value; generalize chunkSize; intros size Hsize).
  - intros Hlen.
    destruct (Nat.leb_spec size (List.length total)) as [_ | Hshort]; [| lia].
    rewrite firstn_all2, skipn_all2 by lia. reflexivity.
  - intros Hlen.
    destruct (Nat.leb_spec size (List.length total)) as [_ | Hshort]; [| lia].
    pose proof (firstn_skipn size total) as Hsplit.
    pose proof (length_skipn size total) as Hrest.
    destruct (skipn size total) as [| last [| extra more]] eqn:Hskip;
      cbn [List.length] in Hrest; try lia.
    exists (firstn size total), last. repeat split.
    + symmetry. exact Hsplit.
    + rewrite length_firstn. lia.
  - intros Hlen.
    destruct (Nat.leb_spec size (List.length total)) as [Hfull | _]; [lia |].
    reflexivity.
  - intros active blocks. apply capture_chunks.
  - intros samples s Hlen Hconn Hws. unfold sendAudioChunk. rewrite Hconn, Hws.
    exists (map int16_of_sample samples).
    destruct samples as [| x xs]; [cbn in Hlen; lia |].
    cbn [map nonempty]. split; [reflexivity |].
    change (int16_of_sample x :: map int16_of_sample xs)
      with (map int16_of_sample (x :: xs)).
    rewrite length_map. exact Hlen.
Qed.

Lemma capture_inactive (blocks : list (list Q)) (audioBuffer : list Q) :
  capture false audioBuffer blocks = (audioBuffer, []).
Proof.
  induction blocks as [| inputData later IH]; [reflexivity |].
  cbn. rewrite IH. reflexivity.
Qed.

(** C4. In nirnay-ui the handler installed when a recording starts tests a
    flag that is up, and with the threshold of 8000 samples: when a block
    brings the array to exactly 8000 samples, one chunk of those 8000 is
    handed over and the array is left empty; at 8001 samples one chunk of
    the first 8000 is handed over and one sample stays; below 8000 nothing
    is handed over; over any recording every chunk handed over has exactly
    8000 samples, which an open connection sends as 8000 PCM values.
    In the older [App] the handler installed when a recording starts tests
    the [isRecording] its closure captured, which is false whenever
    [toggleRecording] starts a recording: it returns at once, so at 8000
    samples, at 8001 and over any blocks nothing is buffered and no chunk
    is handed over. *)
Theorem capture_chunks_exact_older_handler_off :
  forall (audioBuffer inputData : list Q),
    let total := audioBuffer ++ inputData in
    (forall isRecording granted active,
       toggleRecording isRecording granted = Some active -> active = true)
    /\ (Z.of_nat (List.length total) = 8000 ->
        onaudioprocess true audioBuffer inputData
        = ([], Some (Float32Array total)))
    /\ (Z.of_nat (List.length total) = 8001 ->
          exists first last,
            total = first ++ [last]
            /\ Z.of_nat (List.length first) = 8000
            /\ onaudioprocess true audioBuffer inputData
               = ([last], Some (Float32Array first)))
    /\ (Z.of_nat (List.length total) < 8000 ->
          onaudioprocess true audioBuffer inputData = (total, None))
    /\ (forall active blocks,
          Forall (fun c => Z.of_nat (chunk_length c) = 8000)
                 (snd (capture active audioBuffer blocks)))
    /\ (forall samples s,
          Z.of_nat (List.length samples) = 8000 ->
          isConnected s = true -> ws s = Some OPEN ->
          exists pcm,
            sendAudioChunk (Float32Array samples) s = (s, [WsSend (Pcm16 pcm)])
            /\ Z.of_nat (List.length pcm) = 8000)
    /\ (forall isRecording granted active,
          OlderApp.toggleRecording isRecording granted = Some active ->
          active = false
          /\ onaudioprocess active audioBuffer inputData = (audioBuffer, None)
          /\ forall blocks, capture active [] blocks = ([], [])).
Proof.
  intros audioBuffer inputData total.
  destruct (capture_exact_when_active audioBuffer inputData)
    as (Hexact & Hmore & Hless & Hall & Hsend).
  split.
  { intros [|] [|] active; cbn; try discriminate. intros [= <-]. reflexivity. }
  split; [exact Hexact |]. split; [exact Hmore |]. split; [exact Hless |].
  split; [exact Hall |]. split; [exact Hsend |].
  intros [|] [|] active; cbn; try discriminate. intros [= <-].
  split; [reflexivity |]. split; [reflexivity |].
  intros blocks. apply capture_inactive.
Qed.

(** One block of 8001 samples into an empty array, in both components. *)
Lemma capture_chunks_exact_older_handler_off_witness :
  (exists first last,
     repeat (1 # 2)%Q (Z.to_nat 8001) = first ++ [last]
     /\ Z.of_nat (List.length first) = 8000
     /\ onaudioprocess true [] (repeat (1 # 2)%Q (Z.to_nat 8001))
        = ([last], Some (Float32Array first)))
  /\ onaudioprocess false [] (repeat (1 # 2)%Q (Z.to_nat 8001)) = ([], None).
Proof.
  destruct (capture_chunks_exact_older_handler_off
              [] (repeat (1 # 2)%Q (Z.to_nat 8001)))
    as (_ & _ & Hmore & _ & _ & _ & Holder).
  split.
  - apply Hmore. cbn [app]. rewrite repeat_length. reflexivity.
  - destruct (Holder false true false) as (_ & Hoff & _); [reflexivity |].
    exact Hoff.
Defined.

(** ** Event bus *)

Lemma Set_has_In (f : callback) (set : list callback) :
  Set_has f set = true <-> In f set.
Proof.
  unfold Set_has. rewrite existsb_exists. split.
  - intros (g & Hin & Heq). apply Nat.eqb_eq in Heq. subst. exact Hin.
  - intros Hin. exists f. split; [exact Hin | apply Nat.eqb_refl].
Qed.

Lemma Set_add_NoDup (f : callback) (set : list callback) :
  NoDup set -> NoDup (Set_add f set).
Proof.
  intros Hset. unfold Set_add. destruct (Set_has f set) eqn:Hhas; [exact Hset |].
  apply NoDup_app; [exact Hset | repeat constructor; intros [] |].
  intros g Hg [<- | []].
  apply Set_has_In in Hg. congruence.
Qed.

Lemma Set_delete_NoDup (f : callback) (set : list callback) :
  NoDup set -> NoDup (Set_delete f set).
Proof. apply NoDup_filter. Qed.

Lemma Set_add_In (f g : callback) (set : list callback) :
  In g (Set_add f set) <-> g = f \/ In g set.
Proof.
  unfold Set_add. destruct (Set_has f set) eqn:Hhas.
  - apply Set_has_In in Hhas. split; [tauto | intros [-> | H]; assumption].
  - rewrite in_app_iff. simpl. intuition congruence.
Qed.

Lemma Set_delete_In (f g : callback) (set : list callback) :
  In g (Set_delete f set) <-> g <> f /\ In g set.
Proof.
  unfold Set_delete. rewrite filter_In, negb_true_iff, Nat.eqb_neq.
  intuition congruence.
Qed.

Lemma bus_calls_NoDup (calls : list bus_call) :
  forall s, NoDup (subscribers s) -> NoDup (subscribers (bus_calls calls s)).
Proof.
  induction calls as [| c later IH]; intros s Hs; [exact Hs |].
  apply IH. destruct c as [[f |] | [f |]]; cbn; try exact Hs.
  - apply Set_add_NoDup, Hs.
  - apply Set_delete_NoDup, Hs.
Qed.

Lemma bus_calls_keep (f : callback) (calls : list bus_call) :
  (forall a, In (Unsubscribe a) calls -> a <> Function f) ->
  forall s, In f (subscribers s) -> In f (subscribers (bus_calls calls s)).
Proof.
  induction calls as [| c later IH]; intros Hcalls s Hs; [exact Hs |].
  apply IH; [intros a Ha; apply Hcalls; right; exact Ha |].
  destruct c as [[g |] | [g |]]; cbn; try exact Hs.
  - apply Set_add_In. right. exact Hs.
  - apply Set_delete_In. split; [| exact Hs].
    intros ->. apply (Hcalls (Function g)); [left |]; reflexivity.
Qed.

Lemma calls_to_subscribers (f : callback) (event : object) (s : WebSocketService) :
  calls_to f (notifySubscribers event s)
  = List.length (filter (Nat.eqb f) (subscribers s)).
Proof.
  unfold calls_to, notifySubscribers.
  induction (subscribers s) as [| g set IH]; [reflexivity |].
  cbn. destruct (Nat.eqb f g); cbn; rewrite IH; reflexivity.
Qed.

Lemma filter_absent (f : callback) (set : list callback) :
  ~ In f set -> filter (Nat.eqb f) set = [].
Proof.
  induction set as [| g set IH]; intros Hout; [reflexivity |].
  cbn. destruct (Nat.eqb_spec f g) as [-> | _].
  - exfalso. apply Hout. left. reflexivity.
  - apply IH. intros Hin. apply Hout. right. exact Hin.
Qed.

Lemma filter_once (f : callback) (set : list callback) :
  NoDup set -> In f set -> filter (Nat.eqb f) set = [f].
Proof.
  induction 1 as [| g set Hfresh Hset IH]; intros Hin; [destruct Hin |].
  cbn. destruct (Nat.eqb_spec f g) as [-> | Hne].
  - rewrite filter_absent by exact Hfresh. reflexivity.
  - apply IH. destruct Hin as [-> | Hin]; [congruence | exact Hin].
Qed.

(** C10. Whatever calls were made on the bus before, once [subscribe(f)]
    has been called and then any further calls that do not unsubscribe [f]
    (more [subscribe(f)] among them), one publication calls [f] exactly
    once; after one [unsubscribe(f)] a publication does not call [f]. *)
Theorem subscription_is_idempotent :
  forall (f : callback) (event : object) (before after : list bus_call),
    (forall a, In (Unsubscribe a) after -> a <> Function f) ->
    let s := bus_calls (before ++ Subscribe (Function f) :: after) constructor in
    calls_to f (notifySubscribers event s) = 1%nat
    /\ calls_to f (notifySubscribers event (unsubscribe (Function f) s)) = 0%nat.
Proof.
  intros f event before after Hafter s.
  assert (Hnodup : NoDup (subscribers s)).
  { apply bus_calls_NoDup. constructor. }
  assert (Hin : In f (subscribers s)).
  { unfold s, bus_calls. rewrite fold_left_app. cbn [fold_left].
    apply (bus_calls_keep f after Hafter).
    cbn. apply Set_add_In. left. reflexivity. }
  rewrite !calls_to_subscribers. split.
  - rewrite filter_once by assumption. reflexivity.
  - rewrite filter_absent; [reflexivity |].
    cbn. rewrite Set_delete_In. tauto.
Qed.

(** Callback 7 subscribed three times among the calls of callback 4. *)
Lemma subscription_is_idempotent_witness :
  let s := bus_calls [Subscribe (Function 4%nat); Subscribe (Function 7%nat);
                      Subscribe (Function 7%nat); Unsubscribe (Function 4%nat);
                      Subscribe (Function 7%nat)] constructor in
  calls_to 7%nat (notifySubscribers [("type", JStr "connected")] s) = 1%nat
  /\ calls_to 7%nat
       (notifySubscribers [("type", JStr "connected")]
          (unsubscribe (Function 7%nat) s)) = 0%nat.
Proof.
  apply (subscription_is_idempotent 7%nat [("type", JStr "connected")]
           [Subscribe (Function 4%nat)]
           [Subscribe (Function 7%nat); Unsubscribe (Function 4%nat);
            Subscribe (Function 7%nat)]).
  intros a Ha. cbn in Ha.
  destruct Ha as [Ha | [Ha | [Ha | []]]]; try discriminate.
  injection Ha as <-. discriminate.
Defined.

(** ** Playback *)

Lemma deliver_invariant (i : input) (w : World) :
  flag_matches_audio w -> flag_matches_audio (deliver i w).
Proof.
  destruct w as [s c ts nh au st].
  destruct s as [sock sid conn att mx dl subs ctx q buf tm pl].
  unfold flag_matches_audio. cbn -[armed disarm String.eqb].
  intros [[-> [unit ->]] | [-> ->]].
  - destruct i as [data | h | [| | name]]; cbn -[armed disarm String.eqb].
    + destruct tm; settle_flag.
    + destruct (armed h ts); settle_flag.
    + destruct buf; settle_flag.
    + settle_flag.
    + unfold callback_run, play_rejected. cbn [service].
      destruct (String.eqb name "NotAllowedError"), buf; settle_flag.
  - destruct i as [data | h | how]; cbn -[armed disarm String.eqb].
    + destruct tm; settle_flag.
    + destruct (armed h ts); [| settle_flag].
      destruct buf; settle_flag.
    + settle_flag.
Qed.

Lemma turns_invariant (inputs : list input) :
  forall w, flag_matches_audio w -> flag_matches_audio (turns inputs w).
Proof.
  induction inputs as [| i later IH]; intros w Hw; [exact Hw |].
  apply IH, deliver_invariant, Hw.
Qed.

(** C6. After any sequence of fragment arrivals, timer firings and
    playback completions from a fresh service, at most one playback is in
    progress, and one is in progress exactly when the flag is up. While one
    is in progress, an arriving fragment is appended to the buffer and a
    firing timer does nothing, and neither starts a playback. When the
    playback in progress ends and the buffer is not empty, a playback of
    the buffered fragments, concatenated, starts in the same turn; when the
    buffer is empty the flag goes down. *)
Theorem playback_mutual_exclusion :
  forall (inputs : list input),
    let w := turns inputs boot in
    (List.length (audio w) <= 1)%nat
    /\ (isPlaying (service w) = true <-> audio w <> [])
    /\ (forall data, audio w <> [] ->
          let w' := deliver (FragmentArrived data) w in
          audio w' = audio w /\ started w' = started w
          /\ mp3Buffer (service w') = mp3Buffer (service w) ++ [data])
    /\ (forall h, audio w <> [] ->
          let w' := deliver (TimerFired h) w in
          audio w' = audio w /\ started w' = started w
          /\ mp3Buffer (service w') = mp3Buffer (service w))
    /\ (audio w <> [] -> mp3Buffer (service w) <> [] ->
          let w' := deliver (PlaybackCompleted Ended) w in
          audio w' = [List.concat (mp3Buffer (service w))]
          /\ started w'
             = started w ++ [(clock w, List.concat (mp3Buffer (service w)))]
          /\ mp3Buffer (service w') = []
          /\ isPlaying (service w') = true)
    /\ (audio w <> [] -> mp3Buffer (service w) = [] ->
          let w' := deliver (PlaybackCompleted Ended) w in
          audio w' = [] /\ started w' = started w
          /\ isPlaying (service w') = false).
Proof.
  intros inputs w.
  assert (Hinv : flag_matches_audio w).
  { apply turns_invariant. right. split; reflexivity. }
  clearbody w.
  destruct w as [s c ts nh au st].
  destruct s as [sock sid conn att mx dl subs ctx q buf tm pl].
  unfold flag_matches_audio in Hinv. cbn in Hinv. cbn -[armed disarm String.eqb].
  destruct Hinv as [[-> [unit ->]] | [-> ->]].
  - split; [cbn; lia |].
    split; [split; [discriminate | reflexivity] |].
    split; [intros data _; destruct tm; cbn; repeat split |].
    split; [intros h _; destruct (armed h ts); cbn; repeat split |].
    split.
    + intros _ Hbuf. destruct buf as [| b bs]; [congruence |].
      cbn. repeat split.
    + intros _ ->. cbn. repeat split.
  - split; [cbn; lia |].
    split; [split; [discriminate | congruence] |].
    repeat split; congruence.
Qed.

(** A fragment that arrives during a playback is played when it ends. *)
Lemma playback_mutual_exclusion_witness :
  let w := turns [FragmentArrived [Byte.x01]; TimerFired 1;
                  FragmentArrived [Byte.x02]; TimerFired 2] boot in
  audio w = [[Byte.x01]]
  /\ audio (deliver (PlaybackCompleted Ended) w) = [[Byte.x02]].
Proof.
  intros w.
  destruct (playback_mutual_exclusion
              [FragmentArrived [Byte.x01]; TimerFired 1;
               FragmentArrived [Byte.x02]; TimerFired 2])
    as (_ & _ & _ & _ & Hnext & _).
  split; [reflexivity |].
  apply Hnext; discriminate.
Defined.

Lemma run_app (earlier later : list (Z * input)) (w : World) :
  run (earlier ++ later) w = run later (run earlier w).
Proof. apply fold_left_app. Qed.

Lemma fire_due_single (t : Z) (w : World) (h : nat) (due : Z) :
  timers w = [(h, due)] ->
  fire_due (List.length (timers w)) t w
  = if due <=? t
    then deliver (TimerFired h) (set_clock (Z.max (clock w) due) w)
    else w.
Proof.
  intros Htimers. rewrite Htimers. cbn [List.length fire_due].
  rewrite Htimers. cbn [next_due]. destruct (due <=? t); reflexivity.
Qed.

(** C7. Fragments arriving at 0, 100 and 150 ms on a fresh service, then
    silence: nothing is played before 450 ms; at 450 ms one playback starts
    on the three fragments concatenated in arrival order, the buffer is
    emptied and no timer stays armed; and when that playback ends, at any
    later time, nothing more is played. *)
Theorem three_fragments_play_once_at_450 :
  forall (f1 f2 f3 : bytes) (t : Z),
    let arrivals := [ (0, FragmentArrived f1); (100, FragmentArrived f2);
                      (150, FragmentArrived f3) ] in
    let w := advance t (run arrivals boot) in
    (t < 450 ->
       started w = [] /\ audio w = []
       /\ mp3Buffer (service w) = [f1; f2; f3])
    /\ (450 <= t ->
          started w = [(450, f1 ++ f2 ++ f3)]
          /\ audio w = [f1 ++ f2 ++ f3]
          /\ mp3Buffer (service w) = []
          /\ isPlaying (service w) = true
          /\ timers w = [])
    /\ (forall t_end t_after,
          450 <= t_end -> t_end <= t_after ->
          let w' := advance t_after
                      (run (arrivals ++ [(t_end, PlaybackCompleted Ended)]) boot) in
          started w' = [(450, f1 ++ f2 ++ f3)]
          /\ audio w' = []
          /\ mp3Buffer (service w') = []
          /\ isPlaying (service w') = false
          /\ timers w' = []).
Proof.
  intros f1 f2 f3 t arrivals w.
  set (w0 := run arrivals boot) in *.
  assert (Htimers : timers w0 = [(3%nat, 450)]) by (vm_compute; reflexivity).
  assert (Hunit : f1 ++ f2 ++ f3 ++ [] = f1 ++ f2 ++ f3).
  { rewrite app_nil_r. reflexivity. }
  split; [| split].
  - intros Hearly. apply Z.leb_gt in Hearly.
    unfold w, advance. cbv zeta.
    rewrite (fire_due_single t w0 3%nat 450 Htimers), Hearly.
    by_evaluation.
  - intros Hdue. apply Z.leb_le in Hdue.
    unfold w, advance. cbv zeta.
    rewrite (fire_due_single t w0 3%nat 450 Htimers), Hdue.
    rewrite <- Hunit. by_evaluation.
  - intros t_end t_after Hend Hafter w'.
    apply Z.leb_le in Hend.
    assert (Hmid : run [(t_end, PlaybackCompleted Ended)] w0
                   = deliver (PlaybackCompleted Ended)
                       (if 450 <=? t_end
                        then set_clock
                               (Z.max (clock (deliver (TimerFired 3)
                                                (set_clock (Z.max (clock w0) 450) w0)))
                                      t_end)
                               (deliver (TimerFired 3)
                                  (set_clock (Z.max (clock w0) 450) w0))
                        else set_clock (Z.max (clock w0) t_end) w0)).
    { unfold run. cbn [fold_left fst snd]. unfold advance. cbv zeta.
      rewrite (fire_due_single t_end w0 3%nat 450 Htimers).
      destruct (450 <=? t_end); reflexivity. }
    unfold w'. rewrite run_app. change (run arrivals boot) with w0.
    rewrite Hmid, Hend, <- Hunit. by_evaluation.
Qed.

(** The three fragments of one utterance, observed a second after the
    first, and again after the playback has ended. *)
Lemma three_fragments_play_once_at_450_witness :
  started
    (advance 1000
       (run [ (0, FragmentArrived [Byte.x49]); (100, FragmentArrived [Byte.x44]);
              (150, FragmentArrived [Byte.x33]) ] boot))
  = [(450, [Byte.x49; Byte.x44; Byte.x33])]
  /\ started
       (advance 5000
          (run ([ (0, FragmentArrived [Byte.x49]); (100, FragmentArrived [Byte.x44]);
                  (150, FragmentArrived [Byte.x33]) ]
                ++ [(2000, PlaybackCompleted Ended)]) boot))
     = [(450, [Byte.x49; Byte.x44; Byte.x33])].
Proof.
  destruct (three_fragments_play_once_at_450 [Byte.x49] [Byte.x44] [Byte.x33] 1000)
    as (_ & Hdue & Hdone).
  destruct Hdue as [Hstarted _]; [discriminate |].
  destruct (Hdone 2000 5000) as [Hafter _]; [discriminate | discriminate |].
  split; [exact Hstarted | exact Hafter].
Defined.

(** * Further properties *)

(** ** Connection lifecycle, further *)

Lemma scheduled_app (e1 e2 : list effect) :
  scheduled (e1 ++ e2) = scheduled e1 ++ scheduled e2.
Proof.
  induction e1 as [| e rest IH]; [reflexivity |].
  destruct e as [ev | | p | c r | [|] d | h | unit |]; cbn; rewrite ?IH; reflexivity.
Qed.

Lemma and_then_fst_snd (r : outcome) (k : WebSocketService -> outcome) :
  and_then r k = (fst (k (fst r)), snd r ++ snd (k (fst r))).
Proof.
  unfold and_then. destruct r as [s1 e1]. cbn. destruct (k s1). reflexivity.
Qed.

Lemma socket_step_bounds (ev : socket_event) (s : WebSocketService) :
  backoff_bounds s ->
  backoff_bounds (fst (socket_step ev s))
  /\ Forall (fun d => In d [1000; 2000; 4000; 8000; 16000])
            (scheduled (snd (socket_step ev s))).
Proof.
  destruct s as [w sid conn att mx dl subs ctx q buf tm pl].
  unfold backoff_bounds. cbn. intros (Hatt & -> & ->).
  destruct ev as [fresh arg | | error | code reason | fresh | | | code reason];
    cbn.
  - repeat split; try lia. constructor.
  - repeat split; try lia. constructor.
  - repeat split; try lia. constructor.
  - unfold ws_onclose, and_then, attemptReconnect. cbn.
    destruct (negb (code =? 1000)); cbn; [| repeat split; try lia; constructor].
    destruct (Z.ltb_spec att 5) as [Hbelow | Hcap]; cbn;
      [| repeat split; try lia; constructor].
    replace (att + 1 - 1) with att by lia.
    assert (Hcases : att = 0 \/ att = 1 \/ att = 2 \/ att = 3 \/ att = 4) by lia.
    repeat split; try lia.
    constructor; [| constructor].
    destruct Hcases as [-> | [-> | [-> | [-> | ->]]]]; cbn; tauto.
  - repeat split; try lia. constructor.
  - destruct w, tm, ctx; cbn; repeat split; try lia; constructor.
  - unfold orphan_onopen. cbn.
    destruct w as [[| | |] |]; cbn; repeat split; try lia; constructor.
  - unfold orphan_onclose, and_then, attemptReconnect. cbn.
    destruct (negb (code =? 1000)); cbn; [| repeat split; try lia; constructor].
    destruct (Z.ltb_spec att 5) as [Hbelow | Hcap]; cbn;
      [| repeat split; try lia; constructor].
    replace (att + 1 - 1) with att by lia.
    assert (Hcases : att = 0 \/ att = 1 \/ att = 2 \/ att = 3 \/ att = 4) by lia.
    repeat split; try lia.
    constructor; [| constructor].
    destruct Hcases as [-> | [-> | [-> | [-> | ->]]]]; cbn; tauto.
Qed.

(** X1. Over any history of connects, opens, errors, closes, reconnection
    timer expiries and disconnects, in any order, from a fresh service: the
    attempt counter stays between 0 and 5, the base delay stays 1000 and the
    cap stays 5, and every reconnection delay armed is one of 1000, 2000,
    4000, 8000, 16000 ms, so the 30000 ms ceiling in [attemptReconnect] is
    never the smaller argument of its [Math.min]. *)
Theorem backoff_state_is_bounded :
  forall evs : list socket_event,
    let r := socket_trace evs constructor in
    0 <= reconnectAttempts (fst r) <= 5
    /\ reconnectDelay (fst r) = 1000
    /\ maxReconnectAttempts (fst r) = 5
    /\ Forall (fun d => In d [1000; 2000; 4000; 8000; 16000]) (scheduled (snd r))
    /\ Forall (fun d => d < 30000) (scheduled (snd r)).
Proof.
  intros evs.
  assert (Hgen : forall s, backoff_bounds s ->
            backoff_bounds (fst (socket_trace evs s))
            /\ Forall (fun d => In d [1000; 2000; 4000; 8000; 16000])
                      (scheduled (snd (socket_trace evs s)))).
  { induction evs as [| ev later IH]; intros s Hs.
    - split; [exact Hs | constructor].
    - cbn [socket_trace]. rewrite and_then_fst_snd. cbn [fst snd].
      destruct (socket_step_bounds ev s Hs) as [Hnext Hhere].
      destruct (IH _ Hnext) as [Hlast Hthere].
      split; [exact Hlast |].
      rewrite scheduled_app. apply Forall_app. split; assumption. }
  destruct (Hgen constructor) as [(Hatt & Hdl & Hmx) Hsched].
  { unfold backoff_bounds. cbn. lia. }
  cbv zeta. repeat split; try assumption; try lia.
  eapply Forall_impl; [| exact Hsched].
  cbn. intros d Hd. intuition lia.
Qed.

(** X2. A successful open puts the attempt counter back to 0 whatever it
    was, so a run of failures that follows it starts again at 1000 ms and
    may arm five reconnections again. *)
Theorem open_restarts_backoff :
  forall (fresh : string) (codes : list Z) (s : WebSocketService),
    maxReconnectAttempts s = 5 ->
    Forall (fun code => code <> 1000) codes ->
    reconnectAttempts (fst (ws_onopen s)) = 0
    /\ failing_run fresh codes (fst (ws_onopen s))
       = firstn (List.length codes) [1000; 2000; 4000; 8000; 16000].
Proof.
  intros fresh codes s Hmx Hcodes. split; [reflexivity |].
  apply (failing_run_from fresh codes (fst (ws_onopen s)) 0%nat).
  - lia.
  - reflexivity.
  - reflexivity.
  - exact Hmx.
  - exact Hcodes.
Qed.

(** Three failed attempts, an open, then two more failures. *)
Lemma open_restarts_backoff_witness :
  let worn := fst (socket_trace [SocketClosed 1006 ""; ReconnectDue "session_4";
                                 SocketFailed (JErr "Event"); SocketClosed 1006 "";
                                 ReconnectDue "session_5";
                                 SocketFailed (JErr "Event"); SocketClosed 1006 ""]
                     constructor) in
  reconnectAttempts worn = 3
  /\ failing_run "session_6" [1006; 1006] (fst (ws_onopen worn)) = [1000; 2000].
Proof.
  intros worn. split; [reflexivity |].
  apply (open_restarts_backoff "session_6" [1006; 1006] worn).
  - reflexivity.
  - repeat constructor; discriminate.
Defined.

Lemma sent_session_ids_app (e1 e2 : list effect) :
  sent_session_ids (e1 ++ e2) = sent_session_ids e1 ++ sent_session_ids e2.
Proof.
  induction e1 as [| e rest IH]; [reflexivity |].
  destruct e as [ev | | [o | pcm | raw] | c r | cb d | h | unit |];
    cbn; rewrite ?IH; reflexivity.
Qed.

Lemma socket_step_session (ev : socket_event) (s : WebSocketService)
    (sid : string) :
  sessionId s = Some sid -> sid <> "" ->
  is_client_connect ev = false ->
  sessionId (fst (socket_step ev s)) = Some sid
  /\ Forall (fun v => v = JStr sid) (sent_session_ids (snd (socket_step ev s))).
Proof.
  destruct s as [w sd conn att mx dl subs ctx q buf tm pl].
  cbn. intros -> Hsid Hev. apply String.eqb_neq in Hsid.
  destruct ev as [fresh arg | | error | code reason | fresh | | | code reason];
    try discriminate; cbn.
  - split; [reflexivity | repeat constructor].
  - split; [reflexivity | constructor].
  - unfold ws_onclose, and_then, attemptReconnect. cbn.
    destruct (negb (code =? 1000) && (att <? mx)); cbn;
      (split; [reflexivity | constructor]).
  - rewrite Hsid. split; [reflexivity | constructor].
  - destruct w, tm, ctx; cbn; (split; [reflexivity | constructor]).
  - unfold orphan_onopen. cbn.
    destruct w as [[| | |] |]; cbn; (split; [reflexivity | repeat constructor]).
  - unfold orphan_onclose, and_then, attemptReconnect. cbn.
    destruct (negb (code =? 1000) && (att <? mx)); cbn;
      (split; [reflexivity | constructor]).
Qed.

(** X3. Only [connect()] called by the client changes the session
    identifier: through any history of opens, errors, closes, reconnection
    timer expiries and disconnects, a non-empty identifier stays the same
    and every handshake sent carries it; the identifier generated at a
    reconnection is not used. *)
Theorem session_identifier_survives_reconnection :
  forall (evs : list socket_event) (s : WebSocketService) (sid : string),
    sessionId s = Some sid -> sid <> "" ->
    forallb (fun ev => negb (is_client_connect ev)) evs = true ->
    getSessionId (fst (socket_trace evs s)) = Some sid
    /\ Forall (fun v => v = JStr sid)
              (sent_session_ids (snd (socket_trace evs s))).
Proof.
  induction evs as [| ev later IH]; intros s sid Hs Hsid Hevs.
  - split; [exact Hs | constructor].
  - cbn in Hevs. apply andb_true_iff in Hevs as [Hev Hlater].
    apply negb_true_iff in Hev.
    cbn [socket_trace]. rewrite and_then_fst_snd. cbn [fst snd].
    destruct (socket_step_session ev s sid Hs Hsid Hev) as [Hnext Hhere].
    destruct (IH _ sid Hnext Hsid Hlater) as [Hlast Hthere].
    split; [exact Hlast |].
    rewrite sent_session_ids_app. apply Forall_app. split; assumption.
Qed.

(** A generated identifier, used again by the handshake after a reconnection. *)
Lemma session_identifier_survives_reconnection_witness :
  let r := socket_trace [SocketOpened; SocketClosed 1006 ""; ReconnectDue "session_8";
                         SocketOpened]
             (fst (connect "session_7" None constructor)) in
  getSessionId (fst r) = Some "session_7"
  /\ sent_session_ids (snd r) = [JStr "session_7"; JStr "session_7"].
Proof.
  intros r.
  destruct (session_identifier_survives_reconnection
              [SocketOpened; SocketClosed 1006 ""; ReconnectDue "session_8";
               SocketOpened]
              (fst (connect "session_7" None constructor)) "session_7")
    as [Hid _].
  - reflexivity.
  - discriminate.
  - reflexivity.
  - split; [exact Hid | reflexivity].
Defined.

(** X4. [disconnect()] is idempotent: a second call changes nothing and
    asks nothing of the platform. After it there is no socket, the flags are
    down, both audio buffers are empty and no play timer handle is held;
    the subscribers are kept; [sendAudioChunk] sends nothing; and the only
    timer it clears is the play timer whose handle the service held. *)
Theorem disconnect_is_idempotent :
  forall s : WebSocketService,
    let s1 := fst (disconnect s) in
    disconnect s1 = (s1, [])
    /\ ws s1 = None /\ isConnected s1 = false
    /\ mp3Buffer s1 = [] /\ audioQueue s1 = []
    /\ isPlaying s1 = false /\ mp3PlayTimeout s1 = None
    /\ audioContext s1 = false
    /\ subscribers s1 = subscribers s
    /\ (forall c, sendAudioChunk c s1 = (s1, []))
    /\ (forall h, In h (cleared (snd (disconnect s))) -> mp3PlayTimeout s = Some h).
Proof.
  intros s. destruct s as [w sid conn att mx dl subs ctx q buf tm pl].
  destruct w, tm, ctx; cbv zeta;
    repeat match goal with |- _ /\ _ => split end;
    try (vm_compute; reflexivity);
    try (intros c; vm_compute; reflexivity);
    cbn; intros h Hh; try tauto; destruct Hh as [<- | []]; reflexivity.
Qed.

(** X5. [disconnect()] does not cancel a reconnection that a close has
    armed (the handle of that timer is never stored): after an abnormal
    close below the cap, a [disconnect()], the expiry of the timer and the
    opening of the socket it creates, the service is connected again, and
    the new socket was created after the client's close. *)
Theorem disconnect_leaves_reconnection_armed :
  forall (code : Z) (reason fresh : string) (s : WebSocketService),
    code <> 1000 ->
    reconnectAttempts s < maxReconnectAttempts s ->
    let r := socket_trace [SocketClosed code reason; ClientDisconnect;
                           ReconnectDue fresh; SocketOpened] s in
    List.length (scheduled (snd r)) = 1%nat
    /\ (forall h, In h (cleared (snd r)) -> mp3PlayTimeout s = Some h)
    /\ ws (fst r) = Some OPEN
    /\ getConnectionStatus (fst r) = true
    /\ (ws s <> None ->
        exists before after,
          snd r = before ++ WsClose 1000 "Client disconnect" :: after
          /\ In NewWebSocket after).
Proof.
  intros code reason fresh s Hcode Hbelow.
  destruct s as [w sid conn att mx dl subs ctx q buf tm pl].
  cbn in Hbelow. apply Z.eqb_neq in Hcode. apply Z.ltb_lt in Hbelow.
  cbn -[Z.pow Z.min]. unfold ws_onclose, and_then, attemptReconnect.
  cbn -[Z.pow Z.min]. rewrite Hcode, Hbelow. cbn -[Z.pow Z.min].
  destruct w as [st |], tm as [h0 |], ctx; cbn -[Z.pow Z.min];
    (split; [reflexivity |]);
    (split; [intros h Hh; try tauto; destruct Hh as [<- | []]; reflexivity |]);
    (split; [reflexivity |]); (split; [reflexivity |]);
    intros Hws; try congruence;
    eexists [_; _], _; (split; [reflexivity |]); cbn; tauto.
Qed.

(** An open connection that drops and is disconnected during the first delay. *)
Lemma disconnect_leaves_reconnection_armed_witness :
  let r := socket_trace [SocketClosed 1006 ""; ClientDisconnect;
                         ReconnectDue "session_9"; SocketOpened]
             (fst (ws_onopen (fst (connect "session_9" None constructor)))) in
  scheduled (snd r) = [1000] /\ getConnectionStatus (fst r) = true.
Proof.
  intros r.
  destruct (disconnect_leaves_reconnection_armed 1006 "" "session_9"
              (fst (ws_onopen (fst (connect "session_9" None constructor)))))
    as (_ & _ & _ & Hconn & _).
  - discriminate.
  - reflexivity.
  - split; [reflexivity | exact Hconn].
Defined.

(** ** Inbound frames, further *)

Lemma prop_type_object (message : jsval) (t : string) :
  prop message "type" = JStr t -> exists ps, message = JObj ps.
Proof.
  destruct message; cbn; try discriminate. intros _. eexists. reflexivity.
Qed.

(** X6. A message whose [type] is one of the case labels makes
    [processMessage] publish exactly one event, whose [type] is
    [transcript] for the three transcript labels and the label itself
    otherwise. The older service does the same on its seven labels, with
    [incident] for [incident_summary], and publishes [unknown] for
    [decision_explanation] and [transcription_status]. *)
Theorem known_type_publishes_one_event :
  forall (now : string) (message : jsval) (t : string),
    prop message "type" = JStr t ->
    (In t known_types ->
       exists e, processMessage now message = Some [Notify e]
                 /\ own_prop "type" e = JStr (event_type t))
    /\ (In t legacy_known_types ->
          exists e, Legacy.processMessage now message = Some [Notify e]
                    /\ own_prop "type" e = JStr (legacy_event_type t))
    /\ (t = "decision_explanation" \/ t = "transcription_status" ->
          Legacy.processMessage now message
          = Some [Notify [("type", JStr "unknown"); ("message", message)]]).
Proof.
  intros now message t Htype.
  destruct (prop_type_object message t Htype) as [ps ->].
  unfold processMessage, Legacy.processMessage. rewrite Htype.
  split; [| split].
  - cbn. intros Hin.
    repeat (destruct Hin as [<- | Hin]; [eexists; split; reflexivity |]).
    destruct Hin.
  - cbn. intros Hin.
    repeat (destruct Hin as [<- | Hin]; [eexists; split; reflexivity |]).
    destruct Hin.
  - intros [-> | ->]; reflexivity.
Qed.

(** An [ai_transcript] message. *)
Lemma known_type_publishes_one_event_witness :
  exists e,
    processMessage "2024-05-01T10:00:00.000Z"
      (JObj [("type", JStr "ai_transcript"); ("text", JStr "Kahan ho?")])
    = Some [Notify e]
    /\ own_prop "type" e = JStr "transcript".
Proof.
  destruct (known_type_publishes_one_event "2024-05-01T10:00:00.000Z"
              (JObj [("type", JStr "ai_transcript"); ("text", JStr "Kahan ho?")])
              "ai_transcript") as (Hnew & _).
  - reflexivity.
  - apply Hnew. cbn. tauto.
Defined.

Lemma processMessage_at_most_one (now : string) (message : jsval) :
  match processMessage now message with
  | Some effs => exists evs, effs = map Notify evs /\ (List.length evs <= 1)%nat
  | None => message = JNull \/ message = JUndefined
  end
  /\ match Legacy.processMessage now message with
     | Some effs => exists evs, effs = map Notify evs /\ List.length evs = 1%nat
     | None => message = JNull \/ message = JUndefined
     end.
Proof.
  unfold processMessage, Legacy.processMessage.
  destruct message; try (split; tauto);
    destruct (prop _ "type") as [| | | | t | | | |];
    repeat match goal with
           | |- context [if ?c then _ else _] => destruct c
           end;
    (split;
     first [ solve [eexists [_]; split; [reflexivity | cbn; lia]]
           | solve [exists []; split; [reflexivity | cbn; lia]] ]).
Qed.

(** X7. Whatever a text frame holds, handling it leaves the whole state
    as it was and asks for nothing but publications: at most one in the
    service of nirnay-ui, exactly one in the older service. *)
Theorem text_frame_leaves_state_alone :
  forall (JSON_parse : string -> option jsval) (now : string) (handle : nat)
         (decodable : bytes -> bool) (data : string) (s : WebSocketService),
    fst (handleMessage JSON_parse now handle (Text data) s) = s
    /\ (exists evs,
          snd (handleMessage JSON_parse now handle (Text data) s) = map Notify evs
          /\ (List.length evs <= 1)%nat)
    /\ fst (Legacy.handleMessage JSON_parse now decodable (Text data) s) = s
    /\ (exists evs,
          snd (Legacy.handleMessage JSON_parse now decodable (Text data) s)
          = map Notify evs
          /\ List.length evs = 1%nat).
Proof.
  intros JSON_parse now handle decodable data s.
  unfold handleMessage, Legacy.handleMessage.
  destruct (JSON_parse data) as [message |].
  - destruct (processMessage_at_most_one now message) as [Hnew Hold].
    destruct (processMessage now message) as [effs |],
             (Legacy.processMessage now message) as [effs' |]; cbn [fst snd];
      repeat match goal with |- _ /\ _ => split end;
      try reflexivity; try assumption;
      try (eexists [_]; split; [reflexivity | cbn; lia]).
  - cbn [fst snd]. repeat match goal with |- _ /\ _ => split end;
      try reflexivity; (eexists [_]; split; [reflexivity | cbn; lia]).
Qed.

(** X8. The JSON document [null] decodes, but reading its [type] raises
    inside the [try]: both services publish the one event
    [Failed to parse message] and leave the state as it was. *)
Theorem null_document_publishes_one_error :
  forall (JSON_parse : string -> option jsval) (now : string) (handle : nat)
         (decodable : bytes -> bool) (data : string) (s : WebSocketService),
    JSON_parse data = Some JNull ->
    handleMessage JSON_parse now handle (Text data) s
    = (s, [Notify [("type", JStr "error");
                   ("message", JStr "Failed to parse message");
                   ("error", JErr "TypeError")]])
    /\ Legacy.handleMessage JSON_parse now decodable (Text data) s
       = (s, [Notify [("type", JStr "error");
                      ("message", JStr "Failed to parse message");
                      ("error", JErr "TypeError")]]).
Proof.
  intros JSON_parse now handle decodable data s Hparse.
  unfold handleMessage, Legacy.handleMessage. rewrite Hparse. split; reflexivity.
Qed.

(** The text frame [null]. *)
Lemma null_document_publishes_one_error_witness :
  published (snd (handleMessage example_parse "" 1 (Text "null") constructor))
  = [parse_failure "TypeError"].
Proof.
  destruct (null_document_publishes_one_error example_parse "" 1%nat
              (fun _ => true) "null" constructor) as [Hnew _].
  - reflexivity.
  - rewrite Hnew. reflexivity.
Defined.

Lemma js_or_truthy (a b : jsval) : truthy b = true -> truthy (js_or a b) = true.
Proof. unfold js_or. destruct (truthy a) eqn:Ha; auto. Qed.

(** X9. A transcript event copies [text] and [confidence] and always
    names a speaker and a time: the message's own [speaker] and [timestamp]
    when they are truthy, otherwise [ai] for an [ai_transcript] and [user]
    for the other two labels, and the current time. Both services publish
    the same event. *)
Theorem transcript_names_speaker_and_time :
  forall (now : string) (message : jsval) (t : string),
    prop message "type" = JStr t ->
    In t ["transcript"; "user_transcript"; "ai_transcript"] ->
    now <> "" ->
    exists e,
      processMessage now message = Some [Notify e]
      /\ Legacy.processMessage now message = Some [Notify e]
      /\ own_prop "text" e = prop message "text"
      /\ own_prop "confidence" e = prop message "confidence"
      /\ truthy (own_prop "speaker" e) = true
      /\ truthy (own_prop "timestamp" e) = true
      /\ (truthy (prop message "speaker") = true ->
            own_prop "speaker" e = prop message "speaker")
      /\ (truthy (prop message "speaker") = false ->
            own_prop "speaker" e
            = if String.eqb t "ai_transcript" then JStr "ai" else JStr "user")
      /\ (truthy (prop message "timestamp") = true ->
            own_prop "timestamp" e = prop message "timestamp")
      /\ (truthy (prop message "timestamp") = false ->
            own_prop "timestamp" e = JStr now).
Proof.
  intros now message t Htype Hin Hnow.
  destruct (prop_type_object message t Htype) as [ps ->].
  assert (Hclock : truthy (JStr now) = true).
  { cbn. apply negb_true_iff, String.eqb_neq, Hnow. }
  unfold processMessage, Legacy.processMessage. rewrite Htype.
  cbn in Hin.
  destruct Hin as [<- | [<- | [<- | []]]];
    (eexists; split; [reflexivity |]; split; [reflexivity |];
     cbn [own_prop String.eqb Ascii.eqb Bool.eqb andb];
     repeat match goal with |- _ /\ _ => split end;
     try reflexivity;
     try (apply js_or_truthy; first [reflexivity | exact Hclock]);
     unfold js_or; intros ->; reflexivity).
Qed.

(** An [ai_transcript] with an empty [speaker] and no [timestamp]. *)
Lemma transcript_names_speaker_and_time_witness :
  exists e,
    processMessage "2024-05-01T10:00:00.000Z"
      (JObj [("type", JStr "ai_transcript"); ("text", JStr "Kahan ho?");
             ("speaker", JStr "")])
    = Some [Notify e]
    /\ own_prop "speaker" e = JStr "ai"
    /\ own_prop "timestamp" e = JStr "2024-05-01T10:00:00.000Z".
Proof.
  destruct (transcript_names_speaker_and_time "2024-05-01T10:00:00.000Z"
              (JObj [("type", JStr "ai_transcript"); ("text", JStr "Kahan ho?");
                     ("speaker", JStr "")])
              "ai_transcript")
    as (e & Hnew & _ & _ & _ & _ & _ & _ & Hspeaker & _ & Htime).
  - reflexivity.
  - cbn. tauto.
  - discriminate.
  - exists e. split; [exact Hnew |]. split.
    + rewrite Hspeaker; reflexivity.
    + apply Htime. reflexivity.
Defined.

(** ** Outbound audio, further *)

Lemma clamp_unit_monotone (x y : Q) :
  (x <= y)%Q ->
  (Qmax (-1 # 1) (Qmin (1 # 1) x) <= Qmax (-1 # 1) (Qmin (1 # 1) y))%Q.
Proof.
  intros Hxy. apply Q.max_le_compat_l. apply Q.min_le_compat_l. exact Hxy.
Qed.

Lemma clamp_unit_high (x : Q) :
  (1 # 1 <= x)%Q -> (Qmax (-1 # 1) (Qmin (1 # 1) x) == 1 # 1)%Q.
Proof.
  intros Hx. rewrite (Q.min_l _ _ Hx). apply Q.max_r. discriminate.
Qed.

Lemma clamp_unit_low (x : Q) :
  (x <= -1 # 1)%Q -> (Qmax (-1 # 1) (Qmin (1 # 1) x) == -1 # 1)%Q.
Proof.
  intros Hx. apply Q.max_l.
  apply Qle_trans with x; [apply Q.le_min_r | exact Hx].
Qed.

(** X10. The conversion of the service of nirnay-ui preserves order, sends
    everything from 1.0 up as 32767 and everything from -1.0 down as
    -32768, and gives equal results on equal rationals. *)
Theorem encoding_is_monotone_and_saturates :
  forall x y : Q,
    ((x <= y)%Q -> int16_of_sample x <= int16_of_sample y)
    /\ ((1 # 1 <= x)%Q -> int16_of_sample x = 32767)
    /\ ((x <= -1 # 1)%Q -> int16_of_sample x = -32768)
    /\ ((x == y)%Q -> int16_of_sample x = int16_of_sample y).
Proof.
  intros x y.
  destruct (int16_of_sample_unfold x) as [Hx _].
  destruct (int16_of_sample_unfold y) as [Hy _].
  assert (Hmono : (x <= y)%Q -> int16_of_sample x <= int16_of_sample y).
  { intros Hxy. rewrite Hx, Hy. apply Z.min_le_compat_l.
    unfold Math_round. apply Qfloor_resp_le.
    pose proof (clamp_unit_monotone x y Hxy). lra. }
  assert (Hmono' : (y <= x)%Q -> int16_of_sample y <= int16_of_sample x).
  { intros Hyx. rewrite Hx, Hy. apply Z.min_le_compat_l.
    unfold Math_round. apply Qfloor_resp_le.
    pose proof (clamp_unit_monotone y x Hyx). lra. }
  split; [exact Hmono |]. split; [| split].
  - intros Hhigh. rewrite Hx. unfold Math_round.
    rewrite (Qfloor_comp _ (65537 # 2)); [reflexivity |].
    rewrite (clamp_unit_high x Hhigh). reflexivity.
  - intros Hlow. rewrite Hx. unfold Math_round.
    rewrite (Qfloor_comp _ (-65535 # 2)); [reflexivity |].
    rewrite (clamp_unit_low x Hlow). reflexivity.
  - intros Heq. apply Z.le_antisymm.
    + apply Hmono. rewrite Heq. apply Qle_refl.
    + apply Hmono'. rewrite Heq. apply Qle_refl.
Qed.

(** A third and two thirds of full scale, and two samples out of range. *)
Lemma encoding_is_monotone_and_saturates_witness :
  int16_of_sample (1 # 3) <= int16_of_sample (2 # 3)
  /\ int16_of_sample (5 # 4) = 32767
  /\ int16_of_sample (-7 # 2) = -32768.
Proof.
  destruct (encoding_is_monotone_and_saturates (1 # 3) (2 # 3)) as (Hmono & _).
  destruct (encoding_is_monotone_and_saturates (5 # 4) 0) as (_ & Hhigh & _).
  destruct (encoding_is_monotone_and_saturates (-7 # 2) 0) as (_ & _ & Hlow & _).
  split; [apply Hmono; discriminate |].
  split; [apply Hhigh; discriminate | apply Hlow; discriminate].
Defined.

Lemma js_trunc_monotone (a b : Q) : (a <= b)%Q -> js_trunc a <= js_trunc b.
Proof.
  intros Hab.
  destruct (Qlt_le_dec a 0) as [Ha | Ha]; destruct (Qlt_le_dec b 0) as [Hb | Hb].
  - destruct (js_trunc_nonpos a) as (_ & Hla & _); [lra |].
    destruct (js_trunc_nonpos b) as (_ & _ & Hub); [lra |].
    apply Z.lt_succ_r. rewrite Zlt_Qlt. unfold Z.succ. rewrite inject_Z_plus.
    change (inject_Z 1) with (1 # 1)%Q. lra.
  - destruct (js_trunc_nonpos a) as (Hza & _); [lra |].
    destruct (js_trunc_nonneg b Hb) as (Hzb & _). lia.
  - lra.
  - destruct (js_trunc_nonneg a Ha) as (_ & Hla & _).
    destruct (js_trunc_nonneg b Hb) as (_ & _ & Hub).
    apply Z.lt_succ_r. rewrite Zlt_Qlt. unfold Z.succ. rewrite inject_Z_plus.
    change (inject_Z 1) with (1 # 1)%Q. lra.
Qed.

(** X11. The conversion of the older service preserves order, saturates
    in the same way, and keeps the sign: no sample from zero up is sent as
    a negative value and none from zero down as a positive one. *)
Theorem legacy_encoding_is_monotone_and_saturates :
  forall x y : Q,
    ((x <= y)%Q -> Legacy.int16_of_sample x <= Legacy.int16_of_sample y)
    /\ ((1 # 1 <= x)%Q -> Legacy.int16_of_sample x = 32767)
    /\ ((x <= -1 # 1)%Q -> Legacy.int16_of_sample x = -32768)
    /\ ((0 <= x)%Q -> 0 <= Legacy.int16_of_sample x)
    /\ ((x <= 0)%Q -> Legacy.int16_of_sample x <= 0).
Proof.
  intros x y.
  destruct (legacy_int16_of_sample_unfold x) as [Hx _].
  destruct (legacy_int16_of_sample_unfold y) as [Hy _].
  cbv zeta in Hx, Hy.
  pose proof (clamp_unit_bounds x) as Hbx.
  pose proof (clamp_unit_bounds y) as Hby.
  set (sx := Qmax (-1 # 1) (Qmin (1 # 1) x)) in *.
  set (sy := Qmax (-1 # 1) (Qmin (1 # 1) y)) in *.
  split; [| split; [| split; [| split]]].
  - intros Hxy. pose proof (clamp_unit_monotone x y Hxy) as Hs.
    fold sx sy in Hs. rewrite Hx, Hy.
    destruct (Qlt_le_dec sx 0) as [Hnx | Hpx];
      destruct (Qlt_le_dec sy 0) as [Hny | Hpy].
    + apply js_trunc_monotone. lra.
    + destruct (js_trunc_nonpos (sx * (32768 # 1))) as (Hzx & _); [lra |].
      destruct (js_trunc_nonneg (sy * (32767 # 1))) as (Hzy & _); [nra |].
      lia.
    + lra.
    + apply js_trunc_monotone. nra.
  - intros Hhigh. rewrite Hx.
    pose proof (clamp_unit_high x Hhigh) as Hs. fold sx in Hs.
    destruct (Qlt_le_dec sx 0) as [Hn | Hp]; [lra |].
    destruct (js_trunc_nonneg (sx * (32767 # 1))) as (_ & Hl & Hu); [nra |].
    apply Z.le_antisymm.
    * rewrite Zle_Qle. change (inject_Z 32767) with (32767 # 1)%Q. lra.
    * apply Z.lt_succ_r. rewrite Zlt_Qlt. unfold Z.succ. rewrite inject_Z_plus.
      change (inject_Z 32767) with (32767 # 1)%Q.
      change (inject_Z 1) with (1 # 1)%Q. lra.
  - intros Hlow. rewrite Hx.
    pose proof (clamp_unit_low x Hlow) as Hs. fold sx in Hs.
    destruct (Qlt_le_dec sx 0) as [Hn | Hp]; [| lra].
    destruct (js_trunc_nonpos (sx * (32768 # 1))) as (_ & Hl & Hu); [lra |].
    apply Z.le_antisymm.
    * apply Z.lt_succ_r. rewrite Zlt_Qlt. unfold Z.succ. rewrite inject_Z_plus.
      change (inject_Z (-32768)) with (-32768 # 1)%Q.
      change (inject_Z 1) with (1 # 1)%Q. lra.
    * rewrite Zle_Qle. change (inject_Z (-32768)) with (-32768 # 1)%Q. lra.
  - intros Hpos. rewrite Hx.
    assert (Hs : (0 <= sx)%Q).
    { unfold sx. apply Qle_trans with (Qmin (1 # 1) x); [| apply Q.le_max_r].
      apply Q.min_glb; [discriminate | exact Hpos]. }
    destruct (Qlt_le_dec sx 0) as [Hn | Hp]; [lra |].
    apply js_trunc_nonneg. nra.
  - intros Hneg. rewrite Hx.
    assert (Hs : (sx <= 0)%Q).
    { unfold sx. apply Q.max_lub; [discriminate |].
      apply Qle_trans with x; [apply Q.le_min_r | exact Hneg]. }
    destruct (Qlt_le_dec sx 0) as [Hn | Hp].
    + apply js_trunc_nonpos. lra.
    + assert (Hz : (sx == 0)%Q) by lra.
      destruct (js_trunc_nonneg (sx * (32767 # 1))) as (_ & Hl & _); [nra |].
      apply Z.lt_succ_r. rewrite Zlt_Qlt. unfold Z.succ. rewrite inject_Z_plus.
      change (inject_Z 0) with (0 # 1)%Q.
      change (inject_Z 1) with (1 # 1)%Q. lra.
Qed.

(** The same samples through the older conversion. *)
Lemma legacy_encoding_is_monotone_and_saturates_witness :
  Legacy.int16_of_sample (-1 # 3) <= Legacy.int16_of_sample (2 # 3)
  /\ Legacy.int16_of_sample (5 # 4) = 32767
  /\ Legacy.int16_of_sample (-7 # 2) = -32768.
Proof.
  destruct (legacy_encoding_is_monotone_and_saturates (-1 # 3) (2 # 3))
    as (Hmono & _).
  destruct (legacy_encoding_is_monotone_and_saturates (5 # 4) 0)
    as (_ & Hhigh & _).
  destruct (legacy_encoding_is_monotone_and_saturates (-7 # 2) 0)
    as (_ & _ & Hlow & _).
  split; [apply Hmono; discriminate |].
  split; [apply Hhigh; discriminate | apply Hlow; discriminate].
Defined.

(** X12. [sendAudioChunk] never changes the state, publishes nothing and
    writes at most one frame. It writes nothing unless the service is
    connected and the socket is open, nothing for an empty chunk, a [Blob]
    or an unsupported value; for a non-empty [Float32Array] on an open
    connection it writes one frame with one 16-bit value per sample. *)
Theorem send_audio_is_gated :
  forall (c : chunk) (s : WebSocketService),
    fst (sendAudioChunk c s) = s
    /\ published (snd (sendAudioChunk c s)) = []
    /\ (List.length (sent (snd (sendAudioChunk c s))) <= 1)%nat
    /\ (isConnected s = false \/ ws s <> Some OPEN ->
          snd (sendAudioChunk c s) = [])
    /\ (forall samples,
          c = Float32Array samples -> samples <> [] ->
          isConnected s = true -> ws s = Some OPEN ->
          exists pcm,
            snd (sendAudioChunk c s) = [WsSend (Pcm16 pcm)]
            /\ List.length pcm = List.length samples
            /\ Forall (fun v => -32768 <= v <= 32767) pcm)
    /\ (c = Float32Array [] \/ (exists data, c = Blob data) \/ c = Unsupported
        \/ c = ArrayBuffer [] ->
          snd (sendAudioChunk c s) = []).
Proof.
  intros c s. unfold sendAudioChunk.
  split; [| split; [| split; [| split; [| split]]]].
  - destruct (isConnected s), (ws s) as [[| | |] |], c as [[| x xs] | [| b d] | d |];
      reflexivity.
  - destruct (isConnected s), (ws s) as [[| | |] |], c as [[| x xs] | [| b d] | d |];
      reflexivity.
  - destruct (isConnected s), (ws s) as [[| | |] |], c as [[| x xs] | [| b d] | d |];
      cbn; lia.
  - intros [-> | Hws]; [reflexivity |].
    destruct (isConnected s), (ws s) as [[| | |] |]; try reflexivity; congruence.
  - intros samples -> Hsome -> ->.
    destruct samples as [| x xs]; [congruence |].
    exists (map int16_of_sample (x :: xs)). split; [reflexivity |].
    split; [apply length_map |].
    apply Forall_map, Forall_forall. intros v _.
    apply int16_of_sample_unfold.
  - intros [-> | [[d ->] | [-> | ->]]];
      destruct (isConnected s), (ws s) as [[| | |] |]; reflexivity.
Qed.

(** Two samples on an open connection, and after it has dropped. *)
Lemma send_audio_is_gated_witness :
  let s := fst (ws_onopen (fst (connect "session_10" None constructor))) in
  sent (snd (sendAudioChunk (Float32Array [1 # 4; -1 # 1]) s))
  = [Pcm16 [8192; -32768]]
  /\ snd (sendAudioChunk (Float32Array [1 # 4; -1 # 1])
            (fst (ws_onclose 1006 "" s))) = [].
Proof.
  intros s.
  destruct (send_audio_is_gated (Float32Array [1 # 4; -1 # 1])
              (fst (ws_onclose 1006 "" s))) as (_ & _ & _ & Hclosed & _).
  split; [reflexivity |].
  apply Hclosed. left. reflexivity.
Defined.

(** ** Capture, further *)

Lemma onaudioprocess_conserves (audioBuffer inputData : list Q) :
  match snd (onaudioprocess true audioBuffer inputData) with
  | Some c =>
    chunk_samples c ++ fst (onaudioprocess true audioBuffer inputData)
    = audioBuffer ++ inputData
    /\ Z.of_nat (List.length (chunk_samples c)) = 8000
  | None => fst (onaudioprocess true audioBuffer inputData)
            = audioBuffer ++ inputData
  end.
Proof.
  unfold onaudioprocess. cbn [negb].
  generalize chunkSize_value. generalize chunkSize. intros size Hsize.
  destruct (Nat.leb_spec size (List.length (audioBuffer ++ inputData)));
    cbn [fst snd chunk_samples].
  - split; [apply firstn_skipn |]. rewrite length_firstn. lia.
  - reflexivity.
Qed.

Lemma capture_ledger (blocks : list (list Q)) :
  forall audioBuffer : list Q,
    let r := capture true audioBuffer blocks in
    flat_map chunk_samples (snd r) ++ fst r = audioBuffer ++ List.concat blocks
    /\ (List.length (snd r) <= List.length blocks)%nat
    /\ Z.of_nat (List.length (fst r))
       = Z.of_nat (List.length audioBuffer)
         + Z.of_nat (List.length (List.concat blocks))
         - 8000 * Z.of_nat (List.length (snd r)).
Proof.
  induction blocks as [| inputData later IH]; intros audioBuffer.
  - cbn. rewrite app_nil_r. repeat split; lia.
  - cbv zeta. cbn [capture List.concat].
    pose proof (onaudioprocess_conserves audioBuffer inputData) as Hone.
    destruct (onaudioprocess true audioBuffer inputData) as [buffer sent].
    specialize (IH buffer). cbv zeta in IH.
    destruct IH as (Hrest & Hcount & Hlen).
    destruct (capture true buffer later) as [final chunks].
    cbn [fst snd] in *.
    rewrite !length_app in *.
    destruct sent as [c |]; cbn [flat_map List.length].
    + destruct Hone as [Hone Hc].
      rewrite app_assoc, <- Hone, <- !app_assoc, <- Hrest.
      split; [reflexivity |]. split; [lia |].
      apply (f_equal (@List.length Q)) in Hone. rewrite !length_app in Hone. lia.
    + subst buffer. rewrite app_assoc, <- Hrest.
      split; [reflexivity |]. split; [lia |].
      rewrite length_app in Hlen. lia.
Qed.

(** X13. While capture is active no sample is lost, repeated or
    reordered: the chunks handed over, followed by what is left in the
    array, are the array at the start followed by the blocks; and a
    callback hands over at most one chunk. *)
Theorem capture_conserves_samples :
  forall (blocks : list (list Q)) (audioBuffer : list Q),
    let r := capture true audioBuffer blocks in
    flat_map chunk_samples (snd r) ++ fst r = audioBuffer ++ List.concat blocks
    /\ (List.length (snd r) <= List.length blocks)%nat.
Proof.
  intros blocks audioBuffer r.
  destruct (capture_ledger blocks audioBuffer) as (Hsame & Hcount & _).
  split; [exact Hsame | exact Hcount].
Qed.

(** X14. Once the flag is down a sampling callback hands over nothing and
    leaves the array alone, however many blocks still arrive. *)
Theorem stopped_capture_sends_nothing :
  forall (blocks : list (list Q)) (audioBuffer : list Q),
    capture false audioBuffer blocks = (audioBuffer, [])
    /\ (forall inputData,
          onaudioprocess false audioBuffer inputData = (audioBuffer, None)).
Proof.
  induction blocks as [| inputData later IH]; intros audioBuffer.
  - split; reflexivity.
  - split; [| reflexivity].
    cbn. destruct (IH audioBuffer) as [-> _]. reflexivity.
Qed.

Lemma capture_full_blocks (blocks : list (list Q)) :
  forall audioBuffer : list Q,
    Forall (fun b => 8000 <= Z.of_nat (List.length b)) blocks ->
    List.length (snd (capture true audioBuffer blocks)) = List.length blocks.
Proof.
  induction blocks as [| inputData later IH]; intros audioBuffer Hblocks;
    [reflexivity |].
  inversion Hblocks as [| b l Hb Hlater]; subst.
  cbn [capture]. unfold onaudioprocess at 1. cbn [negb].
  generalize chunkSize_value. generalize chunkSize. intros size Hsize.
  destruct (Nat.leb_spec size (List.length (audioBuffer ++ inputData)))
    as [_ | Hshort]; [| rewrite length_app in Hshort; lia].
  specialize (IH (skipn size (audioBuffer ++ inputData)) Hlater).
  destruct (capture true (skipn size (audioBuffer ++ inputData)) later)
    as [final chunks].
  cbn [snd List.length] in *. lia.
Qed.

(** X15. With blocks of 8192 samples, the size the script processor is
    created with, every callback hands over exactly one chunk of 8000 and
    the array grows by 192 samples per callback: the remainder is not
    bounded by the threshold. *)
Theorem backlog_grows_with_full_blocks :
  forall (blocks : list (list Q)) (audioBuffer : list Q),
    Forall (fun b => Z.of_nat (List.length b) = 8192) blocks ->
    let r := capture true audioBuffer blocks in
    List.length (snd r) = List.length blocks
    /\ Z.of_nat (List.length (fst r))
       = Z.of_nat (List.length audioBuffer)
         + 192 * Z.of_nat (List.length blocks).
Proof.
  intros blocks audioBuffer Hblocks r.
  assert (Hcount : List.length (snd r) = List.length blocks).
  { apply capture_full_blocks.
    eapply Forall_impl; [| exact Hblocks]. cbn. intros b Hb. lia. }
  split; [exact Hcount |].
  destruct (capture_ledger blocks audioBuffer) as (_ & _ & Hlen).
  fold r in Hlen. rewrite Hlen, Hcount.
  assert (Htotal : Z.of_nat (List.length (List.concat blocks))
                   = 8192 * Z.of_nat (List.length blocks)).
  { clear - Hblocks. induction Hblocks as [| b l Hb _ IH]; [reflexivity |].
    cbn [List.concat List.length]. rewrite length_app. lia. }
  lia.
Qed.

(** Three blocks of 8192 samples into an empty array. *)
Lemma backlog_grows_with_full_blocks_witness :
  let block := repeat (0 # 1)%Q (Z.to_nat 8192) in
  Z.of_nat (List.length (fst (capture true [] [block; block; block]))) = 576.
Proof.
  intros block.
  destruct (backlog_grows_with_full_blocks [block; block; block] []) as [_ Hlen].
  - repeat constructor; unfold block; rewrite repeat_length; reflexivity.
  - exact Hlen.
Defined.

(** ** Playback, further *)

Lemma deliver_pipeline (i : input) (w : World) :
  pipeline_invariant w -> pipeline_invariant (deliver i w).
Proof.
  intros (Hflag & Htimer & Hstrand).
  split; [apply deliver_invariant, Hflag |].
  destruct w as [s c ts nh au st].
  destruct s as [sock sid conn att mx dl subs ctx q buf tm pl].
  unfold flag_matches_audio, one_play_timer in *. cbn in Hflag, Htimer, Hstrand.
  destruct i as [data | h' | how]; cbn -[armed disarm String.eqb].
  - (* a fragment arrives: the old timer is cleared, a new one armed *)
    assert (Hcleared :
      match tm with
      | Some h => disarm h (disarm h ts)
      | None => ts
      end = []).
    { destruct Htimer as [-> | (h & due & -> & ->)].
      - destruct tm; reflexivity.
      - cbn. rewrite Nat.eqb_refl. reflexivity. }
    destruct tm as [h |]; cbn -[armed disarm] in *; rewrite Hcleared; cbn.
    + split; [right; eauto | intros _ _; discriminate].
    + split; [right; eauto | intros _ _; discriminate].
  - (* a timer fires *)
    destruct (armed h' ts) eqn:Harmed; cbn -[armed disarm].
    + assert (Hgone : disarm h' ts = []).
      { destruct Htimer as [-> | (h & due & -> & _)]; [reflexivity |].
        cbn in *. rewrite orb_false_r in Harmed. rewrite Harmed. reflexivity. }
      destruct Hflag as [[-> [unit ->]] | [-> ->]]; cbn -[armed disarm].
      * rewrite Hgone. split; [left; reflexivity | intros _; discriminate].
      * destruct buf as [| b bs]; cbn -[armed disarm]; rewrite Hgone.
        -- split; [left; reflexivity | congruence].
        -- split; [left; reflexivity | congruence].
    + split; assumption.
  - (* a playback comes to its end *)
    destruct au as [| unit others]; [split; assumption |].
    destruct Hflag as [[-> [unit' Hau]] | [_ Hau]]; [| discriminate].
    injection Hau as -> ->.
    destruct how as [| | name].
    + destruct buf as [| b bs]; cbn; (split; [exact Htimer | congruence]).
    + cbn. split; [exact Htimer | congruence].
    + cbn [completion_handler]. unfold callback_run, play_rejected, and_then.
      cbn [service].
      destruct (String.eqb name "NotAllowedError"), buf as [| b bs]; cbn;
        (split; [exact Htimer | congruence]).
Qed.

Lemma turns_pipeline (inputs : list input) :
  forall w, pipeline_invariant w -> pipeline_invariant (turns inputs w).
Proof.
  induction inputs as [| i later IH]; intros w Hw; [exact Hw |].
  apply IH, deliver_pipeline, Hw.
Qed.

Lemma boot_pipeline : pipeline_invariant boot.
Proof.
  split; [right; split; reflexivity |].
  split; [left; reflexivity | intros Hbuf; contradiction Hbuf; reflexivity].
Qed.

(** X16. After any sequence of arrivals, timer firings and completions at
    most one play timer is armed, and its handle is the one the service
    holds; each arrival leaves exactly one, freshly armed for 300 ms
    later. *)
Theorem one_play_timer_at_a_time :
  forall inputs : list input,
    let w := turns inputs boot in
    (List.length (timers w) <= 1)%nat
    /\ (forall h due, In (h, due) (timers w) ->
          mp3PlayTimeout (service w) = Some h)
    /\ (forall data,
          exists due,
            timers (deliver (FragmentArrived data) w) = [(nextHandle w, due)]
            /\ due = clock w + 300).
Proof.
  intros inputs w.
  destruct (turns_pipeline inputs boot boot_pipeline) as (_ & Htimer & _).
  fold w in Htimer. unfold one_play_timer in Htimer.
  split; [| split].
  - destruct Htimer as [-> | (h & due & -> & _)]; cbn; lia.
  - intros h due Hin.
    destruct Htimer as [Hnone | (h0 & due0 & Hone & Hheld)].
    + rewrite Hnone in Hin. destruct Hin.
    + rewrite Hone in Hin. destruct Hin as [[= <- <-] | []]. exact Hheld.
  - intros data. exists (clock w + 300). split; [| reflexivity].
    clearbody w. destruct w as [s c ts nh au st].
    destruct s as [sock sid conn att mx dl subs ctx q buf tm pl].
    cbn in Htimer. cbn -[disarm].
    destruct Htimer as [-> | (h & due & -> & ->)].
    + destruct tm; reflexivity.
    + cbn. rewrite Nat.eqb_refl. reflexivity.
Qed.

(** X17. Fragments never wait without a way out: if the buffer is not
    empty, either a playback is in progress (its end will take them up) or
    exactly one play timer is armed, and its firing starts a playback of
    the whole buffer. *)
Theorem buffered_fragments_are_never_stranded :
  forall inputs : list input,
    let w := turns inputs boot in
    mp3Buffer (service w) <> [] ->
    audio w <> []
    \/ (exists h due,
          timers w = [(h, due)]
          /\ audio (deliver (TimerFired h) w)
             = [List.concat (mp3Buffer (service w))]
          /\ mp3Buffer (service (deliver (TimerFired h) w)) = []).
Proof.
  intros inputs w Hbuf.
  destruct (turns_pipeline inputs boot boot_pipeline) as (Hflag & Htimer & Hstrand).
  fold w in Hflag, Htimer, Hstrand.
  destruct (audio w) as [| unit others] eqn:Hau; [right | left; discriminate].
  specialize (Hstrand Hbuf eq_refl).
  destruct Htimer as [Hnone | (h & due & Hone & _)]; [contradiction |].
  exists h, due. split; [exact Hone |].
  clearbody w. destruct w as [s c ts nh au st].
  destruct s as [sock sid conn att mx dl subs ctx q buf tm pl].
  unfold flag_matches_audio in Hflag. cbn in *. subst ts au.
  destruct Hflag as [[_ [u Hu]] | [-> _]]; [discriminate |].
  cbn. rewrite Nat.eqb_refl. cbn.
  destruct buf as [| b bs]; [congruence |]. cbn. split; reflexivity.
Qed.

(** A fragment that arrives after a playback has failed. *)
Lemma buffered_fragments_are_never_stranded_witness :
  let w := turns [FragmentArrived [Byte.x01]; TimerFired 1;
                  FragmentArrived [Byte.x02]; TimerFired 2;
                  PlaybackCompleted Errored; FragmentArrived [Byte.x03]] boot in
  audio w = []
  /\ exists h due,
       timers w = [(h, due)]
       /\ audio (deliver (TimerFired h) w)
          = [List.concat (mp3Buffer (service w))].
Proof.
  intros w. split; [reflexivity |].
  destruct (buffered_fragments_are_never_stranded
              [FragmentArrived [Byte.x01]; TimerFired 1;
               FragmentArrived [Byte.x02]; TimerFired 2;
               PlaybackCompleted Errored; FragmentArrived [Byte.x03]])
    as [Hplaying | (h & due & Htimers & Haudio & _)].
  - discriminate.
  - contradiction Hplaying. reflexivity.
  - exists h, due. split; [exact Htimers | exact Haudio].
Defined.

Lemma deliver_conserves (i : input) (w : World) :
  is_playback_error i = false ->
  played_bytes (deliver i w) ++ buffered_bytes (deliver i w)
  = (played_bytes w ++ buffered_bytes w) ++ List.concat (arrived [i]).
Proof.
  intros Hi.
  destruct w as [s c ts nh au st].
  destruct s as [sock sid conn att mx dl subs ctx q buf tm pl].
  unfold played_bytes, buffered_bytes.
  destruct i as [data | h | [| | name]]; try discriminate;
    cbn -[armed disarm String.eqb].
  - destruct tm; cbn; rewrite concat_app; cbn; rewrite !app_nil_r, app_assoc;
      reflexivity.
  - rewrite app_nil_r.
    destruct (armed h ts); [| reflexivity].
    destruct pl; [reflexivity |].
    destruct buf as [| b bs]; [reflexivity |].
    cbn. rewrite map_app, concat_app. cbn. rewrite !app_nil_r. reflexivity.
  - rewrite app_nil_r. destruct au as [| unit others]; [reflexivity |].
    destruct buf as [| b bs]; [reflexivity |].
    cbn. rewrite map_app, concat_app. cbn. rewrite !app_nil_r. reflexivity.
  - rewrite app_nil_r. destruct au as [| unit others]; [reflexivity |].
    cbn [completion_handler]. unfold callback_run, play_rejected, and_then.
    cbn [service].
    destruct (String.eqb name "NotAllowedError"), buf as [| b bs];
      try reflexivity;
      cbn; rewrite map_app, concat_app; cbn; rewrite !app_nil_r; reflexivity.
Qed.

Lemma arrived_app (i1 i2 : list input) :
  arrived (i1 ++ i2) = arrived i1 ++ arrived i2.
Proof.
  induction i1 as [| i rest IH]; [reflexivity |].
  destruct i; cbn; rewrite IH; reflexivity.
Qed.

(** X18. As long as no playback ends in an error, no byte is lost,
    repeated or reordered: the bytes handed to the audio elements so far,
    followed by the bytes still buffered, are the payloads of the fragments
    in arrival order. *)
Theorem playback_conserves_bytes :
  forall inputs : list input,
    forallb (fun i => negb (is_playback_error i)) inputs = true ->
    let w := turns inputs boot in
    played_bytes w ++ buffered_bytes w = List.concat (arrived inputs).
Proof.
  intros inputs Hclean.
  assert (Hgen : forall w,
            played_bytes (turns inputs w) ++ buffered_bytes (turns inputs w)
            = (played_bytes w ++ buffered_bytes w) ++ List.concat (arrived inputs)).
  { induction inputs as [| i later IH]; intros w.
    - cbn. rewrite app_nil_r. reflexivity.
    - cbn in Hclean. apply andb_true_iff in Hclean as [Hi Hlater].
      apply negb_true_iff in Hi.
      change (turns (i :: later) w) with (turns later (deliver i w)).
      rewrite (IH Hlater), (deliver_conserves i w Hi).
      change (i :: later) with ([i] ++ later).
      rewrite arrived_app, concat_app, app_assoc. reflexivity. }
  cbv zeta. rewrite Hgen. reflexivity.
Qed.

(** A playback the platform declines while a fragment waits. *)
Lemma playback_conserves_bytes_witness :
  let w := turns [FragmentArrived [Byte.x01]; TimerFired 1;
                  FragmentArrived [Byte.x02]; TimerFired 2;
                  FragmentArrived [Byte.x03];
                  PlaybackCompleted (Declined "NotAllowedError")] boot in
  played_bytes w ++ buffered_bytes w = [Byte.x01; Byte.x02; Byte.x03].
Proof.
  apply (playback_conserves_bytes
           [FragmentArrived [Byte.x01]; TimerFired 1;
            FragmentArrived [Byte.x02]; TimerFired 2;
            FragmentArrived [Byte.x03];
            PlaybackCompleted (Declined "NotAllowedError")]).
  reflexivity.
Defined.

(** X19. When the playback in progress ends in an error, the fragments
    buffered meanwhile are discarded without an event, the flag goes down
    and nothing plays; the pipeline is not stalled: the next fragment is
    played alone when its timer fires. *)
Theorem playback_error_drops_buffer_and_recovers :
  forall (inputs : list input) (data : bytes),
    let w := turns inputs boot in
    audio w <> [] ->
    let w1 := deliver (PlaybackCompleted Errored) w in
    let w2 := deliver (FragmentArrived data) w1 in
    let w3 := deliver (TimerFired (nextHandle w1)) w2 in
    audio w1 = [] /\ isPlaying (service w1) = false
    /\ mp3Buffer (service w1) = []
    /\ started w1 = started w
    /\ published (snd (audio_onerror (service w))) = []
    /\ audio w3 = [data]
    /\ started w3 = started w ++ [(clock w, data)].
Proof.
  intros inputs data w Hau.
  destruct (turns_pipeline inputs boot boot_pipeline) as (Hflag & Htimer & _).
  fold w in Hflag, Htimer. clearbody w.
  destruct w as [s c ts nh au st].
  destruct s as [sock sid conn att mx dl subs ctx q buf tm pl].
  unfold flag_matches_audio, one_play_timer in *. cbn in Hflag, Htimer, Hau.
  destruct Hflag as [[-> [unit ->]] | [_ ->]]; [| congruence].
  cbv zeta. cbn -[armed disarm].
  assert (Hcleared :
    match tm with
    | Some h => disarm h (disarm h ts)
    | None => ts
    end = []).
  { destruct Htimer as [-> | (h & due & -> & ->)].
    - destruct tm; reflexivity.
    - cbn. rewrite Nat.eqb_refl. reflexivity. }
  destruct tm as [h |]; cbn -[armed disarm]; rewrite Hcleared; cbn;
    rewrite Nat.eqb_refl; cbn; rewrite app_nil_r;
    repeat match goal with |- _ /\ _ => split end; reflexivity.
Qed.

(** A fragment buffered during a playback that then fails. *)
Lemma playback_error_drops_buffer_and_recovers_witness :
  let w := turns [FragmentArrived [Byte.x01]; TimerFired 1;
                  FragmentArrived [Byte.x02]] boot in
  mp3Buffer (service w) = [[Byte.x02]]
  /\ mp3Buffer (service (deliver (PlaybackCompleted Errored) w)) = []
  /\ started (deliver (PlaybackCompleted Errored) w) = [(0, [Byte.x01])].
Proof.
  intros w.
  destruct (playback_error_drops_buffer_and_recovers
              [FragmentArrived [Byte.x01]; TimerFired 1;
               FragmentArrived [Byte.x02]] [Byte.x03])
    as (_ & _ & Hbuf & Hstarted & _).
  - discriminate.
  - split; [reflexivity |]. split; [exact Hbuf | exact Hstarted].
Defined.

Lemma first_fragment_awaits (t0 : Z) (f0 : bytes) :
  0 <= t0 ->
  awaiting_flush (deliver (FragmentArrived f0) (advance t0 boot)) t0 [f0].
Proof.
  intros Ht0. unfold advance. cbn -[Z.max Z.add].
  rewrite Z.max_r by exact Ht0.
  unfold awaiting_flush. cbn -[Z.add].
  repeat match goal with |- _ /\ _ => split end;
    try reflexivity; try discriminate.
  eexists. split; reflexivity.
Qed.

Lemma next_fragment_awaits (w : World) (t t' : Z) (fs : list bytes) (f : bytes) :
  awaiting_flush w t fs ->
  t <= t' < t + 300 ->
  awaiting_flush (deliver (FragmentArrived f) (advance t' w)) t' (fs ++ [f]).
Proof.
  intros (Hflag & Hbuf & Hsome & (h & Htimers & Hheld) & Hclock & Hau & Hst) Ht'.
  unfold advance. cbv zeta.
  rewrite (fire_due_single t' w h (t + 300) Htimers).
  assert (Hnot : (t + 300 <=? t') = false) by (apply Z.leb_gt; lia).
  rewrite Hnot.
  destruct w as [s c ts nh au st].
  destruct s as [sock sid conn att mx dl subs ctx q buf tm pl].
  cbn in Hflag, Hbuf, Htimers, Hheld, Hclock, Hau, Hst. subst.
  cbn -[Z.max Z.add]. rewrite Nat.eqb_refl. cbn -[Z.max Z.add].
  rewrite Z.max_r by lia.
  unfold awaiting_flush. cbn -[Z.add].
  repeat match goal with |- _ /\ _ => split end; try reflexivity.
  - intros Hnil. apply app_eq_nil in Hnil. destruct Hnil. discriminate.
  - eexists. split; reflexivity.
Qed.

Lemma burst_awaits (rest : list (Z * bytes)) :
  forall (w : World) (t : Z) (fs : list bytes),
    awaiting_flush w t fs ->
    close_spaced t rest ->
    awaiting_flush (run (burst rest) w) (last_arrival t rest)
                   (fs ++ map snd rest).
Proof.
  induction rest as [| [t' f] later IH]; intros w t fs Hw Hspaced.
  - cbn. rewrite app_nil_r. exact Hw.
  - cbn in Hspaced. destruct Hspaced as [Ht' Hlater].
    change (run (burst ((t', f) :: later)) w)
      with (run (burst later) (deliver (FragmentArrived f) (advance t' w))).
    cbn [last_arrival map snd].
    replace (fs ++ f :: map snd later) with ((fs ++ [f]) ++ map snd later)
      by (rewrite <- app_assoc; reflexivity).
    apply IH; [| exact Hlater].
    apply (next_fragment_awaits w t t' fs f); assumption.
Qed.

Lemma flush_when_due (w : World) (t T : Z) (fs : list bytes) :
  awaiting_flush w t fs ->
  (T < t + 300 ->
     started (advance T w) = [] /\ audio (advance T w) = []
     /\ mp3Buffer (service (advance T w)) = fs)
  /\ (t + 300 <= T ->
        started (advance T w) = [(t + 300, List.concat fs)]
        /\ audio (advance T w) = [List.concat fs]
        /\ mp3Buffer (service (advance T w)) = []
        /\ isPlaying (service (advance T w)) = true
        /\ timers (advance T w) = []).
Proof.
  intros (Hflag & Hbuf & Hsome & (h & Htimers & Hheld) & Hclock & Hau & Hst).
  unfold advance. cbv zeta.
  rewrite (fire_due_single T w h (t + 300) Htimers).
  destruct w as [s c ts nh au st].
  destruct s as [sock sid conn att mx dl subs ctx q buf tm pl].
  cbn in Hflag, Hbuf, Htimers, Hheld, Hclock, Hau, Hst. subst.
  split.
  - intros Hearly. apply Z.leb_gt in Hearly. rewrite Hearly.
    cbn. repeat split.
  - intros Hdue. apply Z.leb_le in Hdue. rewrite Hdue.
    cbn -[Z.max Z.add]. rewrite Nat.eqb_refl. cbn -[Z.max Z.add].
    match goal with
    | H : ?l <> [] |- _ => destruct l as [| b bs]; [congruence |]
    end.
    cbn -[Z.max Z.add]. rewrite Z.max_r by lia.
    repeat match goal with |- _ /\ _ => split end; reflexivity.
Qed.

(** X20. A burst of any number of fragments, each less than 300 ms after
    the one before, on a fresh service: nothing plays until 300 ms after
    the last arrival, and then exactly one playback starts, of all the
    fragments concatenated in arrival order. *)
Theorem burst_is_played_once_after_quiet :
  forall (t0 : Z) (f0 : bytes) (rest : list (Z * bytes)) (t : Z),
    0 <= t0 ->
    close_spaced t0 rest ->
    let last := last_arrival t0 rest in
    let unit := List.concat (f0 :: map snd rest) in
    let w := advance t (run (burst ((t0, f0) :: rest)) boot) in
    (t < last + 300 ->
       started w = [] /\ audio w = []
       /\ mp3Buffer (service w) = f0 :: map snd rest)
    /\ (last + 300 <= t ->
          started w = [(last + 300, unit)]
          /\ audio w = [unit]
          /\ mp3Buffer (service w) = []
          /\ isPlaying (service w) = true
          /\ timers w = []).
Proof.
  intros t0 f0 rest t Ht0 Hspaced last unit w.
  assert (Hquiet : awaiting_flush (run (burst ((t0, f0) :: rest)) boot)
                     last (f0 :: map snd rest)).
  { change (run (burst ((t0, f0) :: rest)) boot)
      with (run (burst rest) (deliver (FragmentArrived f0) (advance t0 boot))).
    apply (burst_awaits rest _ t0 [f0]); [| exact Hspaced].
    apply first_fragment_awaits, Ht0. }
  exact (flush_when_due _ last t _ Hquiet).
Qed.

(** Four fragments within 800 ms. *)
Lemma burst_is_played_once_after_quiet_witness :
  started
    (advance 2000
       (run (burst [(10, [Byte.x49]); (250, [Byte.x44]); (549, [Byte.x33]);
                    (800, [Byte.x04])]) boot))
  = [(1100, [Byte.x49; Byte.x44; Byte.x33; Byte.x04])].
Proof.
  destruct (burst_is_played_once_after_quiet 10 [Byte.x49]
              [(250, [Byte.x44]); (549, [Byte.x33]); (800, [Byte.x04])] 2000)
    as (_ & Hdue).
  - discriminate.
  - cbn. repeat split; discriminate.
  - destruct Hdue as [Hstarted _]; [discriminate |]. exact Hstarted.
Defined.

(** ** Playback in the older service *)

Lemma legacy_deliver_invariant (decodable : bytes -> bool) (i : legacy_input)
    (w : World) :
  legacy_invariant w -> legacy_invariant (legacy_deliver decodable i w).
Proof.
  destruct w as [s c ts nh au st].
  destruct s as [sock sid conn att mx dl subs ctx q buf tm pl].
  unfold legacy_invariant. cbn.
  intros [[-> [unit ->]] | (-> & -> & ->)]; destruct i as [data |].
  - unfold legacy_deliver, callback_run, Legacy.handleAudioChunk. cbn.
    destruct (decodable data); cbn; left; split; eauto.
  - unfold legacy_deliver, callback_run. cbn.
    destruct q as [| b bs]; cbn; [right | left]; repeat split; eauto.
  - unfold legacy_deliver, callback_run, Legacy.handleAudioChunk. cbn.
    destruct (decodable data); cbn; [left | right]; repeat split; eauto.
  - right. repeat split.
Qed.

Lemma legacy_deliver_conserves (decodable : bytes -> bool) (i : legacy_input)
    (w : World) :
  map snd (started (legacy_deliver decodable i w))
    ++ audioQueue (service (legacy_deliver decodable i w))
  = (map snd (started w) ++ audioQueue (service w))
    ++ legacy_decoded decodable [i].
Proof.
  destruct w as [s c ts nh au st].
  destruct s as [sock sid conn att mx dl subs ctx q buf tm pl].
  destruct i as [data |].
  - unfold legacy_deliver, callback_run, Legacy.handleAudioChunk. cbn.
    destruct (decodable data); cbn; [| rewrite app_nil_r; reflexivity].
    destruct pl; cbn.
    + rewrite app_assoc. reflexivity.
    + destruct q as [| b bs]; cbn; rewrite map_app, <- !app_assoc; reflexivity.
  - unfold legacy_deliver, callback_run. cbn. rewrite app_nil_r.
    destruct au as [| unit others]; [reflexivity |].
    cbn. destruct q as [| b bs]; cbn; [reflexivity |].
    rewrite map_app, <- app_assoc. reflexivity.
Qed.

Lemma legacy_decoded_app (decodable : bytes -> bool) (i1 i2 : list legacy_input) :
  legacy_decoded decodable (i1 ++ i2)
  = legacy_decoded decodable i1 ++ legacy_decoded decodable i2.
Proof.
  induction i1 as [| i rest IH]; [reflexivity |].
  destruct i as [data |]; cbn; [destruct (decodable data); cbn |];
    rewrite IH; reflexivity.
Qed.

(** X21. In the older service, after any sequence of fragments and
    source ends: at most one source plays, the flag is up exactly then,
    nothing waits in the queue while nothing plays, and the fragments
    played so far followed by the queue are the decodable fragments in
    arrival order, each once. *)
Theorem legacy_queue_plays_in_order :
  forall (decodable : bytes -> bool) (inputs : list legacy_input),
    let w := legacy_turns decodable inputs boot in
    (List.length (audio w) <= 1)%nat
    /\ (isPlaying (service w) = true <-> audio w <> [])
    /\ (audio w = [] -> audioQueue (service w) = [])
    /\ map snd (started w) ++ audioQueue (service w)
       = legacy_decoded decodable inputs.
Proof.
  intros decodable inputs.
  assert (Hgen : forall w,
            (legacy_invariant w ->
             legacy_invariant (legacy_turns decodable inputs w))
            /\ map snd (started (legacy_turns decodable inputs w))
                 ++ audioQueue (service (legacy_turns decodable inputs w))
               = (map snd (started w) ++ audioQueue (service w))
                 ++ legacy_decoded decodable inputs).
  { induction inputs as [| i later IH]; intros w.
    - cbn. rewrite app_nil_r. split; [tauto | reflexivity].
    - change (legacy_turns decodable (i :: later) w)
        with (legacy_turns decodable later (legacy_deliver decodable i w)).
      destruct (IH (legacy_deliver decodable i w)) as [Hinv Hsame].
      split.
      + intros Hw. apply Hinv, legacy_deliver_invariant, Hw.
      + rewrite Hsame, legacy_deliver_conserves.
        change (i :: later) with ([i] ++ later).
        rewrite legacy_decoded_app, app_assoc. reflexivity. }
  destruct (Hgen boot) as [Hinv Hsame].
  intros w. fold w in Hinv, Hsame.
  assert (Hw : legacy_invariant w).
  { apply Hinv. right. repeat split. }
  split; [| split; [| split]].
  - destruct Hw as [[_ [unit ->]] | (_ & -> & _)]; cbn; lia.
  - destruct Hw as [[-> [unit ->]] | (-> & -> & _)];
      (split; [intros; congruence | intros; congruence]).
  - intros Hau. destruct Hw as [[_ [unit Hu]] | (_ & _ & Hq)];
      [congruence | exact Hq].
  - exact Hsame.
Qed.

(** ** Event bus, further *)

Lemma joined_count (f : callback) (calls : list bus_call) :
  forall acc : nat * option nat,
    fst (fold_left (joined_step f) calls acc)
    = (fst acc + List.length calls)%nat.
Proof.
  induction calls as [| c calls IH]; intros acc; cbn [fold_left List.length].
  - lia.
  - rewrite IH. cbn [joined_step fst]. lia.
Qed.

Lemma joined_snoc (f : callback) (calls : list bus_call) (c : bus_call) :
  joined f (calls ++ [c])
  = snd (joined_step f (List.length calls, joined f calls) c).
Proof.
  unfold joined. rewrite fold_left_app. cbn [fold_left].
  pose proof (joined_count f calls (0%nat, None)) as Hcount.
  cbn [fst] in Hcount.
  destruct (fold_left (joined_step f) calls (0%nat, None)) as [n cur].
  cbn [fst snd] in *. subst n. reflexivity.
Qed.

Lemma ForallOrdPairs_impl_In {A : Type} (R R' : A -> A -> Prop) (l : list A) :
  (forall x y, In x l -> In y l -> R x y -> R' x y) ->
  ForallOrdPairs R l -> ForallOrdPairs R' l.
Proof.
  intros Himpl Hl. induction Hl as [| a l Ha Hl IH]; constructor.
  - apply Forall_forall. intros y Hy.
    apply Himpl; [left; reflexivity | right; exact Hy |].
    now apply (proj1 (Forall_forall _ _) Ha).
  - apply IH. intros x y Hx Hy. apply Himpl; right; assumption.
Qed.

Lemma ForallOrdPairs_snoc {A : Type} (R : A -> A -> Prop) (l : list A) (z : A) :
  ForallOrdPairs R l -> Forall (fun x => R x z) l ->
  ForallOrdPairs R (l ++ [z]).
Proof.
  intros Hl. induction Hl as [| a l Ha Hl IH]; intros Hz; cbn.
  - constructor; constructor.
  - inversion Hz as [| ? ? Haz Hlz]; subst.
    constructor; [| apply IH, Hlz].
    apply Forall_app. split; [exact Ha | constructor; [exact Haz | constructor]].
Qed.

Lemma ForallOrdPairs_filter {A : Type} (R : A -> A -> Prop) (p : A -> bool)
    (l : list A) :
  ForallOrdPairs R l -> ForallOrdPairs R (filter p l).
Proof.
  intros Hl. induction Hl as [| a l Ha Hl IH]; cbn; [constructor |].
  destruct (p a); [| exact IH].
  constructor; [| exact IH].
  apply Forall_forall. intros y Hy. apply filter_In in Hy as [Hy _].
  now apply (proj1 (Forall_forall _ _) Ha).
Qed.

Lemma bus_calls_snoc (calls : list bus_call) (c : bus_call)
    (s : WebSocketService) :
  bus_calls (calls ++ [c]) s = bus_step (bus_calls calls s) c.
Proof. unfold bus_calls. now rewrite fold_left_app. Qed.

Lemma bus_calls_order (calls : list bus_call) :
  let set := subscribers (bus_calls calls constructor) in
  (forall f, In f set <-> joined f calls <> None)
  /\ (forall f i, joined f calls = Some i -> (i < List.length calls)%nat)
  /\ ForallOrdPairs (earlier calls) set.
Proof.
  induction calls as [| c calls IH] using rev_ind.
  - cbn. split; [| split].
    + intros f. split; [intros [] | intros H; now apply H].
    + intros f i H. discriminate.
    + constructor.
  - cbv zeta in IH |- *. destruct IH as (Hin & Hlt & Hord).
    rewrite bus_calls_snoc.
    set (s := bus_calls calls constructor) in *.
    assert (Hsame :
              (forall f, joined f (calls ++ [c]) = joined f calls) ->
              subscribers (bus_step s c) = subscribers s ->
              (forall f, In f (subscribers (bus_step s c))
                         <-> joined f (calls ++ [c]) <> None)
              /\ (forall f i, joined f (calls ++ [c]) = Some i ->
                              (i < List.length (calls ++ [c]))%nat)
              /\ ForallOrdPairs (earlier (calls ++ [c]))
                                (subscribers (bus_step s c))).
    { intros Hj Hs. rewrite Hs. split; [| split].
      - intros f. rewrite Hj. apply Hin.
      - intros f i. rewrite Hj, length_app. intros H.
        specialize (Hlt f i H). cbn. lia.
      - apply (ForallOrdPairs_impl_In (earlier calls)); [| exact Hord].
        intros x y _ _. unfold earlier. now rewrite !Hj. }
    destruct c as [[h |] | [h |]].
    + (* subscribe(h) *)
      assert (Hj : forall f, joined f (calls ++ [Subscribe (Function h)])
                = if Nat.eqb f h
                  then match joined f calls with
                       | Some i => Some i
                       | None => Some (List.length calls)
                       end
                  else joined f calls).
      { intros f. rewrite joined_snoc. reflexivity. }
      destruct (Set_has h (subscribers s)) eqn:Hhas.
      * apply Hsame.
        -- intros f. rewrite Hj.
           destruct (Nat.eqb_spec f h) as [-> | _]; [| reflexivity].
           apply Set_has_In, Hin in Hhas.
           destruct (joined h calls); [reflexivity | contradiction].
        -- cbn [bus_step subscribe]. unfold Set_add. rewrite Hhas.
           destruct s; reflexivity.
      * assert (Hout : ~ In h (subscribers s)).
        { intros H. apply Set_has_In in H. congruence. }
        assert (Hnone : joined h calls = None).
        { destruct (joined h calls) eqn:E; [| reflexivity].
          exfalso. apply Hout, Hin. congruence. }
        assert (Hset : subscribers (bus_step s (Subscribe (Function h)))
                       = subscribers s ++ [h]).
        { cbn [bus_step subscribe]. unfold Set_add. rewrite Hhas.
          destruct s; reflexivity. }
        rewrite Hset. split; [| split].
        -- intros f. rewrite Hj, in_app_iff.
           destruct (Nat.eqb_spec f h) as [-> | Hne].
           ++ rewrite Hnone.
              split; [discriminate | intros _; right; left; reflexivity].
           ++ rewrite <- Hin.
              split; [intros [H | [H | []]]; [exact H | congruence] | tauto].
        -- intros f i. rewrite Hj, length_app. cbn [List.length].
           destruct (Nat.eqb_spec f h) as [-> | Hne].
           ++ rewrite Hnone. intros [= <-]. lia.
           ++ intros H. specialize (Hlt f i H). lia.
        -- apply ForallOrdPairs_snoc.
           ++ apply (ForallOrdPairs_impl_In (earlier calls)); [| exact Hord].
              intros x y Hx Hy. unfold earlier. rewrite !Hj.
              destruct (Nat.eqb_spec x h) as [-> | _]; [contradiction |].
              destruct (Nat.eqb_spec y h) as [-> | _]; [contradiction |].
              tauto.
           ++ apply Forall_forall. intros x Hx. unfold earlier. rewrite !Hj.
              rewrite Nat.eqb_refl, Hnone.
              destruct (Nat.eqb_spec x h) as [-> | _]; [contradiction |].
              apply Hin in Hx.
              destruct (joined x calls) as [i |] eqn:E; [| contradiction].
              apply (Hlt x i E).
    + (* subscribe(something that is not a function) *)
      apply Hsame.
      * intros f. rewrite joined_snoc. reflexivity.
      * reflexivity.
    + (* unsubscribe(h) *)
      assert (Hj : forall f, joined f (calls ++ [Unsubscribe (Function h)])
                = if Nat.eqb f h then None else joined f calls).
      { intros f. rewrite joined_snoc. reflexivity. }
      assert (Hset : subscribers (bus_step s (Unsubscribe (Function h)))
                     = Set_delete h (subscribers s)).
      { cbn [bus_step unsubscribe]. destruct s; reflexivity. }
      rewrite Hset. split; [| split].
      * intros f. rewrite Hj, Set_delete_In.
        destruct (Nat.eqb_spec f h) as [-> | Hne].
        -- split; [intros [H _]; now contradiction H
                  | intros H; now contradiction H].
        -- rewrite <- Hin.
           split; [intros [_ H]; exact H | intros H; split; assumption].
      * intros f i. rewrite Hj, length_app. cbn [List.length].
        destruct (Nat.eqb f h); [discriminate |].
        intros H. specialize (Hlt f i H). lia.
      * apply (ForallOrdPairs_impl_In (earlier calls));
          [| unfold Set_delete; apply ForallOrdPairs_filter, Hord].
        intros x y Hx Hy. apply Set_delete_In in Hx as [Hx _].
        apply Set_delete_In in Hy as [Hy _].
        unfold earlier. rewrite !Hj.
        destruct (Nat.eqb_spec x h) as [-> | _]; [contradiction |].
        destruct (Nat.eqb_spec y h) as [-> | _]; [contradiction |].
        tauto.
    + apply Hsame.
      * intros f. rewrite joined_snoc. reflexivity.
      * reflexivity.
Qed.

(** X22. After any calls on the bus, a publication calls exactly the
    callbacks whose last [subscribe] no [unsubscribe] has followed, each
    once and with the event itself, in the order in which their current
    subscriptions began: the first [subscribe] made since the callback was
    last absent. Subscribing again while subscribed does not move a
    callback; unsubscribing and subscribing again moves it to the end. A
    callback that is not subscribed is not called. *)
Theorem publication_reaches_each_subscriber_once :
  forall (calls : list bus_call) (event : object) (g : callback),
    let s := bus_calls calls constructor in
    let called := map fst (notifySubscribers event s) in
    NoDup called
    /\ (forall f, In f called <-> joined f calls <> None)
    /\ ForallOrdPairs (earlier calls) called
    /\ Forall (fun c => snd c = event) (notifySubscribers event s)
    /\ (joined g calls <> None ->
        calls_to g (notifySubscribers event s) = 1%nat)
    /\ (joined g calls = None ->
        calls_to g (notifySubscribers event s) = 0%nat)
    /\ map fst (notifySubscribers event
                  (bus_calls (calls ++ [Subscribe (Function g)]) constructor))
       = (if Set_has g called then called else called ++ [g])
    /\ map fst (notifySubscribers event
                  (bus_calls (calls ++ [Unsubscribe (Function g);
                                        Subscribe (Function g)]) constructor))
       = Set_delete g called ++ [g].
Proof.
  intros calls event g s called.
  assert (Hcalled : forall s0, map fst (notifySubscribers event s0)
                               = subscribers s0).
  { intros s0. unfold notifySubscribers. rewrite map_map. apply map_id. }
  assert (Hnodup : NoDup (subscribers s)).
  { apply bus_calls_NoDup. constructor. }
  destruct (bus_calls_order calls) as (Hin & _ & Hord).
  fold s in Hin, Hord.
  unfold called. rewrite !Hcalled.
  split; [exact Hnodup |]. split; [exact Hin |]. split; [exact Hord |].
  split.
  { unfold notifySubscribers. apply Forall_map, Forall_forall.
    intros f _. reflexivity. }
  rewrite calls_to_subscribers. split; [| split; [| split]].
  - intros Hg. apply Hin in Hg. rewrite filter_once by assumption. reflexivity.
  - intros Hg. rewrite filter_absent; [reflexivity |].
    intros H. apply Hin in H. contradiction.
  - rewrite bus_calls_snoc. fold s. cbn [bus_step subscribe]. unfold Set_add.
    destruct (Set_has g (subscribers s)); destruct s; reflexivity.
  - change (calls ++ [Unsubscribe (Function g); Subscribe (Function g)])
      with (calls ++ [Unsubscribe (Function g)] ++ [Subscribe (Function g)]).
    rewrite app_assoc, !bus_calls_snoc. fold s.
    cbn [bus_step subscribe unsubscribe].
    assert (Hgone : Set_has g (Set_delete g (subscribers s)) = false).
    { destruct (Set_has g (Set_delete g (subscribers s))) eqn:E;
        [| reflexivity].
      apply Set_has_In, Set_delete_In in E. destruct E as [E _].
      now contradiction E. }
    assert (Hset : subscribers (set_subscribers
                                  (Set_add g (subscribers
                                     (set_subscribers
                                        (Set_delete g (subscribers s)) s)))
                                  (set_subscribers
                                     (Set_delete g (subscribers s)) s))
                   = Set_add g (Set_delete g (subscribers s)))
      by (destruct s; reflexivity).
    rewrite Hset. unfold Set_add. rewrite Hgone. reflexivity.
Qed.

Lemma Set_delete_absent (f : callback) (set : list callback) :
  ~ In f set -> Set_delete f set = set.
Proof.
  induction set as [| g set IH]; intros Hout; [reflexivity |].
  cbn. destruct (Nat.eqb_spec f g) as [-> | _].
  - exfalso. apply Hout. left. reflexivity.
  - cbn. f_equal. apply IH. intros Hin. apply Hout. right. exact Hin.
Qed.

Lemma Set_delete_app (f : callback) (a b : list callback) :
  Set_delete f (a ++ b) = Set_delete f a ++ Set_delete f b.
Proof. apply filter_app. Qed.

(** X23. Subscribing a callback that was absent appends it, and
    unsubscribing it again gives back the set as it was; unsubscribing an
    absent callback, subscribing a present one and subscribing something
    that is not a function change nothing. *)
Theorem subscribe_unsubscribe_round_trip :
  forall (f : callback) (s : WebSocketService),
    (~ In f (subscribers s) ->
       subscribers (unsubscribe (Function f) (subscribe (Function f) s))
       = subscribers s
       /\ subscribers (subscribe (Function f) s) = subscribers s ++ [f]
       /\ subscribers (unsubscribe (Function f) s) = subscribers s)
    /\ (In f (subscribers s) -> subscribe (Function f) s = s)
    /\ subscribe NotAFunction s = s
    /\ subscribers (subscribe (Function f) (subscribe (Function f) s))
       = subscribers (subscribe (Function f) s).
Proof.
  intros f s. destruct s as [w sid conn att mx dl subs ctx q buf tm pl].
  cbn -[Set_add Set_delete Set_has]. split; [| split; [| split]].
  - intros Hout.
    assert (Hhas : Set_has f subs = false).
    { destruct (Set_has f subs) eqn:Hhas; [| reflexivity].
      apply Set_has_In in Hhas. contradiction. }
    unfold Set_add. rewrite Hhas. split; [| split].
    + rewrite Set_delete_app, (Set_delete_absent f subs Hout).
      cbn. rewrite Nat.eqb_refl. cbn. apply app_nil_r.
    + reflexivity.
    + apply Set_delete_absent, Hout.
  - intros Hin. apply Set_has_In in Hin. unfold Set_add. rewrite Hin.
    reflexivity.
  - reflexivity.
  - unfold Set_add at 1.
    assert (Hin : Set_has f (Set_add f subs) = true).
    { apply Set_has_In, Set_add_In. left. reflexivity. }
    rewrite Hin. reflexivity.
Qed.

(** Callback 7 added to and removed from the set of 4 and 9. *)
Lemma subscribe_unsubscribe_round_trip_witness :
  let s := bus_calls [Subscribe (Function 4%nat); Subscribe (Function 9%nat)]
             constructor in
  subscribers (unsubscribe (Function 7%nat) (subscribe (Function 7%nat) s))
  = [4%nat; 9%nat].
Proof.
  intros s.
  destruct (subscribe_unsubscribe_round_trip 7%nat s) as [Hround _].
  destruct Hround as [Hback _].
  - cbn. intuition discriminate.
  - exact Hback.
Defined.

(** ** Frames and the connection flag *)

Lemma published_app (e1 e2 : list effect) :
  published (e1 ++ e2) = published e1 ++ published e2.
Proof.
  induction e1 as [| e rest IH]; [reflexivity |].
  destruct e; cbn; rewrite ?IH; reflexivity.
Qed.

Lemma audio_chunk_payloads_app (e1 e2 : list object) :
  audio_chunk_payloads (e1 ++ e2)
  = audio_chunk_payloads e1 ++ audio_chunk_payloads e2.
Proof.
  induction e1 as [| e rest IH]; [reflexivity |].
  cbn [app audio_chunk_payloads]. rewrite IH.
  destruct (own_prop "type" e) as [| | | | t | | | |]; try reflexivity.
  destruct (own_prop "data" e); try reflexivity;
    repeat match goal with
           | |- context [match ?x with _ => _ end] => destruct x; try reflexivity
           end.
Qed.

Lemma processMessage_not_audio (now : string) (message : jsval)
    (effs : list effect) :
  processMessage now message = Some effs ->
  audio_chunk_payloads (published effs) = []
  /\ effs = map Notify (published effs).
Proof.
  unfold processMessage.
  destruct message; try discriminate;
    destruct (prop _ "type") as [| | | | t | | | |];
    repeat match goal with
           | |- context [if ?c then _ else _] => destruct c
           end;
    intros [= <-]; split; reflexivity.
Qed.

Lemma handleAudioChunk_frame (handle : nat) (data : bytes)
    (s : WebSocketService) :
  let r := handleAudioChunk handle data s in
  mp3Buffer (fst r) = mp3Buffer s ++ [data]
  /\ audio_chunk_payloads (published (snd r)) = [data]
  /\ sessionId (fst r) = sessionId s
  /\ isConnected (fst r) = isConnected s
  /\ reconnectAttempts (fst r) = reconnectAttempts s
  /\ subscribers (fst r) = subscribers s.
Proof.
  destruct s as [w sid conn att mx dl subs ctx q buf tm pl].
  destruct tm; cbn; repeat match goal with |- _ /\ _ => split end;
    reflexivity.
Qed.

Lemma handleMessage_frame (JSON_parse : string -> option jsval) (now : string)
    (handle : nat) (event : frame) (s : WebSocketService) :
  let r := handleMessage JSON_parse now handle event s in
  mp3Buffer (fst r) = mp3Buffer s ++ audio_chunk_payloads (published (snd r))
  /\ audio_chunk_payloads (published (snd r))
     = match event with Binary data => [data] | _ => [] end
  /\ sessionId (fst r) = sessionId s
  /\ isConnected (fst r) = isConnected s
  /\ reconnectAttempts (fst r) = reconnectAttempts s
  /\ subscribers (fst r) = subscribers s.
Proof.
  destruct event as [data | data | data].
  - cbv zeta. cbn [handleMessage].
    destruct (handleAudioChunk_frame handle data s)
      as (Hbuf & Hev & Hsid & Hconn & Hatt & Hsubs).
    rewrite Hev.
    repeat match goal with |- _ /\ _ => split end;
      first [assumption | reflexivity].
  - cbv zeta. unfold handleMessage.
    destruct (JSON_parse data) as [message |]; cbn [fst snd];
      [| rewrite app_nil_r;
         repeat match goal with |- _ /\ _ => split end; reflexivity].
    destruct (processMessage now message) as [effs |] eqn:Hprocess;
      cbn [fst snd];
      [| rewrite app_nil_r;
         repeat match goal with |- _ /\ _ => split end; reflexivity].
    destruct (processMessage_not_audio now message effs Hprocess) as [Hnone _].
    rewrite Hnone, app_nil_r.
    repeat match goal with |- _ /\ _ => split end; reflexivity.
  - cbn. rewrite app_nil_r.
    repeat match goal with |- _ /\ _ => split end; reflexivity.
Qed.

Lemma firstn_skipn_head {A : Type} (x : A) (l : list A) :
  firstn 0 (x :: l) ++ skipn 1 (x :: l) = l.
Proof. reflexivity. Qed.

(** What one input does to the buffer, to the reads going on and to the
    fields around them. *)
Lemma inbound_step_frame (JSON_parse : string -> option jsval) (now : string)
    (i : inbound) (b : Inbox) :
  let r := inbound_step JSON_parse now i b in
  mp3Buffer (receiver (fst r))
  = mp3Buffer (receiver b) ++ audio_chunk_payloads (published (snd r))
  /\ sessionId (receiver (fst r)) = sessionId (receiver b)
  /\ isConnected (receiver (fst r)) = isConnected (receiver b)
  /\ reconnectAttempts (receiver (fst r)) = reconnectAttempts (receiver b)
  /\ subscribers (receiver (fst r)) = subscribers (receiver b)
  /\ (in_order i = true ->
      mp3Buffer (receiver (fst r)) ++ unread (fst r)
      = (mp3Buffer (receiver b) ++ unread b) ++ blob_payloads [i]).
Proof.
  destruct b as [s reads handle].
  destruct i as [event | k | k error]; cbv zeta; cbn [inbound_step receiver
    unread next_handle].
  - destruct (handleMessage_frame JSON_parse now handle event s)
      as (Hbuf & Hev & Hsid & Hconn & Hatt & Hsubs).
    cbn [fst snd receiver unread].
    repeat match goal with |- _ /\ _ => split end; try assumption.
    intros Horder. rewrite Hbuf, Hev.
    destruct event as [data | data | data]; [discriminate | |];
      cbn [blob_payloads]; rewrite ?app_nil_r, ?app_assoc; reflexivity.
  - destruct (nth_error reads k) as [data |] eqn:Hk.
    + destruct (handleAudioChunk_frame handle data s)
        as (Hbuf & Hev & Hsid & Hconn & Hatt & Hsubs).
      cbn [fst snd receiver unread].
      repeat match goal with |- _ /\ _ => split end; try assumption.
      * rewrite Hbuf, Hev. reflexivity.
      * intros Horder. cbn [in_order] in Horder.
        apply Nat.eqb_eq in Horder. subst k.
        destruct reads as [| first rest]; [discriminate |].
        cbn in Hk. injection Hk as ->.
        rewrite Hbuf, firstn_skipn_head. cbn [blob_payloads].
        rewrite app_nil_r, <- app_assoc. reflexivity.
    + cbn [fst snd receiver unread published audio_chunk_payloads].
      rewrite app_nil_r.
      repeat match goal with |- _ /\ _ => split end; try reflexivity.
      intros _. cbn [blob_payloads]. now rewrite app_nil_r.
  - destruct (nth_error reads k) as [data |] eqn:Hk.
    + cbn. rewrite app_nil_r.
      repeat match goal with |- _ /\ _ => split end; try reflexivity.
      discriminate.
    + cbn. rewrite app_nil_r.
      repeat match goal with |- _ /\ _ => split end; try reflexivity.
      discriminate.
Qed.

Lemma blob_payloads_app (a b : list inbound) :
  blob_payloads (a ++ b) = blob_payloads a ++ blob_payloads b.
Proof.
  induction a as [| [[d | d | d] | k | k e] a IH]; cbn; rewrite ?IH;
    reflexivity.
Qed.

(** X24. A binary frame that arrives as a blob changes nothing and
    publishes nothing in the call of [handleMessage]: its payload is
    buffered, and its [audio_chunk] event published, when the read of the
    blob is fulfilled. Over any inbound traffic the buffer gains exactly the
    payloads of the [audio_chunk] events published, in the same order, and
    the session identifier, the connection flag, the attempt counter and
    the subscribers are not touched. When every binary frame is a blob and
    the reads are fulfilled in the order they were started, the buffer
    followed by the payloads still being read is what it was followed by
    the payloads in arrival order; when the read of a later frame is
    fulfilled first the two payloads are buffered in that order. *)
Theorem fragments_are_buffered_in_read_order :
  forall (JSON_parse : string -> option jsval) (now : string)
         (inputs : list inbound) (b : Inbox),
    let r := inbound_run JSON_parse now inputs b in
    mp3Buffer (receiver (fst r))
    = mp3Buffer (receiver b) ++ audio_chunk_payloads (published (snd r))
    /\ sessionId (receiver (fst r)) = sessionId (receiver b)
    /\ isConnected (receiver (fst r)) = isConnected (receiver b)
    /\ reconnectAttempts (receiver (fst r)) = reconnectAttempts (receiver b)
    /\ subscribers (receiver (fst r)) = subscribers (receiver b)
    /\ (forallb in_order inputs = true ->
        mp3Buffer (receiver (fst r)) ++ unread (fst r)
        = (mp3Buffer (receiver b) ++ unread b) ++ blob_payloads inputs)
    /\ (forall (handle : nat) (data : bytes) (s : WebSocketService),
          handleMessage JSON_parse now handle (BinaryBlob data) s = (s, []))
    /\ (forall first second : bytes,
          unread b = [] ->
          mp3Buffer
            (receiver
               (fst (inbound_run JSON_parse now
                       [FrameArrived (BinaryBlob first);
                        FrameArrived (BinaryBlob second);
                        ReadFulfilled 1; ReadFulfilled 0] b)))
          = mp3Buffer (receiver b) ++ [second; first]).
Proof.
  intros JSON_parse now inputs.
  induction inputs as [| i later IH]; intros b.
  - cbn. rewrite !app_nil_r.
    repeat match goal with |- _ /\ _ => split end; try reflexivity.
    intros first second Hnone.
    destruct b as [s reads handle]. cbn in Hnone. subst reads.
    destruct s as [w sid conn att mx dl subs ctx q buf tm pl].
    cbn. rewrite <- app_assoc. reflexivity.
  - cbv zeta. cbn [inbound_run fst snd].
    pose proof (inbound_step_frame JSON_parse now i b) as Hone.
    cbv zeta in Hone.
    destruct Hone as (Hbuf & Hsid & Hconn & Hatt & Hsubs & Horder).
    specialize (IH (fst (inbound_step JSON_parse now i b))).
    cbv zeta in IH.
    destruct IH as (Hbuf' & Hsid' & Hconn' & Hatt' & Hsubs' & Horder'
                    & Hblob & _).
    split; [| split; [| split; [| split; [| split; [| split; [| split]]]]]].
    + rewrite Hbuf', Hbuf, published_app, audio_chunk_payloads_app, app_assoc.
      reflexivity.
    + now rewrite Hsid'.
    + now rewrite Hconn'.
    + now rewrite Hatt'.
    + now rewrite Hsubs'.
    + intros Hall. cbn [forallb] in Hall.
      apply andb_true_iff in Hall as [Hi Hlater].
      rewrite (Horder' Hlater), (Horder Hi).
      change (i :: later) with ([i] ++ later).
      rewrite blob_payloads_app, app_assoc. reflexivity.
    + exact Hblob.
    + intros first second Hnone.
      destruct b as [s reads handle]. cbn in Hnone. subst reads.
      destruct s as [w sid conn att mx dl subs ctx q buf tm pl].
      cbn. rewrite <- app_assoc. reflexivity.
Qed.

(** Two blobs read in the order they came, around a text frame. *)
Lemma fragments_are_buffered_in_read_order_witness :
  let r := inbound_run example_parse "12:00"
             [FrameArrived (BinaryBlob [Byte.x01]); FrameArrived (Text "{}");
              FrameArrived (BinaryBlob [Byte.x02]); ReadFulfilled 0;
              ReadFulfilled 0]
             {| receiver := constructor; unread := []; next_handle := 1 |} in
  mp3Buffer (receiver (fst r)) ++ unread (fst r)
  = [[Byte.x01]; [Byte.x02]].
Proof.
  destruct (fragments_are_buffered_in_read_order example_parse "12:00"
              [FrameArrived (BinaryBlob [Byte.x01]); FrameArrived (Text "{}");
               FrameArrived (BinaryBlob [Byte.x02]); ReadFulfilled 0;
               ReadFulfilled 0]
              {| receiver := constructor; unread := []; next_handle := 1 |})
    as (_ & _ & _ & _ & _ & Horder & _).
  apply Horder. reflexivity.
Defined.

(** The handlers of the socket held are the handlers themselves, run once
    the platform has moved that socket. *)
Lemma ws_onopen_held (s : WebSocketService) :
  ws_onopen s = orphan_onopen (set_ws (Some OPEN) s).
Proof. destruct s; reflexivity. Qed.

Lemma ws_onclose_held (code : Z) (reason : string) (s : WebSocketService) :
  ws_onclose code reason s
  = orphan_onclose code reason
      (set_ws (match ws s with Some _ => Some CLOSED | None => None end) s).
Proof. destruct s; reflexivity. Qed.

Lemma socket_step_flag (ev : socket_event) (s : WebSocketService) :
  isConnected (fst (socket_step ev s))
  = if raises_flag ev then true
    else if lowers_flag ev then false
    else isConnected s.
Proof.
  destruct s as [w sid conn att mx dl subs ctx q buf tm pl].
  destruct ev as [fresh arg | | error | code reason | fresh | | | code reason];
    cbn.
  - reflexivity.
  - reflexivity.
  - reflexivity.
  - unfold ws_onclose, and_then, attemptReconnect. cbn.
    destruct (negb (code =? 1000) && (att <? mx)); reflexivity.
  - reflexivity.
  - destruct w, tm, ctx; reflexivity.
  - unfold orphan_onopen. cbn. destruct w as [[| | |] |]; reflexivity.
  - unfold orphan_onclose, and_then, attemptReconnect. cbn.
    destruct (negb (code =? 1000) && (att <? mx)); reflexivity.
Qed.

Lemma socket_step_held (ev : socket_event) (s : WebSocketService) :
  is_orphan_event ev = false ->
  (isConnected s = true -> ws s <> None) ->
  isConnected (fst (socket_step ev s)) = true ->
  ws (fst (socket_step ev s)) <> None.
Proof.
  destruct s as [w sid conn att mx dl subs ctx q buf tm pl]. cbn.
  intros Hev Hs.
  destruct ev as [fresh arg | | error | code reason | fresh | | | code reason];
    try discriminate; cbn; try exact Hs.
  - unfold ws_onclose, and_then, attemptReconnect. cbn.
    destruct (negb (code =? 1000) && (att <? mx)); cbn; discriminate.
  - destruct w, tm, ctx; cbn; discriminate.
Qed.

Lemma socket_trace_app (a b : list socket_event) (s : WebSocketService) :
  fst (socket_trace (a ++ b) s) = fst (socket_trace b (fst (socket_trace a s))).
Proof.
  revert s. induction a as [| ev a IH]; intros s; [reflexivity |].
  cbn [app socket_trace]. rewrite !and_then_fst_snd. cbn [fst]. apply IH.
Qed.

Lemma socket_trace_flag (evs : list socket_event) :
  forall s : WebSocketService,
    isConnected (fst (socket_trace evs s)) = true
    <-> (isConnected s = true
         /\ forallb (fun ev => negb (lowers_flag ev)) evs = true)
        \/ (exists before ev after,
              evs = before ++ ev :: after
              /\ raises_flag ev = true
              /\ forallb (fun e => negb (lowers_flag e)) after = true).
Proof.
  induction evs as [| ev later IH]; intros s.
  - cbn. split.
    + intros H. left. split; [exact H | reflexivity].
    + intros [[H _] | (before & ev & after & Heq & _)]; [exact H |].
      destruct before; discriminate.
  - cbn [socket_trace]. rewrite and_then_fst_snd. cbn [fst].
    rewrite IH, socket_step_flag. cbn [forallb]. split.
    + intros [[Hflag Hlater] | (before & e & after & -> & He & Hafter)].
      * destruct (raises_flag ev) eqn:Hup.
        -- right. exists [], ev, later. repeat split; assumption.
        -- destruct (lowers_flag ev) eqn:Hdown; [discriminate |].
           left. split; [exact Hflag | exact Hlater].
      * right. exists (ev :: before), e, after. repeat split; assumption.
    + intros [[Hflag Hall] | (before & e & after & Heq & He & Hafter)].
      * apply andb_true_iff in Hall as [Hev Hlater].
        apply negb_true_iff in Hev. rewrite Hev.
        left. split; [| exact Hlater].
        destruct (raises_flag ev); [reflexivity | exact Hflag].
      * destruct before as [| e0 before]; cbn in Heq; injection Heq as -> ->.
        -- left. rewrite He. split; [reflexivity | exact Hafter].
        -- right. exists before, e, after. repeat split; assumption.
Qed.

(** X25. Over any history of connection events from a fresh service,
    events of sockets no longer held included, [getConnectionStatus()] is
    true exactly when some socket has opened and no close and no
    [disconnect()] has come after the last open. While every event comes
    from the socket held, a connected service holds a socket. The flag alone
    does not say so: after any history, two calls of [connect()], a
    [disconnect()] and the open of the first of the two sockets leave the
    service reporting itself connected with no socket, the handshake unsent
    and nothing published. *)
Theorem connected_only_after_an_open :
  forall (evs : list socket_event),
    let s := fst (socket_trace evs constructor) in
    (getConnectionStatus s = true
     <-> exists before ev after,
           evs = before ++ ev :: after
           /\ raises_flag ev = true
           /\ forallb (fun e => negb (lowers_flag e)) after = true)
    /\ (forallb (fun ev => negb (is_orphan_event ev)) evs = true ->
        getConnectionStatus s = true -> ws s <> None)
    /\ (forall (fresh fresh' : string) (arg arg' : option string),
          let s' :=
            fst (socket_trace [ClientConnect fresh arg; ClientConnect fresh' arg';
                               ClientDisconnect] s) in
          getConnectionStatus (fst (socket_step OrphanOpened s')) = true
          /\ ws (fst (socket_step OrphanOpened s')) = None
          /\ snd (socket_step OrphanOpened s') = []).
Proof.
  intros evs s. unfold getConnectionStatus. split; [| split].
  - unfold s. rewrite socket_trace_flag. split.
    + intros [[Hfalse _] | H]; [discriminate | exact H].
    + intros H. right. exact H.
  - assert (Hgen : forall s0 : WebSocketService,
              (isConnected s0 = true -> ws s0 <> None) ->
              forallb (fun ev => negb (is_orphan_event ev)) evs = true ->
              isConnected (fst (socket_trace evs s0)) = true ->
              ws (fst (socket_trace evs s0)) <> None).
    { clear s. induction evs as [| ev later IH]; intros s0 Hs0 Hall Hc.
      - apply Hs0, Hc.
      - cbn [forallb] in Hall. apply andb_true_iff in Hall as [Hev Hlater].
        apply negb_true_iff in Hev.
        cbn [socket_trace] in Hc |- *. rewrite and_then_fst_snd in Hc |- *.
        cbn [fst] in Hc |- *.
        apply (IH (fst (socket_step ev s0))); try assumption.
        now apply socket_step_held. }
    apply Hgen. discriminate.
  - clearbody s. intros fresh fresh' arg arg'.
    destruct s as [w sid conn att mx dl subs ctx q buf tm pl].
    destruct tm, ctx;
      (split; [| split]); vm_compute; reflexivity.
Qed.

(** A connect followed by the opening of the socket. *)
Lemma connected_only_after_an_open_witness :
  getConnectionStatus
    (fst (socket_trace [ClientConnect "session_11" None; SocketOpened]
                       constructor)) = true
  /\ ws (fst (socket_trace [ClientConnect "session_11" None; SocketOpened]
                           constructor)) <> None.
Proof.
  destruct (connected_only_after_an_open
              [ClientConnect "session_11" None; SocketOpened])
    as (Hflag & Hheld & _).
  assert (H : getConnectionStatus
                (fst (socket_trace [ClientConnect "session_11" None; SocketOpened]
                                   constructor)) = true).
  { apply Hflag. exists [ClientConnect "session_11" None], SocketOpened, [].
    repeat split. }
  split; [exact H | apply Hheld; [reflexivity | exact H]].
Defined.

(** ** The console *)

Lemma handleEach_app (ToString : jsval -> string) (held : jsval)
    (reading : nat -> string) (l1 l2 : list object) :
  forall (i : nat) (st : App.State),
    App.handleEach ToString held reading i (l1 ++ l2) st
    = App.handleEach ToString held reading (i + List.length l1)%nat l2
        (App.handleEach ToString held reading i l1 st).
Proof.
  induction l1 as [| e l1 IH]; intros i st; cbn [App.handleEach app List.length].
  - now rewrite Nat.add_0_r.
  - rewrite IH. now replace (S i + List.length l1)%nat
      with (i + S (List.length l1))%nat by lia.
Qed.

Lemma handleWebSocketEvent_transcripts (ToString : jsval -> string)
    (now : string) (held : jsval) (event : object) (st : App.State) :
  App.transcripts (App.handleWebSocketEvent ToString now held event st)
  = App.transcripts st ++ appended [event].
Proof.
  unfold App.handleWebSocketEvent, appended, prop.
  destruct (own_prop "type" event) as [| | b | q | t | items | ps | data | name];
    cbn; try now rewrite app_nil_r.
  by_label t; cbn; try reflexivity; now rewrite app_nil_r.
Qed.

Lemma appended_app (l1 l2 : list object) :
  appended (l1 ++ l2) = appended l1 ++ appended l2.
Proof.
  induction l1 as [| e l1 IH]; [reflexivity |].
  cbn [app appended]. rewrite IH.
  destruct (App.is_string _ _); reflexivity.
Qed.

Lemma handleEach_transcripts (ToString : jsval -> string) (held : jsval)
    (reading : nat -> string) (events : list object) :
  forall (i : nat) (st : App.State),
    App.transcripts (App.handleEach ToString held reading i events st)
    = App.transcripts st ++ appended events.
Proof.
  induction events as [| e events IH]; intros i st.
  - cbn. now rewrite app_nil_r.
  - cbn [App.handleEach]. rewrite IH, handleWebSocketEvent_transcripts.
    rewrite <- app_assoc. f_equal.
    change (e :: events) with ([e] ++ events). now rewrite appended_app.
Qed.

Lemma handleMessage_appended (JSON_parse : string -> option jsval)
    (now : string) (handle : nat) (event : frame) (s : WebSocketService) :
  appended (published (snd (handleMessage JSON_parse now handle event s)))
  = map (panel_entry now) (transcript_messages JSON_parse [event]).
Proof.
  destruct event as [data | data | data]; [| | reflexivity].
  - unfold handleMessage, handleAudioChunk, clear_play_timeout.
    destruct s as [w sid conn att mx dl subs ctx q buf tm pl].
    destruct tm; reflexivity.
  - cbn [handleMessage transcript_messages].
    destruct (JSON_parse data) as [message |]; [| reflexivity].
    unfold processMessage, panel_entry.
    destruct message as [| | b | q | t | items | ps | bs | name];
      try reflexivity.
    cbn [prop].
    destruct (own_prop "type" ps)
      as [| | b | q | t | items | ps' | bs | name] eqn:Htype;
      try reflexivity.
    cbn [App.is_string].
    by_label t; cbn; rewrite ?Htype; reflexivity.
Qed.

Lemma transcript_messages_app (JSON_parse : string -> option jsval)
    (f1 f2 : list frame) :
  transcript_messages JSON_parse (f1 ++ f2)
  = transcript_messages JSON_parse f1 ++ transcript_messages JSON_parse f2.
Proof.
  induction f1 as [| f f1 IH]; [reflexivity |].
  cbn [app transcript_messages].
  destruct f as [data | data | data]; [exact IH | | exact IH].
  destruct (JSON_parse data); [| exact IH].
  destruct (_ || _); [cbn; now rewrite IH | exact IH].
Qed.

Lemma receive_appended (JSON_parse : string -> option jsval) (now : string)
    (frames : list frame) :
  forall (handle : nat) (s : WebSocketService),
    appended (published (snd (receive JSON_parse now handle frames s)))
    = map (panel_entry now) (transcript_messages JSON_parse frames).
Proof.
  induction frames as [| f frames IH]; intros handle s; [reflexivity |].
  cbn [receive]. rewrite and_then_fst_snd. cbn [snd].
  rewrite published_app, appended_app, IH, handleMessage_appended.
  change (f :: frames) with ([f] ++ frames).
  now rewrite transcript_messages_app, map_app.
Qed.

(** X26. The transcript list of the console grows by one entry for every
    text frame that [processMessage] treats as a transcript, in arrival
    order and with the text of the frame; binary frames, frames that do not
    parse and every other message leave the list as it is. *)
Theorem transcript_frames_reach_the_panel :
  forall (JSON_parse : string -> option jsval) (ToString : jsval -> string)
         (reading : nat -> string) (now : string) (handle : nat)
         (frames : list frame) (s : WebSocketService) (st : App.State),
    let st' :=
      console_after ToString reading
                    (receive JSON_parse now handle frames s) st in
    map (own_prop "text") (App.transcripts st')
    = map (own_prop "text") (App.transcripts st)
      ++ map (fun message => prop message "text")
             (transcript_messages JSON_parse frames)
    /\ List.length (App.transcripts st')
       = (List.length (App.transcripts st)
          + List.length (transcript_messages JSON_parse frames))%nat.
Proof.
  intros JSON_parse ToString reading now handle frames s st st'.
  assert (H : App.transcripts st'
              = App.transcripts st
                ++ map (panel_entry now)
                       (transcript_messages JSON_parse frames)).
  { unfold st', console_after.
    now rewrite handleEach_transcripts, receive_appended. }
  rewrite H. split.
  - rewrite map_app, map_map. reflexivity.
  - now rewrite length_app, length_map.
Qed.

Lemma forEach_user (clock : nat -> string) (transcripts : list object) :
  forall (i : nat) (userMessages systemMessages : list object),
    map (own_prop "text")
        (LiveTranscript.userTranscripts
           (LiveTranscript.forEach clock i transcripts
                                   userMessages systemMessages))
    = map (own_prop "text") userMessages
      ++ map column_text (filter speaker_user transcripts).
Proof.
  induction transcripts as [| t transcripts IH]; intros i us sy.
  - cbn. now rewrite app_nil_r.
  - cbn [LiveTranscript.forEach filter prop]. unfold speaker_user at 1.
    destruct (App.is_string (own_prop "speaker" t) "user").
    + rewrite IH, map_app, <- app_assoc. reflexivity.
    + destruct (_ || _); now rewrite IH.
Qed.

Lemma speaker_user_not_system (t : object) :
  speaker_user t = true -> speaker_system t = false.
Proof.
  unfold speaker_user, speaker_system.
  destruct (own_prop "speaker" t); cbn; try discriminate.
  intros H. apply String.eqb_eq in H. subst. reflexivity.
Qed.

Lemma forEach_system (clock : nat -> string) (transcripts : list object) :
  forall (i : nat) (userMessages systemMessages : list object),
    map (own_prop "text")
        (LiveTranscript.systemTranscripts
           (LiveTranscript.forEach clock i transcripts
                                   userMessages systemMessages))
    = map (own_prop "text") systemMessages
      ++ map column_text (filter speaker_system transcripts).
Proof.
  induction transcripts as [| t transcripts IH]; intros i us sy.
  - cbn. now rewrite app_nil_r.
  - cbn [LiveTranscript.forEach filter prop].
    pose proof (speaker_user_not_system t) as Hu.
    unfold speaker_user in Hu.
    destruct (App.is_string (own_prop "speaker" t) "user").
    + rewrite (Hu eq_refl). now rewrite IH.
    + unfold speaker_system at 1.
      destruct (_ || _); [| now rewrite IH].
      rewrite IH, map_app, <- app_assoc. reflexivity.
Qed.

Lemma unlabelled_entry (now : string) (message : jsval) :
  truthy (prop message "speaker") = false ->
  speaker_user (panel_entry now message) = negb (is_ai_transcript message)
  /\ speaker_system (panel_entry now message) = is_ai_transcript message
  /\ column_text (panel_entry now message) = shown_text message.
Proof.
  intros Hspeaker.
  unfold speaker_user, speaker_system, column_text, panel_entry,
    is_ai_transcript, shown_text.
  cbn [own_prop String.eqb Ascii.eqb Bool.eqb].
  unfold js_or at 1 2 3. rewrite Hspeaker.
  destruct (App.is_string (prop message "type") "ai_transcript");
    repeat split; reflexivity.
Qed.

Lemma unlabelled_entries (now : string) (messages : list jsval) :
  Forall (fun message => truthy (prop message "speaker") = false) messages ->
  map column_text (filter speaker_user (map (panel_entry now) messages))
  = map shown_text
        (filter (fun message => negb (is_ai_transcript message)) messages)
  /\ map column_text (filter speaker_system (map (panel_entry now) messages))
     = map shown_text (filter is_ai_transcript messages).
Proof.
  induction 1 as [| message messages Hspeaker _ [IHu IHs]]; [split; reflexivity |].
  destruct (unlabelled_entry now message Hspeaker) as (Hu & Hs & Ht).
  cbn [map filter]. rewrite Hu, Hs.
  destruct (is_ai_transcript message); cbn [negb map];
    rewrite ?Ht, IHu, IHs; split; reflexivity.
Qed.

(** X27. When the server names no speaker, every transcript it sends is
    shown in exactly one column: the [ai_transcript] messages in the system
    column, the others in the user column, each column in arrival order,
    with the empty text standing in for a missing one. *)
Theorem unlabelled_transcripts_split_by_kind :
  forall (JSON_parse : string -> option jsval) (ToString : jsval -> string)
         (reading clock : nat -> string) (now : string) (handle : nat)
         (frames : list frame) (s : WebSocketService) (st : App.State),
    App.transcripts st = [] ->
    Forall (fun message => truthy (prop message "speaker") = false)
           (transcript_messages JSON_parse frames) ->
    let st' :=
      console_after ToString reading
                    (receive JSON_parse now handle frames s) st in
    let shown :=
      LiveTranscript.update clock (App.transcripts st')
                            LiveTranscript.initial in
    map (own_prop "text") (LiveTranscript.userTranscripts shown)
    = map shown_text
          (filter (fun message => negb (is_ai_transcript message))
                  (transcript_messages JSON_parse frames))
    /\ map (own_prop "text") (LiveTranscript.systemTranscripts shown)
       = map shown_text
             (filter is_ai_transcript (transcript_messages JSON_parse frames)).
Proof.
  intros JSON_parse ToString reading clock now handle frames s st Hempty Hspeaker
         st' shown.
  assert (H : App.transcripts st'
              = map (panel_entry now) (transcript_messages JSON_parse frames)).
  { unfold st', console_after.
    now rewrite handleEach_transcripts, receive_appended, Hempty. }
  unfold shown. rewrite H. clear H shown st'.
  destruct (transcript_messages JSON_parse frames) as [| message messages] eqn:Hm.
  - split; reflexivity.
  - unfold LiveTranscript.update.
    cbn [map].
    rewrite forEach_user, forEach_system.
    exact (unlabelled_entries now (message :: messages) Hspeaker).
Qed.

Lemma unlabelled_transcripts_split_by_kind_witness :
  let JSON_parse := fun text : string =>
    if String.eqb text "a"
    then Some (JObj [("type", JStr "ai_transcript"); ("text", JStr "Help is on the way")])
    else Some (JObj [("type", JStr "user_transcript"); ("text", JStr "Fire at the mill")]) in
  let frames := [Text "u"; Binary []; Text "a"] in
  let shown :=
    LiveTranscript.update (fun _ => "12:00")
      (App.transcripts
         (console_after (fun _ => "") (fun _ => "12:00")
                        (receive JSON_parse "12:00" 1 frames constructor)
                        App.initial))
      LiveTranscript.initial in
  map (own_prop "text") (LiveTranscript.userTranscripts shown)
  = [JStr "Fire at the mill"]
  /\ map (own_prop "text") (LiveTranscript.systemTranscripts shown)
     = [JStr "Help is on the way"].
Proof.
  intros JSON_parse frames shown.
  apply (unlabelled_transcripts_split_by_kind
           JSON_parse (fun _ => "") (fun _ => "12:00") (fun _ => "12:00")
           "12:00" 1%nat frames constructor App.initial).
  - reflexivity.
  - repeat constructor.
Defined.

(** X28. End Call empties the console's transcript list, but the columns
    keep the messages of the call that ended: the effect of
    [LiveTranscript] returns at once on the empty list. They are replaced
    when the next transcript arrives, and then hold that one message at
    most. *)
Theorem end_call_keeps_the_columns :
  forall (ToString : jsval -> string) (clock : nat -> string)
         (s : WebSocketService) (st : App.State)
         (shown : LiveTranscript.Columns) (now : string) (held : jsval)
         (event : object),
    let ended := snd (App.handleEndCall s st) in
    let next := App.handleWebSocketEvent ToString now held event ended in
    let replaced := LiveTranscript.update clock (App.transcripts next) shown in
    App.transcripts ended = []
    /\ LiveTranscript.update clock (App.transcripts ended) shown = shown
    /\ (App.is_string (own_prop "type" event) "transcript" = true ->
        (List.length (LiveTranscript.userTranscripts replaced)
         + List.length (LiveTranscript.systemTranscripts replaced) <= 1)%nat
        /\ (App.is_string (own_prop "speaker" event) "user" = true ->
            List.length (LiveTranscript.userTranscripts replaced) = 1%nat)).
Proof.
  intros ToString clock s st shown now held event ended next replaced.
  split; [reflexivity |]. split; [reflexivity |].
  intros Htype. unfold replaced, next.
  rewrite handleWebSocketEvent_transcripts. cbn [appended]. rewrite Htype.
  cbn.
  destruct (App.is_string (own_prop "speaker" event) "user") eqn:Hu.
  - cbn. split; [lia | reflexivity].
  - destruct (_ || _); cbn; split; (lia || discriminate).
Qed.





Lemma handleWebSocketEvent_badge (ToString : jsval -> string) (now : string)
    (held : jsval) (event : object) (st : App.State) :
  reason_matches_badge st ->
  reason_matches_badge (App.handleWebSocketEvent ToString now held event st).
Proof.
  intros H. unfold App.handleWebSocketEvent.
  change (prop (JObj event) "type") with (own_prop "type" event).
  destruct (own_prop "type" event) as [| | b | q | t | items | ps | data | name];
    cbn [App.is_string orb]; try exact H.
  by_label t; cbn [String.eqb Ascii.eqb Bool.eqb orb]; try exact H;
    unfold reason_matches_badge;
    cbn [App.escalationState App.escalationReason].
  - destruct (truthy (prop _ "human_required")).
    + left. split; [reflexivity |].
      unfold EscalationPanel.shows_reason, js_or.
      destruct (truthy (prop _ "escalation_reason")) eqn:Hr;
        [exact Hr | reflexivity].
    + right. split; reflexivity.
  - destruct (truthy (prop _ "human_required")).
    + left. split; [reflexivity |].
      unfold EscalationPanel.shows_reason, js_or.
      destruct (truthy (prop _ "escalation_reason")) eqn:Hr;
        [exact Hr | reflexivity].
    + right. split; reflexivity.
  - destruct (truthy (prop _ "why_escalated")) eqn:Hw; [| exact H].
    left. split; [reflexivity | exact Hw].
Qed.

Lemma console_step_badge (ToString : jsval -> string) (st : App.State)
    (i : console_input) :
  reason_matches_badge st -> reason_matches_badge (console_step ToString st i).
Proof.
  intros H. destruct i as [now held event | s | s]; cbn [console_step].
  - now apply handleWebSocketEvent_badge.
  - unfold App.handleEscalate.
    destruct (getConnectionStatus s); [destruct (ws s) as [[| | |] |] |];
      first [exact H | left; split; reflexivity].
  - right. split; reflexivity.
Qed.

(** X30. Whatever events arrive and whichever of Escalate and End Call the
    dispatcher presses, in any order, the escalation panel names a reason
    exactly when its badge reads ESCALATE; otherwise the badge reads NORMAL.
    The REVIEW badge is never shown. *)
Theorem escalation_reason_matches_badge :
  forall (ToString : jsval -> string) (inputs : list console_input),
    let st := console_run ToString inputs App.initial in
    reason_matches_badge st
    /\ fst (fst (EscalationPanel.getEscalationStatus (App.escalationState st)))
       <> "REVIEW".
Proof.
  intros ToString inputs st.
  assert (H : reason_matches_badge st).
  { unfold st, console_run.
    assert (H0 : reason_matches_badge App.initial)
      by (right; split; reflexivity).
    revert H0. generalize App.initial.
    induction inputs as [| i inputs IH]; intros st0 H0; [exact H0 |].
    cbn [fold_left]. apply IH. now apply console_step_badge. }
  split; [exact H |].
  destruct H as [[H _] | [H _]]; rewrite H; discriminate.
Qed.
